(** * pktizr: generator, transmitter, receiver, ARP resolver and the
      integer codec of the script pack helper

    A shallow embedding of [src/pktizr.c], [src/resolv.c] and of the
    integer part of [deps/lua-pack/lpack.c].  Machine integers are [Z]
    with their wrap-around written out, byte buffers are lists of [Z] in
    the range 0..255 updated by index, the token count of a bucket is a
    binary64 float as in the C code, and the worker loops thread an
    explicit state together with the trace of the device, script and
    allocator calls they make.  What a worker reads from the outside
    (the shared flags, the clock, the capture device, the send queue) is
    given to it as an input per step. *)

From Stdlib Require Import ZArith Lia Bool Ascii String.
From Stdlib Require Import Floats.PrimFloat.
From stdpp Require Import list.

Local Open Scope Z_scope.

(** Case analysis on the integer comparisons of a goal. *)
Ltac zcases :=
  repeat match goal with
  | |- context [?a <=? ?b] => destruct (Z.leb_spec a b)
  | |- context [?a <? ?b] => destruct (Z.ltb_spec a b)
  | |- context [?a =? ?b] => destruct (Z.eqb_spec a b)
  end; simpl; try reflexivity; try lia.

(** * Part I: the model *)

(** ** Machine integers and bytes *)

(** [uint64_t] / [size_t] arithmetic wraps modulo 2^64. *)
Definition wrap64 (x : Z) : Z := x mod 2 ^ 64.

(** conversions to [uint32_t] and [uint16_t] *)
Definition uint32 (x : Z) : Z := x mod 2 ^ 32.
Definition uint16 (x : Z) : Z := x mod 2 ^ 16.

(** Byte [k] of an integer, counted from the least significant one. *)
Definition byte_of (x : Z) (k : Z) : Z := Z.land (Z.shiftr x (8 * k)) 255.

(** The four bytes of an IPv4 address in network order. *)
Definition be_bytes32 (x : Z) : list Z :=
  [byte_of x 3; byte_of x 2; byte_of x 1; byte_of x 0].

Section ByteOrder.

(** whether the machine stores the least significant byte first *)
Variable little : bool.

Definition bswap32 (x : Z) : Z :=
  byte_of x 0 * 2 ^ 24 + byte_of x 1 * 2 ^ 16 + byte_of x 2 * 2 ^ 8
  + byte_of x 3.

Definition htonl (x : Z) : Z := if little then bswap32 x else x.
Definition ntohl (x : Z) : Z := if little then bswap32 x else x.

(** the bytes found at [(uint8_t * ) &x] for a [uint32_t x] *)
Definition mem32 (x : Z) : list Z :=
  if little
  then [byte_of x 0; byte_of x 1; byte_of x 2; byte_of x 3]
  else [byte_of x 3; byte_of x 2; byte_of x 1; byte_of x 0].

End ByteOrder.

(** [memcmp(a, b, n) != 0] on byte arrays of at least [n] bytes *)
Definition memcmp_ne (a b : list Z) (n : nat) : bool :=
  negb (bool_decide (take n a = take n b)).

(** ** deps/lua-pack/lpack.c : packint and unpackint *)

Module LPack.

(** number of bits in a character, and the mask for one character *)
Definition NB : Z := 8.
Definition MC : Z := Z.shiftl 1 NB - 1.

Section WithLuaInteger.

(** [SZINT] is [sizeof(lua_Integer)]; the type comes from [lua.h],
    which is not part of the repository, so its size is a parameter. *)
Variable SZINT : Z.

(** conversion to [lua_Unsigned] *)
Definition to_unsigned (x : Z) : Z := x mod 2 ^ (NB * SZINT).

(** conversion of a [lua_Unsigned] to [lua_Integer] (two's complement) *)
Definition to_integer (x : Z) : Z :=
  let u := to_unsigned x in
  if u <? 2 ^ (NB * SZINT - 1) then u else u - 2 ^ (NB * SZINT).

(** [islittle ? i : size - 1 - i] *)
Definition pos (islittle : bool) (size i : Z) : nat :=
  Z.to_nat (if islittle then i else size - 1 - i).

(** [for (i = 1; i < size; i++) { n >>= NB; buff[..] = (char)(n & MC); }]
    with [k] iterations left to run. *)
Fixpoint packint_bytes (k : nat) (i n : Z) (islittle : bool) (size : Z)
    (buff : list Z) : list Z :=
  match k with
  | O => buff
  | S k' =>
      let n := Z.shiftr n NB in
      packint_bytes k' (i + 1) n islittle size
        (<[pos islittle size i := Z.land n MC]> buff)
  end.

(** [for (i = SZINT; i < size; i++) buff[..] = (char)MC;] *)
Fixpoint packint_extend (k : nat) (i : Z) (islittle : bool) (size : Z)
    (buff : list Z) : list Z :=
  match k with
  | O => buff
  | S k' =>
      packint_extend k' (i + 1) islittle size
        (<[pos islittle size i := MC]> buff)
  end.

(** [packint]: [buff] is the area of [size] bytes handed out by
    [luaL_prepbuffsize]; [n] is the value already cast to
    [lua_Unsigned]. *)
Definition packint (buff : list Z) (n : Z) (islittle : bool) (size : Z)
    (neg : bool) : list Z :=
  let buff := <[pos islittle size 0 := Z.land n MC]> buff in
  let buff := packint_bytes (Z.to_nat (size - 1)) 1 n islittle size buff in
  if neg && (SZINT <? size)
  then packint_extend (Z.to_nat (size - SZINT)) SZINT islittle size buff
  else buff.

(** [(unsigned char)str[k]]; [str_unpack] checks that [size] bytes
    are available before it calls [unpackint]. *)
Definition byte_at (str : list Z) (k : nat) : Z := default 0 (str !! k).

(** [for (i = limit - 1; i >= 0; i--) { res <<= NB; res |= str[..]; }]
    with [k = i + 1] iterations left to run. *)
Fixpoint unpackint_bytes (k : nat) (str : list Z) (islittle : bool)
    (size : Z) (res : Z) : Z :=
  match k with
  | O => res
  | S i =>
      let res := to_unsigned (Z.shiftl res NB) in
      let res := Z.lor res (byte_at str (pos islittle size (Z.of_nat i))) in
      unpackint_bytes i str islittle size res
  end.

(** [for (i = limit; i < size; i++) if (str[..] != mask) luaL_error(..)]:
    [true] when every unread byte equals [mask]. *)
Fixpoint unpackint_check (k : nat) (i : Z) (str : list Z) (islittle : bool)
    (size : Z) (mask : Z) : bool :=
  match k with
  | O => true
  | S k' =>
      (byte_at str (pos islittle size i) =? mask)
      && unpackint_check k' (i + 1) str islittle size mask
  end.

(** [unpackint]; [None] is the [luaL_error] exit. *)
Definition unpackint (str : list Z) (islittle : bool) (size : Z)
    (issigned : bool) : option Z :=
  let limit := if size <=? SZINT then size else SZINT in
  let res := unpackint_bytes (Z.to_nat limit) str islittle size 0 in
  if size <? SZINT then
    if issigned then
      let mask := to_unsigned (Z.shiftl 1 (size * NB - 1)) in
      Some (to_integer (to_unsigned (Z.lxor res mask - mask)))
    else Some (to_integer res)
  else if SZINT <? size then
    let mask := if negb issigned || (0 <=? to_integer res) then 0 else MC in
    if unpackint_check (Z.to_nat (size - limit)) limit str islittle size mask
    then Some (to_integer res)
    else None
  else Some (to_integer res).

(** The values [str_pack] lets through to [packint] for a field of
    [size] bytes: the [luaL_argcheck] of the [Kint] case, and of the
    [Kuint] case (where the unsigned reading of [n] has to fit). *)
Definition representable (issigned : bool) (size n : Z) : Prop :=
  if issigned
  then - 2 ^ (NB * size - 1) <= n < 2 ^ (NB * size - 1)
  else 0 <= to_unsigned n < 2 ^ (NB * size).

End WithLuaInteger.

End LPack.

(** ** Range lists *)

Module Ranges.

(** Modelled from the spec: [ranges.c] is not among the sources.  A
    range list is an ordered sequence of half-open intervals
    [[lo, hi)]; [range_list_count] is the total number of elements and
    [range_list_pick l i] the [i]-th element in canonical order.  (The
    cumulative counts and the binary search of the spec are a way to
    compute the same element.)  The spec has the interface reject an
    index that is out of range; the model answers 0 there. *)
Record range := { lo : Z; hi : Z }.

Definition range_list := list range.

Definition width (r : range) : Z := hi r - lo r.

Fixpoint range_list_count (l : range_list) : Z :=
  match l with
  | [] => 0
  | r :: l' => width r + range_list_count l'
  end.

Fixpoint range_list_pick (l : range_list) (i : Z) : Z :=
  match l with
  | [] => 0
  | r :: l' =>
      if i <? width r then lo r + i else range_list_pick l' (i - width r)
  end.

End Ranges.

(** ** Packet chains *)

Module Pkt.

(** Modelled from the spec: [pkt.h] and [pkt.c] are not among the
    sources.  A chain is a list of nodes, outermost first; every node
    holds one header variant.  Only the ARP and Ethernet headers are
    inspected by the code under study; the other variants keep their
    header as raw bytes.  [probe] is the flag of the send queue node. *)
Inductive pkt_type :=
  TYPE_ETH | TYPE_ARP | TYPE_IP4 | TYPE_ICMP | TYPE_UDP | TYPE_TCP.

Record arp_hdr := {
  hwtype : Z; ptype : Z; op : Z;
  hwsrc : list Z; psrc : list Z; hwdst : list Z; pdst : list Z
}.

Record eth_hdr := { eth_src : list Z; eth_dst : list Z; eth_type : Z }.

Inductive node :=
| N_eth (h : eth_hdr)
| N_arp (h : arp_hdr)
| N_ip4 (raw : list Z)
| N_icmp (raw : list Z)
| N_udp (raw : list Z)
| N_tcp (raw : list Z).

Definition type (n : node) : pkt_type :=
  match n with
  | N_eth _ => TYPE_ETH
  | N_arp _ => TYPE_ARP
  | N_ip4 _ => TYPE_IP4
  | N_icmp _ => TYPE_ICMP
  | N_udp _ => TYPE_UDP
  | N_tcp _ => TYPE_TCP
  end.

Record pkt := { probe : bool; nodes : list node }.

(** Modelled from the spec: the legal encapsulation pairs (Ethernet
    wraps IPv4 or ARP; IPv4 wraps TCP, UDP or ICMP). *)
Definition legal_pair (outer inner : pkt_type) : bool :=
  match outer, inner with
  | TYPE_ETH, TYPE_IP4 | TYPE_ETH, TYPE_ARP => true
  | TYPE_IP4, TYPE_TCP | TYPE_IP4, TYPE_UDP | TYPE_IP4, TYPE_ICMP => true
  | _, _ => false
  end.

Fixpoint well_formed (c : list node) : bool :=
  match c with
  | a :: (b :: _) as c' => legal_pair (type a) (type b) && well_formed c'
  | _ => true
  end.

(** Modelled from the spec: what [pkt_unpack] hands back.  It parses
    outermost-first starting from Ethernet, yields a well-formed chain
    and returns the number of layers parsed. *)
Definition unpacked (n : Z) (p : pkt) : bool :=
  (n =? Z.of_nat (length (nodes p)))
  && match nodes p with
     | [] => true
     | a :: _ => match a with N_eth _ => true | _ => false end
     end
  && well_formed (nodes p).

(** Modelled from the spec: the build operations fill the node's
    variant with the header fields they are given. *)
Definition pkt_build_arp (hwtype ptype op : Z) (hwsrc psrc hwdst pdst : list Z)
    : node :=
  N_arp {| hwtype := hwtype; ptype := ptype; op := op;
           hwsrc := take 6 hwsrc; psrc := take 4 psrc;
           hwdst := take 6 hwdst; pdst := take 4 pdst |}.

Definition pkt_build_eth (src dst : list Z) (type : Z) : node :=
  N_eth {| eth_src := take 6 src; eth_dst := take 6 dst; eth_type := type |}.

(** [pkt_pack(buf, len, pkt)] gives the [int] it returns and the bytes
    it leaves in [buf]; [pkt_unpack(ta, buf, len, &pkt)] gives the [int]
    it returns and the chain it stores. *)
Class Codec := {
  pkt_pack : Z -> pkt -> Z * list Z;
  pkt_unpack : list Z -> Z -> Z * pkt
}.

End Pkt.

(** ** Token bucket *)

Module Bucket.

(** Modelled from the spec: [bucket.c] is not among the sources.  The
    state is (capacity, current tokens, last refill time);
    [bucket_consume] refills from the clock and is given the reading of
    the clock it makes. *)
Record bucket := { capacity : Z; tokens : float; last : Z }.

Class TokenBucket := {
  bucket_init : Z -> bucket;
  bucket_consume : bucket -> Z -> bucket
}.

(** [bucket.tokens--] *)
Definition take_token (b : bucket) : bucket :=
  {| capacity := capacity b; tokens := PrimFloat.sub (tokens b) 1%float;
     last := last b |}.

End Bucket.

(** ** Script host *)

Module Script.

(** The script host is reached through [script.h] only.  [L] is the
    state behind the handle that [script_load] returns; an upcall gives
    its [int] result and the next state. *)
Class ScriptHost (L : Type) := {
  script_load : L;
  script_loop : L -> Z -> Z -> Z * L;
  script_recv : L -> Pkt.pkt -> Z * L
}.

End Script.

(** ** What a run leaves behind: calls on the device, the script and
       the allocator, in the order they are made *)

Inductive event :=
| Ev_get_buf
| Ev_inject (buf : list Z) (len : Z)
| Ev_capture
| Ev_release
| Ev_pkt_free (p : Pkt.pkt)
| Ev_script_loop (daddr dport : Z)
| Ev_script_recv (p : Pkt.pkt)
| Ev_script_close.

Definition is_inject (e : event) : bool :=
  match e with Ev_inject _ _ => true | _ => false end.

(** The number of frames a run injects. *)
Definition injects (tr : list event) : nat :=
  length (List.filter is_inject tr).

(** Whether a worker loop is still running. *)
Inductive ctl := Running | Exited.

(** ** src/resolv.c : resolv_addr_to_mac *)

Module Resolv.

Import Pkt.

Definition ETH_PKTLEN : Z := 14.
Definition ARP_PKTLEN : Z := 8 + 2 * 6 + 2 * 4.

Definition ARPHRD_ETHER : Z := 1.
Definition ETHERTYPE_IP : Z := 2048.
Definition ARPOP_REQUEST : Z := 1.

(** 5 seconds in microseconds *)
Definition timeout : Z := 5000000.

(** How a call ends: [fail_printf], a [return], a dereference of a null
    chain, or still polling when the inputs given to the model run out. *)
Inductive result :=
| Fatal (msg : string)
| Ret (rc : Z)
| Fault
| Polling.

(** One turn of the polling loop reads the device and then the clock. *)
Record capture_in := { cap_frame : option (list Z * Z); cap_now : Z }.

Section WithCodec.

Context `{CD : Codec}.
Variable little : bool.

(** lines 78-88: the chain built for the request *)
Definition arp_request (shost : list Z) (saddr daddr : Z) : pkt :=
  let arp :=
    pkt_build_arp ARPHRD_ETHER ETHERTYPE_IP ARPOP_REQUEST
      shost (mem32 little saddr) [0; 0; 0; 0; 0; 0] (mem32 little daddr) in
  let eth := pkt_build_eth shost [255; 255; 255; 255; 255; 255] 0 in
  {| probe := false; nodes := [arp] ++ [eth] |}.

(** An ARP header whose [psrc] is the address [daddr] and whose
    [pdst] is the address [saddr] (both as the caller passes them, in
    host order; the header holds them in network order). *)
Definition arp_matches (saddr daddr : Z) (h : arp_hdr) : Prop :=
  take 4 (psrc h) = be_bytes32 daddr /\ take 4 (pdst h) = be_bytes32 saddr.

(** lines 110-125: what the loop does with a captured frame.
    [None] stands for [continue], [Some (r, mac)] for leaving the loop
    with result [r] after the [memcpy] of [mac] into [dhost]. *)
Definition check_reply (saddr daddr : Z) (rsp : list Z) (rsp_len : Z)
    : option (result * option (list Z)) :=
  let '(n, rsp_pkt) := pkt_unpack rsp rsp_len in
  if n <? 2 then None
  else
    match nodes rsp_pkt with
    | [] => Some (Fault, None)
    | _ :: N_arp arp_pkt :: _ =>
        if memcmp_ne (mem32 little daddr) (psrc arp_pkt) 4 then None
        else if memcmp_ne (mem32 little saddr) (pdst arp_pkt) 4 then None
        else Some (Ret 0, Some (take 6 (hwsrc arp_pkt)))
    | _ => None
    end.

(** lines 99-126: [while (1)], one input per turn *)
Fixpoint poll (start : Z) (saddr daddr : Z) (ins : list capture_in)
    (dhost : list Z) (tr : list event) : result * list Z * list event :=
  match ins with
  | [] => (Polling, dhost, tr)
  | i :: ins' =>
      let tr := tr ++ [Ev_capture] in
      if timeout <? wrap64 (cap_now i - start) then (Ret (-1), dhost, tr)
      else
        match cap_frame i with
        | None => poll start saddr daddr ins' dhost tr
        | Some (rsp, rsp_len) =>
            match check_reply saddr daddr rsp rsp_len with
            | None => poll start saddr daddr ins' dhost tr
            | Some (r, None) => (r, dhost, tr)
            | Some (r, Some mac) => (r, mac ++ drop 6 dhost, tr)
            end
        end
  end.

(** A turn of the loop within the time limit that brings no reply:
    no frame, or a frame that [pkt_unpack] unpacks to a chain without
    a matching ARP header. *)
Definition no_reply (start saddr daddr : Z) (i : capture_in) : Prop :=
  wrap64 (cap_now i - start) <= timeout
  /\ match cap_frame i with
     | None => True
     | Some (rsp, rsp_len) =>
         unpacked (fst (pkt_unpack rsp rsp_len))
                  (snd (pkt_unpack rsp rsp_len)) = true
         /\ forall h, In (N_arp h) (nodes (snd (pkt_unpack rsp rsp_len))) ->
                      ~ arp_matches saddr daddr h
     end.

(** [resolv_addr_to_mac(netif, shost, saddr, dhost, daddr)]; [start]
    is the reading of the clock at line 96.  The result holds what is
    in [dhost] afterwards and the calls made on the device. *)
Definition resolv_addr_to_mac (start : Z) (ins : list capture_in)
    (shost : list Z) (saddr : Z) (dhost : list Z) (daddr : Z)
    : result * list Z * list event :=
  let saddr := htonl little saddr in
  let daddr := htonl little daddr in
  let pkt := arp_request shost saddr daddr in
  let '(len, buf) := pkt_pack (ETH_PKTLEN + ARP_PKTLEN) pkt in
  if len <? 0 then (Fatal "Error packing ARP packet", dhost, [])
  else poll start saddr daddr ins dhost [Ev_inject buf len].

End WithCodec.

End Resolv.

(** ** src/pktizr.c *)

Module Pktizr.

Import Pkt Bucket Script Ranges.

(** *** Shared record and start-up *)

(** The fields of [struct pktizr_args] the code under study uses
    ([pktizr.h] is not among the sources). *)
Record pktizr_args := {
  targets : range_list;
  ports : range_list;
  rate : Z;
  seed : Z;
  wait : Z;
  count : Z;
  script : option string;
  quiet : bool;
  done : bool;
  stop : bool;
  local_mac : list Z;
  local_addr : Z;
  gateway_mac : list Z;
  gateway_addr : Z
}.

Definition set_ports v a :=
  {| targets := targets a; ports := v; rate := rate a; seed := seed a;
     wait := wait a; count := count a; script := script a; quiet := quiet a;
     done := done a; stop := stop a; local_mac := local_mac a;
     local_addr := local_addr a; gateway_mac := gateway_mac a;
     gateway_addr := gateway_addr a |}.

Definition set_rate v a :=
  {| targets := targets a; ports := ports a; rate := v; seed := seed a;
     wait := wait a; count := count a; script := script a; quiet := quiet a;
     done := done a; stop := stop a; local_mac := local_mac a;
     local_addr := local_addr a; gateway_mac := gateway_mac a;
     gateway_addr := gateway_addr a |}.

Definition set_seed v a :=
  {| targets := targets a; ports := ports a; rate := rate a; seed := v;
     wait := wait a; count := count a; script := script a; quiet := quiet a;
     done := done a; stop := stop a; local_mac := local_mac a;
     local_addr := local_addr a; gateway_mac := gateway_mac a;
     gateway_addr := gateway_addr a |}.

Definition set_wait v a :=
  {| targets := targets a; ports := ports a; rate := rate a; seed := seed a;
     wait := v; count := count a; script := script a; quiet := quiet a;
     done := done a; stop := stop a; local_mac := local_mac a;
     local_addr := local_addr a; gateway_mac := gateway_mac a;
     gateway_addr := gateway_addr a |}.

Definition set_count v a :=
  {| targets := targets a; ports := ports a; rate := rate a; seed := seed a;
     wait := wait a; count := v; script := script a; quiet := quiet a;
     done := done a; stop := stop a; local_mac := local_mac a;
     local_addr := local_addr a; gateway_mac := gateway_mac a;
     gateway_addr := gateway_addr a |}.

Definition set_script v a :=
  {| targets := targets a; ports := ports a; rate := rate a; seed := seed a;
     wait := wait a; count := count a; script := v; quiet := quiet a;
     done := done a; stop := stop a; local_mac := local_mac a;
     local_addr := local_addr a; gateway_mac := gateway_mac a;
     gateway_addr := gateway_addr a |}.

Definition set_quiet v a :=
  {| targets := targets a; ports := ports a; rate := rate a; seed := seed a;
     wait := wait a; count := count a; script := script a; quiet := v;
     done := done a; stop := stop a; local_mac := local_mac a;
     local_addr := local_addr a; gateway_mac := gateway_mac a;
     gateway_addr := gateway_addr a |}.

Definition set_local_mac v a :=
  {| targets := targets a; ports := ports a; rate := rate a; seed := seed a;
     wait := wait a; count := count a; script := script a; quiet := quiet a;
     done := done a; stop := stop a; local_mac := v;
     local_addr := local_addr a; gateway_mac := gateway_mac a;
     gateway_addr := gateway_addr a |}.

Definition set_local_addr v a :=
  {| targets := targets a; ports := ports a; rate := rate a; seed := seed a;
     wait := wait a; count := count a; script := script a; quiet := quiet a;
     done := done a; stop := stop a; local_mac := local_mac a;
     local_addr := v; gateway_mac := gateway_mac a;
     gateway_addr := gateway_addr a |}.

Definition set_gateway_mac v a :=
  {| targets := targets a; ports := ports a; rate := rate a; seed := seed a;
     wait := wait a; count := count a; script := script a; quiet := quiet a;
     done := done a; stop := stop a; local_mac := local_mac a;
     local_addr := local_addr a; gateway_mac := v;
     gateway_addr := gateway_addr a |}.

Definition set_gateway_addr v a :=
  {| targets := targets a; ports := ports a; rate := rate a; seed := seed a;
     wait := wait a; count := count a; script := script a; quiet := quiet a;
     done := done a; stop := stop a; local_mac := local_mac a;
     local_addr := local_addr a; gateway_mac := gateway_mac a;
     gateway_addr := v |}.

Record route := { gate_addr : Z; if_name : string }.

(** What start-up asks of the C library and of the modules that are
    not among the sources.  [strtoull] gives the value and whether the
    whole argument was consumed; [inet_addr] and [gate_addr] are in
    network byte order; the resolvers and [routes_get_default] give
    [None] when their [rc] is negative, [netdev_open] gives [false] for
    a null device. *)
Class Platform := {
  little_endian : bool;
  strtoull : string -> Z * bool;
  inet_addr : string -> Z;
  range_parse_targets : string -> range_list;
  range_parse_ports : string -> range_list;
  get_entropy : Z;
  routes_get_default : option route;
  resolve_ifname_to_mac : string -> option (list Z);
  resolve_ifname_to_ip : string -> option Z;
  netdev_open : string -> bool
}.

(** The successive results of [getopt_long], each with its [optarg]. *)
Inductive getopt_result :=
| Opt_S (optarg : string)
| Opt_p (optarg : string)
| Opt_r (optarg : string)
| Opt_s (optarg : string)
| Opt_w (optarg : string)
| Opt_c (optarg : string)
| Opt_l (optarg : string)
| Opt_g (optarg : string)
| Opt_q
| Opt_h.

(** How [main] leaves start-up: a [return], a [fail_printf], a fault or
    an unfinished poll inside the resolver, or with the record ready
    for the workers (and the calls made on the device so far). *)
Inductive outcome :=
| Return (code : Z)
| Failure (msg : string)
| Stuck (r : Resolv.result)
| Ready (args : pktizr_args) (tr : list event).

Section WithPlatform.

Context `{PF : Platform} `{CD : Codec}.

Local Open Scope string_scope.

(** lines 113-122 *)
Definition defaults (argv1 : string) (args : pktizr_args) : pktizr_args :=
  {| targets := range_parse_targets argv1;
     ports := range_parse_ports "1";
     rate := 100;
     seed := get_entropy;
     wait := 5;
     count := 1;
     script := None;
     quiet := false;
     done := false;
     stop := false;
     local_mac := local_mac args;
     local_addr := local_addr args;
     gateway_mac := gateway_mac args;
     gateway_addr := gateway_addr args |}.

(** The locals of [main] that the option loop writes. *)
Record locals := {
  l_args : pktizr_args;
  l_local_addr : option string;
  l_gateway_addr : option string
}.

Definition with_args (f : pktizr_args -> pktizr_args) (l : locals) : locals :=
  {| l_args := f (l_args l); l_local_addr := l_local_addr l;
     l_gateway_addr := l_gateway_addr l |}.

(** lines 127-181: the [switch] *)
Definition option_case (o : getopt_result) (l : locals)
    : outcome + locals :=
  match o with
  | Opt_S optarg => inr (with_args (set_script (Some optarg)) l)
  | Opt_p optarg =>
      (* [validate_optlist] returns or ends the process on its own;
         the case where it returns is the one followed here *)
      inr (with_args (set_ports (range_parse_ports optarg)) l)
  | Opt_r optarg =>
      let '(v, ok) := strtoull optarg in
      if ok then inr (with_args (set_rate v) l)
      else inl (Failure "Invalid rate value")
  | Opt_s optarg =>
      let '(v, ok) := strtoull optarg in
      if ok then inr (with_args (set_seed v) l)
      else inl (Failure "Invalid seed value")
  | Opt_w optarg =>
      let '(v, ok) := strtoull optarg in
      if ok then inr (with_args (set_wait v) l)
      else inl (Failure "Invalid wait value")
  | Opt_c optarg =>
      let '(v, ok) := strtoull optarg in
      if ok then inr (with_args (set_count v) l)
      else inl (Failure "Invalid wait value")
  | Opt_l optarg =>
      inr {| l_args := l_args l; l_local_addr := Some optarg;
             l_gateway_addr := l_gateway_addr l |}
  | Opt_g optarg =>
      inr {| l_args := l_args l; l_local_addr := l_local_addr l;
             l_gateway_addr := Some optarg |}
  | Opt_q => inr (with_args (set_quiet true) l)
  | Opt_h => inl (Return 0)
  end.

(** lines 124-182: the [while] over [getopt_long] *)
Fixpoint option_loop (os : list getopt_result) (l : locals)
    : outcome + locals :=
  match os with
  | [] => inr l
  | o :: os' =>
      match option_case o l with
      | inl out => inl out
      | inr l' => option_loop os' l'
      end
  end.

(** lines 192-195 *)
Definition assign_gateway (gateway_addr : option string) (r : route)
    (args : pktizr_args) : pktizr_args :=
  match gateway_addr with
  | Some g => set_local_addr (ntohl little_endian (inet_addr g)) args
  | None => set_gateway_addr (ntohl little_endian (gate_addr r)) args
  end.

(** lines 184-211: everything between the option loop and the ARP
    resolution; the result is the record as [resolv_addr_to_mac]
    finds it. *)
Definition configure (l : locals) : outcome + pktizr_args :=
  let args := l_args l in
  match script args with
  | None => inl (Failure "No script provided")
  | Some _ =>
  match routes_get_default with
  | None => inl (Failure "Error getting routes")
  | Some route =>
  let args := assign_gateway (l_gateway_addr l) route args in
  match resolve_ifname_to_mac (if_name route) with
  | None => inl (Failure "Error resolving local MAC")
  | Some mac =>
  let args := set_local_mac mac args in
  let local :=
    match l_local_addr l with
    | Some a => Some (ntohl little_endian (inet_addr a))
    | None => resolve_ifname_to_ip (if_name route)
    end in
  match local with
  | None => inl (Failure "Error resolving local IP")
  | Some a =>
  let args := set_local_addr a args in
  if netdev_open (if_name route) then inr args
  else inl (Failure "Error opening netdev")
  end end end end.

(** lines 213-217; [start] and [ins] are what the resolver reads
    from the clock and the device. *)
Definition resolve_gateway (start : Z) (ins : list Resolv.capture_in)
    (args : pktizr_args) : outcome :=
  match Resolv.resolv_addr_to_mac little_endian start ins
          (local_mac args) (local_addr args)
          (gateway_mac args) (gateway_addr args) with
  | (Resolv.Ret rc, dhost, tr) =>
      if (rc <? 0)%Z then Failure "Error resolving local MAC"
      else Ready (set_gateway_mac dhost args) tr
  | (Resolv.Fatal msg, _, _) => Failure msg
  | (r, _, _) => Stuck r
  end.

(** [main] up to line 217.  [args0] is the content of the record as
    [malloc] returns it; the rest of [main] starts the workers and is
    in [Threads] below. *)
Definition main (argc : Z) (argv1 : string) (os : list getopt_result)
    (args0 : pktizr_args) (start : Z) (ins : list Resolv.capture_in)
    : outcome :=
  if (argc <? 4)%Z then Return 0
  else
    let l := {| l_args := defaults argv1 args0; l_local_addr := None;
                l_gateway_addr := None |} in
    match option_loop os l with
    | inl out => out
    | inr l =>
        match configure l with
        | inl out => out
        | inr args => resolve_gateway start ins args
        end
    end.

End WithPlatform.

(** *** The workers *)

Section Workers.

Context `{CD : Codec} `{TB : TokenBucket} {L : Type} `{SH : ScriptHost L}.

Variable args : pktizr_args.

(** **** send_cb *)

Record send_state := {
  send_bucket : bucket;
  pkt_sent : Z;
  pkt_probe : Z;
  send_trace : list event
}.

(** Where the transmitter stands: at the test of the outer [while]
    (line 267), at the test of the inner [while] (line 270), or past
    the loops. *)
Inductive send_pc := Send_outer | Send_inner | Send_exit.

(** What one test reads: [args->done], the clock (for
    [bucket_consume]), the answer of [queue_dequeue] and the length
    [get_buf] reports. *)
Record send_in := {
  send_done : bool;
  send_now : Z;
  send_node : option pkt;
  send_len : Z
}.

(** lines 255-258 *)
Definition send_init : send_state :=
  {| send_bucket := bucket_init (rate args); pkt_sent := 0; pkt_probe := 0;
     send_trace := [] |}.

(** lines 275-292: one dequeued packet *)
Definition send_pkt (len : Z) (pkt : pkt) (s : send_state) : send_state :=
  let '(pkt_len, buf) := pkt_pack len pkt in
  if pkt_len <? 0 then
    {| send_bucket := send_bucket s;
       pkt_sent := pkt_sent s;
       pkt_probe := pkt_probe s;
       send_trace := send_trace s ++ [Ev_get_buf; Ev_pkt_free pkt] |}
  else
    {| send_bucket := take_token (send_bucket s);
       pkt_sent := wrap64 (pkt_sent s + 1);
       pkt_probe :=
         if probe pkt then wrap64 (pkt_probe s + 1) else pkt_probe s;
       send_trace :=
         send_trace s
         ++ [Ev_get_buf; Ev_inject buf pkt_len; Ev_pkt_free pkt] |}.

(** [!args->rate || bucket.tokens >= 1.0] *)
Definition may_send (b : bucket) : bool :=
  (rate args =? 0) || PrimFloat.leb 1%float (tokens b).

(** lines 267-294, from one test to the next *)
Definition send_step (i : send_in) (st : send_pc * send_state)
    : send_pc * send_state :=
  let '(pc, s) := st in
  match pc with
  | Send_exit => (Send_exit, s)
  | Send_outer =>
      if send_done i then (Send_exit, s)
      else
        (Send_inner,
         {| send_bucket := bucket_consume (send_bucket s) (send_now i);
            pkt_sent := pkt_sent s; pkt_probe := pkt_probe s;
            send_trace := send_trace s |})
  | Send_inner =>
      if negb (send_done i) && may_send (send_bucket s) then
        match send_node i with
        | None => (Send_outer, s)
        | Some pkt => (Send_inner, send_pkt (send_len i) pkt s)
        end
      else (Send_outer, s)
  end.

Definition send_cb (ins : list send_in) : send_pc * send_state :=
  fold_left (fun st i => send_step i st) ins (Send_outer, send_init).

(** **** recv_cb *)

Record recv_state := {
  recv_L : L;
  pkt_recv : Z;
  recv_trace : list event
}.

(** What one turn of the loop reads: [args->done] and the answer of
    [capture] (a null buffer, or a frame and its length). *)
Record recv_in := { recv_done : bool; recv_frame : option (list Z * Z) }.

(** lines 302-304 *)
Definition recv_init : recv_state :=
  {| recv_L := script_load; pkt_recv := 0; recv_trace := [] |}.

(** lines 313-338, one turn of the loop; [script_close] on the way
    out *)
Definition recv_step (i : recv_in) (s : recv_state) : ctl * recv_state :=
  if recv_done i then
    (Exited,
     {| recv_L := recv_L s; pkt_recv := pkt_recv s;
        recv_trace := recv_trace s ++ [Ev_script_close] |})
  else
    match recv_frame i with
    | None =>
        (Running,
         {| recv_L := recv_L s; pkt_recv := pkt_recv s;
            recv_trace := recv_trace s ++ [Ev_capture] |})
    | Some (buf, len) =>
        let '(rc, pkt) := pkt_unpack buf len in
        if rc =? 0 then
          (Running,
           {| recv_L := recv_L s; pkt_recv := pkt_recv s;
              recv_trace := recv_trace s ++ [Ev_capture; Ev_release] |})
        else
          let '(rc, L') := script_recv (recv_L s) pkt in
          (Running,
           {| recv_L := L';
              pkt_recv :=
                if rc <? 0 then pkt_recv s else wrap64 (pkt_recv s + 1);
              recv_trace :=
                recv_trace s
                ++ [Ev_capture; Ev_script_recv pkt; Ev_pkt_free pkt;
                    Ev_release] |})
    end.

Fixpoint recv_run (ins : list recv_in) (s : recv_state)
    : ctl * recv_state :=
  match ins with
  | [] => (Running, s)
  | i :: ins' =>
      match recv_step i s with
      | (Running, s') => recv_run ins' s'
      | (Exited, s') => (Exited, s')
      end
  end.

Definition recv_cb (ins : list recv_in) : ctl * recv_state :=
  recv_run ins recv_init.

(** **** loop_cb *)

Record loop_state := {
  loop_L : L;
  loop_i : Z;
  loop_bucket : bucket;
  loop_trace : list event
}.

(** What one turn of the loop reads: [args->stop] and the clock. *)
Record loop_in := { loop_stop : bool; loop_now : Z }.

(** lines 350-352 *)
Definition tgt_cnt : Z := range_list_count (targets args).
Definition prt_cnt : Z := range_list_count (ports args).
Definition tot_cnt : Z := wrap64 (wrap64 (tgt_cnt * prt_cnt) * count args).

(** line 357 *)
Definition pkt_count : Z := tot_cnt.

Definition loop_init : loop_state :=
  {| loop_L := script_load; loop_i := 0;
     loop_bucket := bucket_init (rate args); loop_trace := [] |}.

(** the indices of lines 373 and 375 *)
Definition target_index (i : Z) : Z := (i mod tgt_cnt) / count args.
Definition port_index (i : Z) : Z := (i / tgt_cnt) / count args.

(** lines 369-384, one turn of the [for] loop; [script_close] on the
    way out *)
Definition loop_step (i : loop_in) (s : loop_state) : ctl * loop_state :=
  if (loop_i s <? tot_cnt) && negb (loop_stop i) then
    let bucket := bucket_consume (loop_bucket s) (loop_now i) in
    let daddr :=
      uint32 (range_list_pick (targets args) (target_index (loop_i s))) in
    let dport :=
      uint16 (range_list_pick (ports args) (port_index (loop_i s))) in
    let '(rc, L') := script_loop (loop_L s) daddr dport in
    (Running,
     {| loop_L := L';
        loop_i := wrap64 (loop_i s + 1);
        loop_bucket := if rc <? 0 then bucket else take_token bucket;
        loop_trace := loop_trace s ++ [Ev_script_loop daddr dport] |})
  else
    (Exited,
     {| loop_L := loop_L s; loop_i := loop_i s;
        loop_bucket := loop_bucket s;
        loop_trace := loop_trace s ++ [Ev_script_close] |}).

Fixpoint loop_run (ins : list loop_in) (s : loop_state)
    : ctl * loop_state :=
  match ins with
  | [] => (Running, s)
  | i :: ins' =>
      match loop_step i s with
      | (Running, s') => loop_run ins' s'
      | (Exited, s') => (Exited, s')
      end
  end.

Definition loop_cb (ins : list loop_in) : ctl * loop_state :=
  loop_run ins loop_init.

(** The (target, port) tuples handed to the script, in order. *)
Definition tuples (tr : list event) : list (Z * Z) :=
  omap (fun e => match e with
                 | Ev_script_loop daddr dport => Some (daddr, dport)
                 | _ => None
                 end) tr.

End Workers.

(** How often a tuple is handed to the script. *)
Definition occurrences (t : Z * Z) (l : list (Z * Z)) : nat :=
  length (filter (fun x => x = t) l).

(** An input of the generator in which [args->stop] is not set. *)
Definition go (now : Z) : loop_in := {| loop_stop := false; loop_now := now |}.

End Pktizr.

(** ** The four threads of [main] together *)

Module Threads.

Import Pkt Bucket Script Pktizr.

(** Where [main] stands after the three [START_THREAD]s: in
    [status_line] (line 227), at the join of the generator (229), at
    the assignment to [args->done] (231), at the joins of the receiver
    (233) and of the transmitter (234), or past them. *)
Inductive main_pc :=
  M_status | M_join_loop | M_set_done | M_join_recv | M_join_send | M_close.

Section WithWorkers.

Context `{CD : Codec} `{TB : TokenBucket} {L : Type} `{SH : ScriptHost L}.

Variable args : pktizr_args.

(** The shared flag, the place of [main] and the three workers. *)
Record sys := {
  sys_done : bool;
  sys_main : main_pc;
  sys_loop : ctl * loop_state (L := L);
  sys_send : send_pc * send_state;
  sys_recv : ctl * recv_state (L := L)
}.

(** line 121 and the workers as [START_THREAD] leaves them *)
Definition sys_init : sys :=
  {| sys_done := false; sys_main := M_status;
     sys_loop := (Running, loop_init args);
     sys_send := (Send_outer, send_init args);
     sys_recv := (Running, recv_init) |}.

(** One step of one thread.  A [pthread_join] goes through once the
    joined worker has left its function; a worker that tests
    [args->done] reads the flag as it is at that step. *)
Inductive step : sys -> sys -> Prop :=
| step_status s :
    sys_main s = M_status ->
    step s {| sys_done := sys_done s; sys_main := M_join_loop;
              sys_loop := sys_loop s; sys_send := sys_send s;
              sys_recv := sys_recv s |}
| step_join_loop s :
    sys_main s = M_join_loop -> fst (sys_loop s) = Exited ->
    step s {| sys_done := sys_done s; sys_main := M_set_done;
              sys_loop := sys_loop s; sys_send := sys_send s;
              sys_recv := sys_recv s |}
| step_set_done s :
    sys_main s = M_set_done ->
    step s {| sys_done := true; sys_main := M_join_recv;
              sys_loop := sys_loop s; sys_send := sys_send s;
              sys_recv := sys_recv s |}
| step_join_recv s :
    sys_main s = M_join_recv -> fst (sys_recv s) = Exited ->
    step s {| sys_done := sys_done s; sys_main := M_join_send;
              sys_loop := sys_loop s; sys_send := sys_send s;
              sys_recv := sys_recv s |}
| step_join_send s :
    sys_main s = M_join_send -> fst (sys_send s) = Send_exit ->
    step s {| sys_done := sys_done s; sys_main := M_close;
              sys_loop := sys_loop s; sys_send := sys_send s;
              sys_recv := sys_recv s |}
| step_loop s i :
    fst (sys_loop s) = Running ->
    step s {| sys_done := sys_done s; sys_main := sys_main s;
              sys_loop := loop_step args i (snd (sys_loop s));
              sys_send := sys_send s; sys_recv := sys_recv s |}
| step_send s i :
    send_done i = sys_done s ->
    step s {| sys_done := sys_done s; sys_main := sys_main s;
              sys_loop := sys_loop s;
              sys_send := send_step args i (sys_send s);
              sys_recv := sys_recv s |}
| step_recv s i :
    fst (sys_recv s) = Running -> recv_done i = sys_done s ->
    step s {| sys_done := sys_done s; sys_main := sys_main s;
              sys_loop := sys_loop s; sys_send := sys_send s;
              sys_recv := recv_step i (snd (sys_recv s)) |}.

(** The states the program can be in. *)
Inductive reachable : sys -> Prop :=
| reach_init : reachable sys_init
| reach_step s s' : reachable s -> step s s' -> reachable s'.

(** [main] is past the assignment of line 231. *)
Definition done_set (pc : main_pc) : bool :=
  match pc with
  | M_join_recv | M_join_send | M_close => true
  | _ => false
  end.

(** [main] is past the join of line 229. *)
Definition loop_joined (pc : main_pc) : bool :=
  match pc with
  | M_status | M_join_loop => false
  | _ => true
  end.

(** What holds in every state of the program. *)
Definition invariant (s : sys) : Prop :=
  sys_done s = done_set (sys_main s)
  /\ (loop_joined (sys_main s) = true -> fst (sys_loop s) = Exited)
  /\ (sys_main s = M_join_send \/ sys_main s = M_close ->
      fst (sys_recv s) = Exited)
  /\ (sys_main s = M_close -> fst (sys_send s) = Send_exit)
  /\ (fst (sys_recv s) = Exited -> sys_done s = true)
  /\ (fst (sys_send s) = Send_exit -> sys_done s = true).

End WithWorkers.

(** One more step of a run: [R] shows a state reachable, [tac] proves
    a step from it. *)
Ltac advance R tac :=
  match type of R with
  | reachable ?a ?s =>
      let R' := fresh "R" in
      pose proof (reach_step a s _ R ltac:(tac)) as R'; clear R;
      rename R' into R;
      match type of R with
      | ?P ?s' => let n := eval vm_compute in s' in change (P n) in R
      end
  end.

End Threads.

(** ** Stand-ins for the absent collaborators

    Small, deterministic implementations of the interfaces above, used
    to run the model on concrete inputs. *)

Module Doubles.

Import Pkt Bucket Script Ranges Pktizr.

(** A bucket that holds what it is given and only records the clock. *)
Definition idle_bucket : TokenBucket :=
  {| bucket_init := fun rate =>
       {| capacity := rate; tokens := 0%float; last := 0 |};
     bucket_consume := fun b now =>
       {| capacity := capacity b; tokens := tokens b; last := now |} |}.

(** A script that accepts every upcall and counts them. *)
Definition counting_script : ScriptHost Z :=
  {| script_load := 0;
     script_loop := fun n _ _ => (0, n + 1);
     script_recv := fun n _ => (0, n + 1) |}.

(** A script that refuses every upcall. *)
Definition refusing_script : ScriptHost Z :=
  {| script_load := 0;
     script_loop := fun n _ _ => (-1, n + 1);
     script_recv := fun n _ => (-1, n + 1) |}.

Definition be16 (x : Z) : list Z := [byte_of x 1; byte_of x 0].

Definition read16 (b : list Z) : Z :=
  default 0 (b !! 0%nat) * 256 + default 0 (b !! 1%nat).

Definition ETHERTYPE_ARP : Z := 2054.

Definition arp_bytes (a : arp_hdr) : list Z :=
  be16 (hwtype a) ++ be16 (ptype a) ++ [6; 4] ++ be16 (op a)
  ++ hwsrc a ++ psrc a ++ hwdst a ++ pdst a.

Definition eth_bytes (e : eth_hdr) (type : Z) : list Z :=
  eth_dst e ++ eth_src e ++ be16 type.

(** A codec for Ethernet and ARP only.  It packs an Ethernet/ARP chain
    (given in either order) into 42 bytes and fails on anything else or
    on a short buffer; it unpacks the Ethernet header and, behind the
    ARP EtherType, the ARP header. *)
Definition eth_arp_pack (len : Z) (p : pkt) : Z * list Z :=
  match nodes p with
  | [N_eth e; N_arp a] | [N_arp a; N_eth e] =>
      if len <? 42 then (-1, [])
      else (42, eth_bytes e ETHERTYPE_ARP ++ arp_bytes a)
  | _ => (-1, [])
  end.

Definition eth_arp_unpack (buf : list Z) (len : Z) : Z * pkt :=
  if len <? 14 then (0, {| probe := false; nodes := [] |})
  else
    let e := {| eth_dst := take 6 buf; eth_src := take 6 (drop 6 buf);
                eth_type := read16 (drop 12 buf) |} in
    if (eth_type e =? ETHERTYPE_ARP) && (42 <=? len) then
      let b := drop 14 buf in
      let a := {| hwtype := read16 b; ptype := read16 (drop 2 b);
                  op := read16 (drop 6 b);
                  hwsrc := take 6 (drop 8 b); psrc := take 4 (drop 14 b);
                  hwdst := take 6 (drop 18 b); pdst := take 4 (drop 24 b) |} in
      (2, {| probe := false; nodes := [N_eth e; N_arp a] |})
    else (1, {| probe := false; nodes := [N_eth e] |}).

Definition eth_arp_codec : Codec :=
  {| pkt_pack := eth_arp_pack; pkt_unpack := eth_arp_unpack |}.

(** Decimal numerals and dotted quads. *)
Definition digit (c : Ascii.ascii) : option Z :=
  let n := Z.of_nat (Ascii.nat_of_ascii c) in
  if (48 <=? n) && (n <=? 57) then Some (n - 48) else None.

Fixpoint decimal (s : string) (acc : Z) : Z * bool :=
  match s with
  | EmptyString => (acc, true)
  | String c s' =>
      match digit c with
      | Some d => decimal s' (wrap64 (acc * 10 + d))
      | None => (acc, false)
      end
  end.

(** the numbers between the dots, first one first *)
Fixpoint quad (s : string) (cur : Z) (acc : list Z) : list Z :=
  match s with
  | EmptyString => acc ++ [cur]
  | String c s' =>
      match digit c with
      | Some d => quad s' (cur * 10 + d) acc
      | None => quad s' 0 (acc ++ [cur])
      end
  end.

(** the [uint32_t] whose bytes in memory, on a little-endian machine,
    are the given four *)
Definition le32 (b : list Z) : Z :=
  default 0 (b !! 0%nat) + default 0 (b !! 1%nat) * 2 ^ 8
  + default 0 (b !! 2%nat) * 2 ^ 16 + default 0 (b !! 3%nat) * 2 ^ 24.

(** A little-endian machine with one interface, [eth0], of address
    10.0.0.2 behind the gateway 10.0.0.1; range lists are understood
    for single values only. *)
Definition test_platform : Platform :=
  {| little_endian := true;
     strtoull := fun s => decimal s 0;
     inet_addr := fun s => le32 (quad s 0 []);
     range_parse_targets := fun s =>
       let a := bswap32 (le32 (quad s 0 [])) in [{| lo := a; hi := a + 1 |}];
     range_parse_ports := fun s =>
       let p := fst (decimal s 0) in [{| lo := p; hi := p + 1 |}];
     get_entropy := 42;
     routes_get_default :=
       Some {| gate_addr := le32 [10; 0; 0; 1]; if_name := "eth0" |};
     resolve_ifname_to_mac := fun _ => Some [2; 0; 0; 0; 0; 2];
     resolve_ifname_to_ip := fun _ => Some 167772162;
     netdev_open := fun _ => true |}.

(** The record as [malloc] may return it: all bits zero. *)
Definition zeroed_args : pktizr_args :=
  {| targets := []; ports := []; rate := 0; seed := 0; wait := 0; count := 0;
     script := None; quiet := false; done := false; stop := false;
     local_mac := [0; 0; 0; 0; 0; 0]; local_addr := 0;
     gateway_mac := [0; 0; 0; 0; 0; 0]; gateway_addr := 0 |}.

(** The second end-to-end scenario of the spec: targets
    10.0.0.1-10.0.0.3, ports 22 and 80, two probes per tuple. *)
Definition scenario2 : pktizr_args :=
  {| targets := [{| lo := 167772161; hi := 167772164 |}];
     ports := [{| lo := 22; hi := 23 |}; {| lo := 80; hi := 81 |}];
     rate := 0; seed := 42; wait := 5; count := 2;
     script := Some "probe.lua"%string; quiet := false;
     done := false; stop := false;
     local_mac := [2; 0; 0; 0; 0; 2]; local_addr := 167772162;
     gateway_mac := [2; 0; 0; 0; 0; 1]; gateway_addr := 167772161 |}.

(** An ARP reply from [sender] (MAC [mac]) to [target], as a frame. *)
Definition arp_reply (mac : list Z) (sender target : Z) (dst : list Z)
    : list Z :=
  eth_bytes {| eth_src := mac; eth_dst := dst; eth_type := ETHERTYPE_ARP |}
            ETHERTYPE_ARP
  ++ arp_bytes {| hwtype := 1; ptype := 2048; op := 2;
                  hwsrc := mac; psrc := be_bytes32 sender;
                  hwdst := dst; pdst := be_bytes32 target |}.

(** The command line [pktizr 10.0.0.9 -S probe.lua --gateway-addr
    10.0.0.254]. *)
Definition with_gateway : list getopt_result :=
  [Opt_S "probe.lua"; Opt_g "10.0.0.254"].

(** A reply of the gateway 10.0.0.1 to 10.0.0.2, as a frame. *)
Definition gateway_reply : list Z :=
  arp_reply [2; 0; 0; 0; 0; 1] 167772161 167772162 [2; 0; 0; 0; 0; 2].

(** What the resolver finds in the record after start-up. *)
Definition configured : pktizr_args :=
  set_local_addr 167772162
    (set_local_mac [2; 0; 0; 0; 0; 2]
       (set_gateway_addr 167772161
          (set_script (Some "probe.lua"%string)
             (defaults (PF := test_platform) "10.0.0.9" zeroed_args)))).

(** An ARP request as a packet of the send queue, marked as a probe. *)
Definition probe_pkt : pkt :=
  {| probe := true;
     nodes := [pkt_build_eth [2; 0; 0; 0; 0; 2] [255; 255; 255; 255; 255; 255]
                 2054;
               pkt_build_arp 1 2048 1 [2; 0; 0; 0; 0; 2] [10; 0; 0; 2]
                 [0; 0; 0; 0; 0; 0] [10; 0; 0; 1]] |}.

(** An Ethernet frame of an EtherType the codec does not know: one
    layer. *)
Definition one_layer_frame : list Z :=
  [2; 0; 0; 0; 0; 2; 2; 0; 0; 0; 0; 1; 136; 204].

End Doubles.

(** ** deps/lua-pack/lpack.c : format options and the other helpers *)

Module LPackOptions.

Import LPack.

(** maximum size for the binary representation of an integer *)
Definition MAXINTSIZE : Z := 16.

(** The sizes of the C types the format options stand for, the
    alignment of [struct cD] and the byte order of the machine: they
    come from the compiler and from [lua.h]. *)
Class CTypes := {
  SZ_short : Z;
  SZ_int : Z;
  SZ_long : Z;
  SZ_size_t : Z;
  SZ_float : Z;
  SZ_double : Z;
  SZ_number : Z;
  SZINT : Z;
  MAXALIGN : Z;
  native_little : bool
}.

(** [luaL_error] and [luaL_argerror] do not return; the model ends
    with the message (and the values formatted into it).
    [Err_check] is the error a [luaL_check...] function raises for
    the argument of that index, [Err_does_not_fit] the one of
    [unpackint], [Err_stack] the one of [luaL_checkstack].
    [Read_beyond_data] is no error of the code: it stands for a read
    beyond the end of the data string, where the behaviour of the C
    program is undefined. *)
Inductive lua_error :=
| Err_size_limits (sz : Z)
| Err_missing_size
| Err_invalid_option (opt : Z)
| Err_arg (arg : Z) (msg : string)
| Err_check (arg : Z)
| Err_does_not_fit (size : Z)
| Err_stack
| Read_beyond_data.

(** information to pack/unpack stuff (the [lua_State] aside) *)
Record Header := { islittle : bool; maxalign : Z }.

Inductive KOption :=
| Kint | Kuint | Kfloat | Kchar | Kstring | Kzstr
| Kpadding | Kpaddalign | Knop.

(** a character as an [int] *)
Definition code (c : ascii) : Z := Z.of_nat (nat_of_ascii c).

(** the character at [*fmt]; the terminator at the end *)
Definition peek (fmt : string) : Z :=
  match fmt with
  | EmptyString => 0
  | String c _ => code c
  end.

(** ['0' <= c && c <= '9'] *)
Definition digit (c : Z) : bool := (48 <=? c) && (c <=? 57).

Section WithCTypes.

Context `{CT : CTypes}.

(** conversion to [size_t] and to [int] *)
Definition to_size_t (x : Z) : Z := x mod 2 ^ (8 * SZ_size_t).

Definition to_int (x : Z) : Z :=
(x + 2 ^ (8 * SZ_int - 1)) mod 2 ^ (8 * SZ_int) - 2 ^ (8 * SZ_int - 1).

Definition INT_MAX : Z := 2 ^ (8 * SZ_int - 1) - 1.

(** [MAXSIZE]: what fits both [int] and [size_t] *)
Definition MAXSIZE : Z :=
if SZ_size_t <? SZ_int then 2 ^ (8 * SZ_size_t) - 1 else INT_MAX.

(** translate a relative string position: negative means back from end *)
Definition posrelat (pos : Z) (len : Z) : Z :=
if 0 <=? pos then pos
else if len <? to_size_t (0 - to_size_t pos) then 0
else to_integer SZINT len + pos + 1.

(** the [do ... while] of [getnum], entered with a digit at [*fmt] *)
Fixpoint getnum_loop (fmt : string) (a : Z) : Z * string :=
match fmt with
| EmptyString => (a, fmt)
| String c rest =>
    let a := to_int (to_int (a * 10) + (code c - 48)) in
    if digit (peek rest) && (a <=? Z.quot (to_int MAXSIZE - 9) 10)
    then getnum_loop rest a
    else (a, rest)
end.

(** [getnum]: the numeral at [*fmt], or [df] if there is none; the
  second component is [*fmt] afterwards. *)
Definition getnum (fmt : string) (df : Z) : Z * string :=
if negb (digit (peek fmt)) then (df, fmt) else getnum_loop fmt 0.

Definition getnumlimit (fmt : string) (df : Z)
  : lua_error + (Z * string) :=
let '(sz, fmt) := getnum fmt df in
if (MAXINTSIZE <? sz) || (sz <=? 0) then inl (Err_size_limits sz)
else inr (sz, fmt).

(** [initheader] *)
Definition initheader : Header :=
{| islittle := native_little; maxalign := 1 |}.

(** [getoption]: the class of the option at [*fmt], its size, and the
  header and [*fmt] afterwards. *)
Definition getoption (h : Header) (fmt : string)
  : lua_error + (KOption * Z * Header * string) :=
match fmt with
| EmptyString => inl (Err_invalid_option 0)
| String opt fmt =>
    match opt with
    | "b"%char => inr (Kint, 1, h, fmt)
    | "B"%char => inr (Kuint, 1, h, fmt)
    | "h"%char => inr (Kint, SZ_short, h, fmt)
    | "H"%char => inr (Kuint, SZ_short, h, fmt)
    | "l"%char => inr (Kint, SZ_long, h, fmt)
    | "L"%char => inr (Kuint, SZ_long, h, fmt)
    | "j"%char => inr (Kint, SZINT, h, fmt)
    | "J"%char => inr (Kuint, SZINT, h, fmt)
    | "T"%char => inr (Kuint, SZ_size_t, h, fmt)
    | "f"%char => inr (Kfloat, SZ_float, h, fmt)
    | "d"%char => inr (Kfloat, SZ_double, h, fmt)
    | "n"%char => inr (Kfloat, SZ_number, h, fmt)
    | "i"%char =>
        match getnumlimit fmt SZ_int with
        | inl e => inl e
        | inr (sz, fmt) => inr (Kint, sz, h, fmt)
        end
    | "I"%char =>
        match getnumlimit fmt SZ_int with
        | inl e => inl e
        | inr (sz, fmt) => inr (Kuint, sz, h, fmt)
        end
    | "s"%char =>
        match getnumlimit fmt SZ_size_t with
        | inl e => inl e
        | inr (sz, fmt) => inr (Kstring, sz, h, fmt)
        end
    | "c"%char =>
        let '(sz, fmt) := getnum fmt (-1) in
        if sz =? -1 then inl Err_missing_size
        else inr (Kchar, sz, h, fmt)
    | "z"%char => inr (Kzstr, 0, h, fmt)
    | "x"%char => inr (Kpadding, 1, h, fmt)
    | "X"%char => inr (Kpaddalign, 0, h, fmt)
    | " "%char => inr (Knop, 0, h, fmt)
    | "<"%char =>
        inr (Knop, 0, {| islittle := true; maxalign := maxalign h |}, fmt)
    | ">"%char =>
        inr (Knop, 0, {| islittle := false; maxalign := maxalign h |}, fmt)
    | "="%char =>
        inr (Knop, 0,
             {| islittle := native_little; maxalign := maxalign h |}, fmt)
    | "!"%char =>
        match getnumlimit fmt MAXALIGN with
        | inl e => inl e
        | inr (sz, fmt) =>
            inr (Knop, 0, {| islittle := islittle h; maxalign := sz |}, fmt)
        end
    | _ => inl (Err_invalid_option (code opt))
    end
end.

Definition KOption_eqb (a b : KOption) : bool :=
match a, b with
| Kint, Kint | Kuint, Kuint | Kfloat, Kfloat | Kchar, Kchar
| Kstring, Kstring | Kzstr, Kzstr | Kpadding, Kpadding
| Kpaddalign, Kpaddalign | Knop, Knop => true
| _, _ => false
end.

(** the alignment part of [getdetails] (lines 230-238) *)
Definition alignment (h : Header) (opt : KOption) (totalsize align : Z)
  : lua_error + Z :=
if (align <=? 1) || KOption_eqb opt Kchar then inr 0
else
  let align := if maxalign h <? align then maxalign h else align in
  if negb (Z.land align (align - 1) =? 0)
  then inl (Err_arg 1 "format asks for alignment not power of 2")
  else
    inr (Z.land (align - to_int (Z.land totalsize (align - 1)))
           (align - 1)).

(** [getdetails]: the option at [*fmt] with its size and the padding
  ([ntoalign]) it needs at offset [totalsize]. *)
Definition getdetails (h : Header) (totalsize : Z) (fmt : string)
  : lua_error + (KOption * Z * Z * Header * string) :=
match getoption h fmt with
| inl e => inl e
| inr (opt, size, h, fmt) =>
    let next :=
      if KOption_eqb opt Kpaddalign then
        if peek fmt =? 0
        then inl (Err_arg 1 "invalid next option for option 'X'")
        else
          match getoption h fmt with
          | inl e => inl e
          | inr (opt', align, h, fmt) =>
              if KOption_eqb opt' Kchar || (align =? 0)
              then inl (Err_arg 1 "invalid next option for option 'X'")
              else inr (align, h, fmt)
          end
      else inr (size, h, fmt) in
    match next with
    | inl e => inl e
    | inr (align, h, fmt) =>
        match alignment h opt totalsize align with
        | inl e => inl e
        | inr ntoalign => inr (opt, size, ntoalign, h, fmt)
        end
    end
end.

(** [while (size-- != 0) *(dest++) = *(src++);] with [k] turns left,
  [d] and [s] the offsets of the two pointers *)
Fixpoint copy_up (k : nat) (d s : nat) (dest src : list Z) : list Z :=
match k with
| O => dest
| S k' => copy_up k' (S d) (S s) (<[d := byte_at src s]> dest) src
end.

(** [while (size-- != 0) *(dest--) = *(src++);] *)
Fixpoint copy_down (k : nat) (d : Z) (s : nat) (dest src : list Z)
  : list Z :=
match k with
| O => dest
| S k' =>
    copy_down k' (d - 1) (S s) (<[Z.to_nat d := byte_at src s]> dest) src
end.

(** [copywithendian]: what is in [dest] afterwards *)
Definition copywithendian (dest src : list Z) (size : Z) (islittle : bool)
  : list Z :=
if Bool.eqb islittle native_little
then copy_up (Z.to_nat size) 0 0 dest src
else copy_down (Z.to_nat size) (size - 1) 0 dest src.

End WithCTypes.

(** the value of a numeral, most significant digit first *)
Fixpoint decimal (ds : string) (acc : Z) : Z :=
  match ds with
  | EmptyString => acc
  | String c ds' => decimal ds' (acc * 10 + (code c - 48))
  end.

Fixpoint all_digits (ds : string) : bool :=
  match ds with
  | EmptyString => true
  | String c ds' => digit (code c) && all_digits ds'
  end.

(** the integer whose bytes, least significant first, are [l] *)
Fixpoint le_value (l : list Z) : Z :=
  match l with
  | [] => 0
  | b :: l' => b + 256 * le_value l'
  end.

(** the bytes of a field in the order of their significance *)
Definition field_bytes (islittle : bool) (str : list Z) : list Z :=
  if islittle then str else reverse str.

End LPackOptions.

(** ** Whole runs of the workers: what is counted in their traces *)

Module Accounting.

Import Pkt Ranges Pktizr.

Definition count_events (p : event -> bool) (tr : list event) : nat :=
  length (List.filter p tr).

Definition is_get_buf (e : event) : bool :=
  match e with Ev_get_buf => true | _ => false end.

Definition is_pkt_free (e : event) : bool :=
  match e with Ev_pkt_free _ => true | _ => false end.

Definition is_capture (e : event) : bool :=
  match e with Ev_capture => true | _ => false end.

Definition is_release (e : event) : bool :=
  match e with Ev_release => true | _ => false end.

Definition is_script_recv (e : event) : bool :=
  match e with Ev_script_recv _ => true | _ => false end.

Definition is_script_loop (e : event) : bool :=
  match e with Ev_script_loop _ _ => true | _ => false end.

Definition is_script_close (e : event) : bool :=
  match e with Ev_script_close => true | _ => false end.

(** The upcall of turn [j] of the generator (lines 372-377). *)
Definition upcall (args : pktizr_args) (j : Z) : event :=
  Ev_script_loop
    (uint32 (range_list_pick (targets args) (target_index args j)))
    (uint16 (range_list_pick (ports args) (port_index args j))).

(** A captured frame ([None] for a null buffer). *)
Definition has_frame (f : option (list Z * Z)) : bool :=
  match f with Some _ => true | None => false end.

Section WithCodec.

Context `{CD : Codec}.

(** A captured frame that [recv_cb] hands to the script: one for
  which [pkt_unpack] does not answer 0. *)
Definition goes_to_script (f : option (list Z * Z)) : bool :=
match f with
| Some (buf, len) => negb (fst (pkt_unpack buf len) =? 0)
| None => false
end.

End WithCodec.

Section WithWorkers.

Context `{CD : Codec} `{TB : Bucket.TokenBucket}.
Context {L : Type} `{SH : Script.ScriptHost L}.

(** What the counters and the trace of the transmitter have to do
  with each other. *)
Definition send_accounts (s : send_state) : Prop :=
pkt_sent s = wrap64 (Z.of_nat (injects (send_trace s)))
/\ count_events is_pkt_free (send_trace s)
   = count_events is_get_buf (send_trace s)
/\ (injects (send_trace s)
    <= count_events is_get_buf (send_trace s))%nat
/\ (exists k, (k <= injects (send_trace s))%nat
              /\ pkt_probe s = wrap64 (Z.of_nat k))
/\ Forall (fun e => is_get_buf e || is_inject e || is_pkt_free e = true)
     (send_trace s).

(** The same for the receiver, [closed] telling whether it has left
  its loop. *)
Definition recv_accounts (closed : bool) (s : recv_state (L := L)) : Prop :=
count_events is_script_recv (recv_trace s)
= count_events is_pkt_free (recv_trace s)
/\ (count_events is_pkt_free (recv_trace s)
    <= count_events is_release (recv_trace s))%nat
/\ (count_events is_release (recv_trace s)
    <= count_events is_capture (recv_trace s))%nat
/\ (exists k, (k <= count_events is_script_recv (recv_trace s))%nat
              /\ pkt_recv s = wrap64 (Z.of_nat k))
/\ count_events is_script_close (recv_trace s)
   = (if closed then 1 else 0)%nat
/\ injects (recv_trace s) = 0%nat.

(** The same for the generator. *)
Definition loop_accounts (args : pktizr_args) (closed : bool)
  (s : loop_state (L := L)) : Prop :=
0 <= loop_i s <= tot_cnt args
/\ count_events is_script_loop (loop_trace s) = Z.to_nat (loop_i s)
/\ count_events is_script_close (loop_trace s)
   = (if closed then 1 else 0)%nat
/\ injects (loop_trace s) = 0%nat.

End WithWorkers.

End Accounting.

(** ** The options of the command line *)

Module Options.

Import Pktizr.

Definition is_Opt_S (o : getopt_result) : bool :=
  match o with Opt_S _ => true | _ => false end.

Definition is_Opt_g (o : getopt_result) : bool :=
  match o with Opt_g _ => true | _ => false end.

End Options.

(** ** pktizr.c : status_line *)

Module StatusLine.

Import Pktizr.

Definition set_stop v a :=
  {| targets := targets a; ports := ports a; rate := rate a; seed := seed a;
     wait := wait a; count := count a; script := script a; quiet := quiet a;
     done := done a; stop := v; local_mac := local_mac a;
     local_addr := local_addr a; gateway_mac := gateway_mac a;
     gateway_addr := gateway_addr a |}.

(** What [status_line] does that can be seen from outside: what it
    prints, its sleeps and its writes to [args->stop].  The progress
    line shows [probe * 100 / tot] and
    [(sent - sent_old) / ((now - now_old) / 1e6)], computed in
    [double]; the event keeps the integers they are computed from,
    the two differences as the [uint64_t] subtractions give them. *)
Inductive status_event :=
| St_cursor_hide
| St_progress (probe tot dsent dnow sent recv : Z)
| St_sleep (usec : Z)
| St_args_stop (v : bool)
| St_waiting (wait : Z)
| St_cursor_show.

(** What one turn of the progress loop reads: the clock, the counters
    of the workers and (line 421) the flag the signal handler sets. *)
Record status_in := {
  st_now : Z;
  st_sent : Z;
  st_probe : Z;
  st_recv : Z;
  st_stop : bool
}.

(** lines 398-427: [while (1)], one input per turn.  The result tells
    whether the loop was left at line 423. *)
Fixpoint progress (quiet : bool) (tot : Z) (ins : list status_in)
    (now_old sent_old : Z) (tr : list status_event)
    : option (bool * list status_event) :=
  match ins with
  | [] => None
  | i :: ins' =>
      let tr :=
        if quiet then tr
        else tr ++ [St_progress (st_probe i) tot
                      (wrap64 (st_sent i - sent_old))
                      (wrap64 (st_now i - now_old))
                      (st_sent i) (st_recv i)] in
      if st_probe i =? tot then Some (false, tr)
      else if st_stop i then Some (true, tr ++ [St_args_stop true])
      else progress quiet tot ins' (st_now i) (st_sent i)
             (tr ++ [St_sleep 250000])
  end.

(** lines 431-438: the [for] loop; each test that finds
    [args->wait > 0] reads the flag of the signal handler. *)
Fixpoint wait_loop (ins : list bool) (wait : Z) (tr : list status_event)
    : option (Z * list status_event) :=
  if 0 <? wait then
    match ins with
    | [] => None
    | stop :: ins' =>
        if stop then Some (wait, tr)
        else wait_loop ins' (wrap64 (wait - 1))
               (tr ++ [St_waiting wait; St_sleep 1000000])
    end
  else Some (wait, tr).

(** [status_line(args)]: [tot] is [args->pkt_count] as the generator
    left it, [now0] and [sent0] the readings of lines 391 and 392.
    [None] when the inputs given to the model run out. *)
Definition status_line (args : pktizr_args) (tot now0 sent0 : Z)
    (pins : list status_in) (wins : list bool)
    : option (pktizr_args * list status_event) :=
  match progress (quiet args) tot pins now0 sent0 [St_cursor_hide] with
  | None => None
  | Some (_, tr) =>
      match wait_loop wins (wait args) (tr ++ [St_args_stop false]) with
      | None => None
      | Some (w, tr) =>
          Some (set_stop true (set_wait w args),
                tr ++ [St_args_stop true; St_cursor_show])
      end
  end.

(** The values written to [args->stop], in order. *)
Definition stop_writes (tr : list status_event) : list bool :=
  omap (fun e => match e with St_args_stop v => Some v | _ => None end) tr.

(** The sleeps, in order. *)
Definition sleeps (tr : list status_event) : list Z :=
  omap (fun e => match e with St_sleep u => Some u | _ => None end) tr.

End StatusLine.

(** ** Runs of the four threads *)

Module Schedules.

Import Script Pktizr Threads.

(** An input in which the generator finds [args->stop] set. *)
Definition stop_in : loop_in := {| loop_stop := true; loop_now := 0 |}.

(** Inputs in which a worker finds [args->done] set. *)
Definition done_recv : recv_in :=
  {| recv_done := true; recv_frame := None |}.

Definition done_send : send_in :=
  {| send_done := true; send_now := 0; send_node := None; send_len := 0 |}.

Section WithWorkers.

Context `{CD : Pkt.Codec} `{TB : Bucket.TokenBucket}.
Context {L : Type} `{SH : ScriptHost L}.

Variable args : pktizr_args.

(** Any number of steps of the threads. *)
Inductive steps : sys (L := L) -> sys (L := L) -> Prop :=
| steps_refl s : steps s s
| steps_step s s' s'' : step args s s' -> steps s' s'' -> steps s s''.

End WithWorkers.

End Schedules.

(** ** deps/lua-pack/lpack.c : str_pack and str_unpack *)

Module LPackFormat.

Import LPack LPackOptions.

(** value used for padding *)
Definition LUA_PACKPADBYTE : Z := 0.

(** What the two functions ask of Lua and of the machine ([lua.h] and
    [lauxlib.h] are not among the sources).  A [luaL_check...]
    function gives [None] where it raises its error; strings are
    lists of bytes, their length the length of the list;
    [checkstack n] tells whether [luaL_checkstack(L, 2, ...)] goes
    through with [n] results on the stack; [uninit size] is the
    content of [size] bytes of memory not yet written (the area
    [luaL_prepbuffsize] returns, the union [u]); [store_float n] are
    the bytes of the union after [u.f = (float)n], and [load_float]
    is [(lua_Number)u.f] for the bytes in the union; likewise for
    [u.d] and [u.n]. *)
Class LuaAPI := {
  value : Type;
  number : Type;
  checkinteger : value -> option Z;
  checknumber : value -> option number;
  checklstring : value -> option (list Z);
  pushinteger : Z -> value;
  pushnumber : number -> value;
  pushlstring : list Z -> value;
  checkstack : nat -> bool;
  uninit : Z -> list Z;
  store_float : number -> list Z;
  store_double : number -> list Z;
  store_number : number -> list Z;
  load_float : list Z -> number;
  load_double : list Z -> number;
  load_number : list Z -> number
}.

(** [strlen]: the end of the list is the terminator Lua keeps after
    every string. *)
Fixpoint strlen (s : list Z) : Z :=
  match s with
  | [] => 0
  | c :: s' => if c =? 0 then 0 else 1 + strlen s'
  end.

Section WithCTypes.

Context `{CT : CTypes}.

(** What the size of an option of each kind can be. *)
Definition size_of_kind (opt : KOption) (size : Z) : Prop :=
match opt with
| Kint | Kuint | Kstring => 1 <= size
| Kfloat => size = SZ_float \/ size = SZ_double \/ size = SZ_number
| Kchar => 0 <= size <= MAXSIZE
| Kpadding => size = 1
| Kzstr | Kpaddalign | Knop => size = 0
end.

End WithCTypes.

Section WithLua.

Context `{CT : CTypes} `{LA : LuaAPI}.

(** [luaL_check...(L, arg)]: the arguments after the format are at
  the stack indices 2, 3, ...; behind them lies the [nil] that
  [str_pack] pushes, which no check accepts. *)
Definition check {A : Type} (f : value -> option A) (args : list value)
  (arg : Z) : lua_error + A :=
match args !! Z.to_nat (arg - 2) with
| Some v =>
    match f v with
    | Some a => inr a
    | None => inl (Err_check arg)
    end
| None => inl (Err_check arg)
end.

(** The [switch] of [str_pack] (lines 300-361): the bytes added to
  the buffer, [arg] afterwards and what is added to [totalsize]. *)
Definition pack_option (h : Header) (opt : KOption) (size : Z)
  (args : list value) (arg : Z) : lua_error + (list Z * Z * Z) :=
match opt with
| Kint =>
    match check checkinteger args arg with
    | inl e => inl e
    | inr n =>
        let lim := 2 ^ (size * NB - 1) in
        if (size <? SZINT) && negb ((- lim <=? n) && (n <? lim))
        then inl (Err_arg arg "integer overflow")
        else
          inr (packint SZINT (uninit size) (to_unsigned SZINT n)
                 (islittle h) size (n <? 0), arg, 0)
    end
| Kuint =>
    match check checkinteger args arg with
    | inl e => inl e
    | inr n =>
        if (size <? SZINT)
           && negb (to_unsigned SZINT n <? 2 ^ (size * NB))
        then inl (Err_arg arg "unsigned overflow")
        else
          inr (packint SZINT (uninit size) (to_unsigned SZINT n)
                 (islittle h) size false, arg, 0)
    end
| Kfloat =>
    match check checknumber args arg with
    | inl e => inl e
    | inr n =>
        let u :=
          if size =? SZ_float then store_float n
          else if size =? SZ_double then store_double n
          else store_number n in
        inr (copywithendian (uninit size) u size (islittle h), arg, 0)
    end
| Kchar =>
    match check checklstring args arg with
    | inl e => inl e
    | inr s =>
        if negb (Z.of_nat (length s) =? to_size_t size)
        then inl (Err_arg arg "wrong length")
        else inr (take (Z.to_nat size) s, arg, 0)
    end
| Kstring =>
    match check checklstring args arg with
    | inl e => inl e
    | inr s =>
        let len := Z.of_nat (length s) in
        if negb ((SZ_size_t <=? size) || (len <? 2 ^ (size * NB)))
        then
          inl (Err_arg arg "string length does not fit in given size")
        else
          inr (packint SZINT (uninit size) (to_unsigned SZINT len)
                 (islittle h) size false ++ s, arg, len)
    end
| Kzstr =>
    match check checklstring args arg with
    | inl e => inl e
    | inr s =>
        let len := Z.of_nat (length s) in
        if negb (strlen s =? len)
        then inl (Err_arg arg "string contains zeros")
        else inr (s ++ [0], arg, len + 1)
    end
| Kpadding => inr ([LUA_PACKPADBYTE], arg - 1, 0)
| Kpaddalign | Knop => inr ([], arg - 1, 0)
end.

(** The [while] of [str_pack] (lines 293-362), with at most [fuel]
  turns; [None] when they do not suffice. *)
Fixpoint pack_loop (fuel : nat) (h : Header) (fmt : string)
  (args : list value) (arg totalsize : Z) (b : list Z)
  : option (lua_error + list Z) :=
if peek fmt =? 0 then Some (inr b)
else
  match fuel with
  | O => None
  | S fuel =>
      match getdetails h totalsize fmt with
      | inl e => Some (inl e)
      | inr (opt, size, ntoalign, h, fmt) =>
          let totalsize := to_size_t (totalsize + (ntoalign + size)) in
          let b := b ++ replicate (Z.to_nat ntoalign) LUA_PACKPADBYTE in
          match pack_option h opt size args (arg + 1) with
          | inl e => Some (inl e)
          | inr (bytes, arg, more) =>
              pack_loop fuel h fmt args arg (to_size_t (totalsize + more))
                (b ++ bytes)
          end
      end
  end.

(** [str_pack]: [fmt] is the format (argument 1, as a C string),
  [args] are the arguments after it; the result is the string
  pushed.  Every turn of the loop consumes at least one character
  of the format. *)
Definition str_pack (fmt : string) (args : list value)
  : option (lua_error + list Z) :=
pack_loop (String.length fmt) initheader fmt args 1 0 [].

(** The [switch] of [str_unpack] (lines 421-458), entered with
  [pos] past the padding: the value pushed, if any, and [pos]
  before the [pos += size] of line 459. *)
Definition unpack_option (h : Header) (opt : KOption) (size : Z)
  (data : list Z) (ld pos : Z) : lua_error + (option value * Z) :=
let str := drop (Z.to_nat pos) data in
match opt with
| Kint | Kuint =>
    match unpackint SZINT str (islittle h) size (KOption_eqb opt Kint) with
    | None => inl (Err_does_not_fit size)
    | Some res => inr (Some (pushinteger res), pos)
    end
| Kfloat =>
    let u := copywithendian (uninit size) str size (islittle h) in
    let num :=
      if size =? SZ_float then load_float u
      else if size =? SZ_double then load_double u
      else load_number u in
    inr (Some (pushnumber num), pos)
| Kchar => inr (Some (pushlstring (take (Z.to_nat size) str)), pos)
| Kstring =>
    match unpackint SZINT str (islittle h) size false with
    | None => inl (Err_does_not_fit size)
    | Some res =>
        let len := to_size_t res in
        if negb (to_size_t (pos + len + size) <=? ld)
        then inl (Err_arg 2 "data string too short")
        else if ld <? pos + size + len then inl Read_beyond_data
        else
          inr (Some (pushlstring
                       (take (Z.to_nat len)
                          (drop (Z.to_nat (pos + size)) data))),
               to_size_t (pos + len))
    end
| Kzstr =>
    let len := to_size_t (to_int (strlen str)) in
    if ld <? pos + len then inl Read_beyond_data
    else
      inr (Some (pushlstring (take (Z.to_nat len) str)),
           to_size_t (pos + (len + 1)))
| Kpaddalign | Kpadding | Knop => inr (None, pos)
end.

(** The [while] of [str_unpack] (lines 410-460), with at most [fuel]
  turns; [res] are the values pushed so far. *)
Fixpoint unpack_loop (fuel : nat) (h : Header) (fmt : string)
  (data : list Z) (ld pos : Z) (res : list value)
  : option (lua_error + list value) :=
if peek fmt =? 0
then
  Some (inr (res ++ [pushinteger (to_integer SZINT (to_size_t (pos + 1)))]))
else
  match fuel with
  | O => None
  | S fuel =>
      match getdetails h pos fmt with
      | inl e => Some (inl e)
      | inr (opt, size, ntoalign, h, fmt) =>
          if (2 ^ (8 * SZ_size_t) - 1 - pos <? to_size_t (ntoalign + size))
             || (ld <? to_size_t (pos + ntoalign + size))
          then Some (inl (Err_arg 2 "data string too short"))
          else
            let pos := to_size_t (pos + ntoalign) in
            if negb (checkstack (length res)) then Some (inl Err_stack)
            else
              match unpack_option h opt size data ld pos with
              | inl e => Some (inl e)
              | inr (v, pos) =>
                  unpack_loop fuel h fmt data ld (to_size_t (pos + size))
                    (match v with
                     | Some v => res ++ [v]
                     | None => res
                     end)
              end
      end
  end.

(** [str_unpack]: [fmt] is the format, [data] the string of argument
  2 and [init] the value of [luaL_optinteger(L, 3, 1)]; the result
  holds the values pushed, the last one being the next position. *)
Definition str_unpack (fmt : string) (data : list Z) (init : Z)
  : option (lua_error + list value) :=
let ld := Z.of_nat (length data) in
let pos := to_size_t (to_size_t (posrelat init ld) - 1) in
if ld <? pos
then Some (inl (Err_arg 3 "initial position out of string"))
else unpack_loop (String.length fmt) initheader fmt data ld pos [].

(** The sizes the code is written for: an [int] of at least two
  bytes that is no wider than [size_t] and [lua_Integer]. *)
Definition usual_sizes : Prop :=
1 <= SZ_short /\ 2 <= SZ_int /\ 1 <= SZ_long
/\ 1 <= SZ_float /\ 1 <= SZ_double /\ 1 <= SZ_number
/\ SZ_int <= SZ_size_t /\ SZ_int <= SZINT.

(** What the functions rely on: [luaL_checkinteger] gives a
  [lua_Integer]; an area of [size] bytes has [size] bytes; the
  members of the union have the sizes [getoption] takes them to
  have; and the stack has room. *)
Definition lawful_api : Prop :=
(forall v n, checkinteger v = Some n ->
   - 2 ^ (NB * SZINT - 1) <= n < 2 ^ (NB * SZINT - 1))
/\ (forall size, length (uninit size) = Z.to_nat size)
/\ (forall x, length (store_float x) = Z.to_nat SZ_float)
/\ (forall x, length (store_double x) = Z.to_nat SZ_double)
/\ (forall x, length (store_number x) = Z.to_nat SZ_number)
/\ (forall n, checkstack n = true).

(** A number stored in the member of the union that has [size]
  bytes and read from it again. *)
Definition through_float (size : Z) (x : number) : number :=
if size =? SZ_float then load_float (store_float x)
else if size =? SZ_double then load_double (store_double x)
else load_number (store_number x).

(** [v] is what unpacking gives for the argument [a]: the integer
  [a] is taken for, the string it is taken for, or the number it
  is taken for after a passage through one of the float types. *)
Definition unpacks_to (a v : value) : Prop :=
(exists n, checkinteger a = Some n /\ v = pushinteger n)
\/ (exists s, checklstring a = Some s /\ v = pushlstring s)
\/ (exists x size,
      checknumber a = Some x /\ v = pushnumber (through_float size x)).

End WithLua.

End LPackFormat.

(** ** A machine and a Lua for the examples *)

Module Machines.

Import LPack LPackOptions LPackFormat.

(** The sizes of an LP64 little-endian machine with 64-bit Lua
    integers and [double] Lua numbers. *)
Definition lp64 : CTypes :=
  {| SZ_short := 2; SZ_int := 4; SZ_long := 8; SZ_size_t := 8;
     SZ_float := 4; SZ_double := 8; SZ_number := 8; SZINT := 8;
     MAXALIGN := 8; native_little := true |}.

(** the [k] low bytes of [x], least significant first *)
Definition le_bytes (k : nat) (x : Z) : list Z :=
  map (fun i => byte_of x (Z.of_nat i)) (seq 0 k).

(** A stand-in for Lua with integers, numbers and strings.  A number
    is kept as the integer of its bit pattern, four bytes of it as a
    [float]; fresh memory holds 0xaa. *)
Inductive toy_value :=
| T_integer (n : Z)
| T_number (x : Z)
| T_string (s : list Z)
| T_nil.

Definition toy_lua : LuaAPI :=
  {| value := toy_value;
     number := Z;
     checkinteger := fun v =>
       match v with
       | T_integer n => Some (to_integer 8 n)
       | _ => None
       end;
     checknumber := fun v =>
       match v with
       | T_number x => Some x
       | T_integer n => Some n
       | _ => None
       end;
     checklstring := fun v =>
       match v with
       | T_string s => Some s
       | _ => None
       end;
     pushinteger := T_integer;
     pushnumber := T_number;
     pushlstring := T_string;
     checkstack := fun _ => true;
     uninit := fun size => replicate (Z.to_nat size) 170;
     store_float := le_bytes 4;
     store_double := le_bytes 8;
     store_number := le_bytes 8;
     load_float := le_value;
     load_double := le_value;
     load_number := le_value |}.

(** A format with integers, strings, padding and alignment, and
    arguments for it. *)
Definition sample_format : string := "<i2 s1 z x >I3 x !4 <i4 f"%string.

Definition sample_args : list toy_value :=
  [T_integer (-2); T_string [104; 105]; T_string [111; 107];
   T_integer 7; T_integer 66051; T_number 1078530011].

End Machines.

(** * Part II: properties *)

(** ** Machine integers *)

Lemma wrap64_small x : 0 <= x < 2 ^ 64 -> wrap64 x = x.
Proof. intros Hx. unfold wrap64. now apply Z.mod_small. Qed.

Lemma wrap64_range x : 0 <= wrap64 x < 2 ^ 64.
Proof. unfold wrap64. apply Z.mod_pos_bound. lia. Qed.

Lemma byte_of_range n k : 0 <= k -> 0 <= byte_of n k < 256.
Proof.
  intros Hk. unfold byte_of. change 255 with (Z.ones 8).
  rewrite Z.land_ones by lia. apply Z.mod_pos_bound. lia.
Qed.

Lemma byte_of_div n k : 0 <= k -> byte_of n k = (n / 2 ^ (8 * k)) mod 256.
Proof.
  intros Hk. unfold byte_of. change 255 with (Z.ones 8).
  rewrite Z.land_ones, Z.shiftr_div_pow2 by lia. reflexivity.
Qed.

(** The bytes of a word assembled from four bytes. *)
Lemma byte_of_compose c3 c2 c1 c0 :
  0 <= c3 < 256 -> 0 <= c2 < 256 -> 0 <= c1 < 256 -> 0 <= c0 < 256 ->
  let y := c3 * 2 ^ 24 + c2 * 2 ^ 16 + c1 * 2 ^ 8 + c0 in
  byte_of y 0 = c0 /\ byte_of y 1 = c1 /\ byte_of y 2 = c2 /\ byte_of y 3 = c3.
Proof.
  intros H3 H2 H1 H0 y. rewrite !byte_of_div by lia.
  assert (Q0 : y / 2 ^ (8 * 0) = y) by (apply Z.div_1_r).
  assert (Q1 : y / 2 ^ (8 * 1) = c3 * 2 ^ 16 + c2 * 2 ^ 8 + c1)
    by (symmetry; apply Z.div_unique with (r := c0); unfold y; lia).
  assert (Q2 : y / 2 ^ (8 * 2) = c3 * 2 ^ 8 + c2)
    by (symmetry; apply Z.div_unique with (r := c1 * 2 ^ 8 + c0);
        unfold y; lia).
  assert (Q3 : y / 2 ^ (8 * 3) = c3)
    by (symmetry;
        apply Z.div_unique with (r := c2 * 2 ^ 16 + c1 * 2 ^ 8 + c0);
        unfold y; lia).
  rewrite Q0, Q1, Q2, Q3. repeat split; symmetry.
  - apply Z.mod_unique with (q := c3 * 2 ^ 16 + c2 * 2 ^ 8 + c1);
      unfold y; lia.
  - apply Z.mod_unique with (q := c3 * 2 ^ 8 + c2); lia.
  - apply Z.mod_unique with (q := c3); lia.
  - apply Z.mod_unique with (q := 0); lia.
Qed.

(** Whatever the byte order of the machine, the memory behind
    [htonl(x)] holds the bytes of [x] in network order. *)
Lemma mem32_htonl little x : mem32 little (htonl little x) = be_bytes32 x.
Proof.
  destruct little; [|reflexivity].
  unfold mem32, htonl, be_bytes32, bswap32.
  destruct (byte_of_compose (byte_of x 0) (byte_of x 1) (byte_of x 2)
              (byte_of x 3)) as (E0 & E1 & E2 & E3);
    try (apply byte_of_range; lia).
  cbv zeta in E0, E1, E2, E3. rewrite E0, E1, E2, E3. reflexivity.
Qed.

(** ** lpack.c: an integer survives packint and unpackint *)

Module LPackFacts.

Import LPack.

Section WithLuaInteger.

Variable SZINT : Z.
Hypothesis SZINT_pos : 0 < SZINT.

Lemma pos_lt e size i :
  0 <= i < size -> (pos e size i < Z.to_nat size)%nat.
Proof. unfold pos. destruct e; lia. Qed.

Lemma pos_inj e size i j :
  0 <= i < size -> 0 <= j < size ->
  pos e size i = pos e size j -> i = j.
Proof. unfold pos. destruct e; lia. Qed.

Lemma packint_bytes_lookup e size k : forall i n buff j,
  0 <= i -> i + Z.of_nat k <= size ->
  length buff = Z.to_nat size ->
  0 <= j < size ->
  packint_bytes k i n e size buff !! pos e size j =
    if (i <=? j) && (j <? i + Z.of_nat k)
    then Some (Z.land (Z.shiftr n (NB * (j - i + 1))) MC)
    else buff !! pos e size j.
Proof.
  induction k as [|k IH]; intros i n buff j Hi Hk Hlen Hj; simpl packint_bytes.
  - zcases.
  - rewrite IH by (try rewrite length_insert; lia).
    destruct (Z.eq_dec j i) as [->|Hne].
    + rewrite list_lookup_insert_eq by (rewrite Hlen; apply pos_lt; lia).
      zcases. do 3 f_equal. unfold NB. lia.
    + rewrite list_lookup_insert_ne
        by (intros Heq; apply pos_inj in Heq; lia).
      zcases.
      rewrite Z.shiftr_shiftr by (unfold NB; lia).
      do 3 f_equal. unfold NB. lia.
Qed.

(** Without the sign-extension stage, cell [i] of the packed area is
    byte [i] of [n], counted from the least significant one. *)
Lemma packint_lookup buff n e size neg j :
  1 <= size <= SZINT ->
  length buff = Z.to_nat size ->
  0 <= j < size ->
  packint SZINT buff n e size neg !! pos e size j = Some (byte_of n j).
Proof.
  intros Hs Hlen Hj. unfold packint.
  replace (neg && (SZINT <? size)) with false
    by (destruct neg; zcases).
  rewrite packint_bytes_lookup by (try rewrite length_insert; lia).
  unfold byte_of.
  destruct (Z.eq_dec j 0) as [->|Hne].
  - rewrite list_lookup_insert_eq by (rewrite Hlen; apply pos_lt; lia).
    zcases.
  - zcases. do 2 f_equal. f_equal. unfold NB. lia.
Qed.

Lemma lor_shiftl_byte r b :
  0 <= r -> 0 <= b < 256 -> Z.lor (Z.shiftl r 8) b = r * 256 + b.
Proof.
  intros Hr Hb.
  set (x := Z.lor (Z.shiftl r 8) b).
  assert (Hq : x / 2 ^ 8 = r).
  { rewrite <- Z.shiftr_div_pow2 by lia. unfold x.
    rewrite Z.shiftr_lor, Z.shiftr_shiftl_l by lia.
    rewrite Z.sub_diag, Z.shiftl_0_r.
    rewrite (Z.shiftr_div_pow2 b) by lia.
    rewrite (Z.div_small b) by lia. apply Z.lor_0_r. }
  assert (Hm : x mod 2 ^ 8 = b).
  { rewrite <- Z.land_ones by lia. unfold x.
    rewrite Z.land_lor_distr_l, !Z.land_ones by lia.
    rewrite Z.shiftl_mul_pow2 by lia.
    rewrite Z.mod_mul by lia. rewrite Z.mod_small by lia.
    apply Z.lor_0_l. }
  rewrite (Z.div_mod x (2 ^ 8)) by lia. rewrite Hq, Hm. lia.
Qed.

Lemma mod_pow2_byte n i :
  0 <= i ->
  n mod 2 ^ (8 * (i + 1)) = byte_of n i * 2 ^ (8 * i) + n mod 2 ^ (8 * i).
Proof.
  intros Hi. replace (8 * (i + 1)) with (8 * i + 8) by lia.
  rewrite Z.pow_add_r by lia.
  rewrite Z.rem_mul_r by lia.
  unfold byte_of. change 255 with (Z.ones 8).
  rewrite Z.land_ones, Z.shiftr_div_pow2 by lia. lia.
Qed.

(** The read loop rebuilds the low [k] bytes of [n] below what it has
    accumulated so far. *)
Lemma unpackint_bytes_value str e size n k : forall res,
  Z.of_nat k <= size -> Z.of_nat k <= SZINT ->
  (forall j, 0 <= j < size -> str !! pos e size j = Some (byte_of n j)) ->
  0 <= res < 2 ^ (8 * (SZINT - Z.of_nat k)) ->
  unpackint_bytes SZINT k str e size res =
    res * 2 ^ (8 * Z.of_nat k) + n mod 2 ^ (8 * Z.of_nat k).
Proof.
  induction k as [|k IH]; intros res Hks HkS Hstr Hres; simpl unpackint_bytes.
  - simpl. rewrite Z.mod_1_r. lia.
  - assert (Hb := byte_of_range n (Z.of_nat k) ltac:(lia)).
    assert (Hpow : 2 ^ (8 * (SZINT - Z.of_nat k))
                   = 2 ^ (8 * (SZINT - Z.of_nat (S k))) * 256).
    { replace (8 * (SZINT - Z.of_nat k))
        with (8 * (SZINT - Z.of_nat (S k)) + 8) by lia.
      rewrite Z.pow_add_r by lia. reflexivity. }
    assert (Hle : 2 ^ (8 * (SZINT - Z.of_nat k)) <= 2 ^ (NB * SZINT)).
    { apply Z.pow_le_mono_r; unfold NB; lia. }
    unfold byte_at. rewrite Hstr by lia. simpl default.
    unfold to_unsigned.
    assert (Hsh : Z.shiftl res NB = res * 256)
      by (rewrite Z.shiftl_mul_pow2; unfold NB; lia).
    rewrite Z.mod_small by (rewrite Hsh; nia).
    change NB with 8. rewrite lor_shiftl_byte by lia.
    rewrite IH by (try assumption; nia).
    replace (8 * Z.of_nat (S k)) with (8 * (Z.of_nat k + 1)) by lia.
    rewrite (mod_pow2_byte n (Z.of_nat k)) by lia.
    replace (8 * (Z.of_nat k + 1)) with (8 * Z.of_nat k + 8) by lia.
    rewrite Z.pow_add_r by lia. change (2 ^ 8) with 256. ring.
Qed.


Lemma pow2_double m : 0 < m -> 2 ^ m = 2 * 2 ^ (m - 1).
Proof.
  intros Hm. replace m with (1 + (m - 1)) at 1 by lia.
  rewrite Z.pow_add_r by lia. reflexivity.
Qed.

Lemma to_integer_to_unsigned n :
  - 2 ^ (NB * SZINT - 1) <= n < 2 ^ (NB * SZINT - 1) ->
  to_integer SZINT (to_unsigned SZINT n) = n.
Proof.
  intros Hn. unfold to_integer, to_unsigned.
  assert (H2 := pow2_double (NB * SZINT) ltac:(unfold NB; lia)).
  rewrite Z.mod_mod by lia.
  destruct (Z.neg_nonneg_cases n) as [Hneg|Hpos].
  - rewrite <- (Z.mod_add n 1) by lia.
    rewrite Z.mod_small by lia. zcases.
  - rewrite Z.mod_small by lia. zcases.
Qed.

Lemma land_small_pow2 a m : 0 <= m -> 0 <= a < 2 ^ m -> Z.land a (2 ^ m) = 0.
Proof.
  intros Hm Ha. apply Z.bits_inj'. intros k Hk.
  rewrite Z.land_spec, Z.bits_0, Z.pow2_bits_eqb by lia.
  destruct (Z.eqb_spec m k) as [<-|Hne]; [|apply andb_false_r].
  rewrite andb_true_r. apply Z.testbit_false; [lia|].
  rewrite Z.div_small by lia. reflexivity.
Qed.

(** [(res ^ mask) - mask] extends the sign of an [m+1]-bit value. *)
Lemma sign_extension n m :
  0 <= m -> - 2 ^ m <= n < 2 ^ m ->
  Z.lxor (n mod 2 ^ (m + 1)) (2 ^ m) - 2 ^ m = n.
Proof.
  intros Hm Hn.
  assert (H2 : 2 ^ (m + 1) = 2 * 2 ^ m)
    by (rewrite Z.pow_add_r by lia; lia).
  destruct (Z.neg_nonneg_cases n) as [Hneg|Hpos].
  - rewrite <- (Z.mod_add n 1) by lia.
    rewrite Z.mod_small by lia.
    replace (n + 1 * 2 ^ (m + 1)) with ((n + 2 ^ m) + 2 ^ m) by lia.
    rewrite (Z.add_nocarry_lxor (n + 2 ^ m) (2 ^ m))
      by (apply land_small_pow2; lia).
    rewrite Z.lxor_assoc, Z.lxor_nilpotent, Z.lxor_0_r. lia.
  - rewrite Z.mod_small by lia.
    rewrite <- Z.add_nocarry_lxor by (apply land_small_pow2; lia). lia.
Qed.

(** C10: for either byte order, a size of 1 to [sizeof(lua_Integer)]
    bytes and a Lua integer [n] that fits the field (as a signed
    value, or, for an unsigned field, by its unsigned reading),
    [unpackint] with that byte order, size and signedness gives [n]
    back from the bytes [packint] writes for [n]. *)
Theorem packint_unpackint_roundtrip buff n islittle size neg issigned :
  1 <= size <= SZINT ->
  length buff = Z.to_nat size ->
  - 2 ^ (NB * SZINT - 1) <= n < 2 ^ (NB * SZINT - 1) ->
  representable SZINT issigned size n ->
  unpackint SZINT (packint SZINT buff (to_unsigned SZINT n) islittle size neg)
            islittle size issigned = Some n.
Proof.
  intros Hs Hlen HnS Hn. unfold representable in Hn.
  assert (Hstr : forall j, 0 <= j < size ->
            packint SZINT buff (to_unsigned SZINT n) islittle size neg
              !! pos islittle size j = Some (byte_of (to_unsigned SZINT n) j))
    by (intros j Hj; now apply packint_lookup).
  unfold unpackint.
  destruct (Z.leb_spec size SZINT) as [_|]; [|lia].
  rewrite (unpackint_bytes_value _ _ _ (to_unsigned SZINT n))
    by (try assumption; lia).
  rewrite Z.mul_0_l, Z.add_0_l, Z2Nat.id by lia.
  assert (Hdiv : (2 ^ (8 * size) | 2 ^ (NB * SZINT))).
  { exists (2 ^ (NB * SZINT - 8 * size)).
    rewrite <- Z.pow_add_r by (unfold NB; lia). f_equal. lia. }
  assert (Hres : to_unsigned SZINT n mod 2 ^ (8 * size) = n mod 2 ^ (8 * size))
    by (unfold to_unsigned; now apply Z.mod_mod_divide).
  rewrite Hres.
  destruct (Z.ltb_spec size SZINT) as [Hlt|Hge].
  - destruct issigned.
    + assert (Hmask : to_unsigned SZINT (Z.shiftl 1 (size * NB - 1))
                      = 2 ^ (8 * size - 1)).
      { unfold to_unsigned.
        rewrite Z.shiftl_mul_pow2, Z.mul_1_l by (unfold NB; lia).
        replace (size * NB - 1) with (8 * size - 1) by (unfold NB; lia).
        apply Z.mod_small. split; [apply Z.pow_nonneg; lia|].
        apply Z.pow_lt_mono_r; unfold NB; lia. }
      rewrite Hmask.
      replace (8 * size) with ((8 * size - 1) + 1) at 1 by lia.
      rewrite sign_extension by (unfold NB in Hn; lia).
      f_equal. now apply to_integer_to_unsigned.
    + rewrite <- Hres, Z.mod_small by (unfold NB in Hn; lia).
      f_equal. now apply to_integer_to_unsigned.
  - destruct (Z.ltb_spec SZINT size); [lia|].
    assert (size = SZINT) by lia. subst size.
    change (n mod 2 ^ (8 * SZINT)) with (to_unsigned SZINT n).
    f_equal. now apply to_integer_to_unsigned.
Qed.

End WithLuaInteger.

End LPackFacts.

(** ** pktizr.c: the generator *)

Module GeneratorFacts.

Import Pkt Bucket Script Ranges Pktizr.

Section WithWorkers.

Context `{TB : TokenBucket} {L : Type} `{SH : ScriptHost L}.

Variable args : pktizr_args.

Lemma tot_cnt_range : 0 <= tot_cnt args < 2 ^ 64.
Proof. apply wrap64_range. Qed.

(** Without overflow of [size_t], [tot_cnt] is the product. *)
Lemma tot_cnt_exact :
  0 <= tgt_cnt args * prt_cnt args ->
  0 <= tgt_cnt args * prt_cnt args * count args < 2 ^ 64 ->
  tot_cnt args = tgt_cnt args * prt_cnt args * count args.
Proof.
  intros Hp Hn. unfold tot_cnt, wrap64.
  rewrite Z.mul_mod_idemp_l by lia. now apply Z.mod_small.
Qed.

(** Below the total the indices stay inside the two range lists. *)
Lemma indices_in_range i :
  0 < tgt_cnt args -> 0 < prt_cnt args -> 0 < count args ->
  0 <= i < tgt_cnt args * prt_cnt args * count args ->
  0 <= target_index args i < tgt_cnt args
  /\ 0 <= port_index args i < prt_cnt args.
Proof.
  intros HT HP HC Hi. unfold target_index, port_index.
  assert (Hm := Z.mod_pos_bound i (tgt_cnt args) HT).
  assert (Hq : 0 <= i / tgt_cnt args < prt_cnt args * count args).
  { split; [apply Z.div_pos; lia|].
    apply Z.div_lt_upper_bound; nia. }
  repeat split.
  - apply Z.div_pos; lia.
  - apply Z.div_lt_upper_bound; nia.
  - apply Z.div_pos; lia.
  - apply Z.div_lt_upper_bound; nia.
Qed.

(** With two or more duplicates the last target is out of reach of
    the target index, whatever the turn. *)
Lemma target_index_short i :
  2 <= count args -> 2 <= tgt_cnt args ->
  target_index args i < tgt_cnt args - 1.
Proof.
  intros HC HT. unfold target_index.
  assert (Hm := Z.mod_pos_bound i (tgt_cnt args) ltac:(lia)).
  destruct (Z.eq_dec (i mod tgt_cnt args) 0) as [->|Hne].
  - rewrite Z.div_0_l by lia. lia.
  - assert (i mod tgt_cnt args / count args < i mod tgt_cnt args)
      by (apply Z.div_lt; lia).
    lia.
Qed.

(** A turn of the loop that passes the test of the [for]. *)
Lemma loop_step_enter i s rc L' :
  0 <= loop_i s < tot_cnt args ->
  loop_stop i = false ->
  script_loop (loop_L s)
    (uint32 (range_list_pick (targets args) (target_index args (loop_i s))))
    (uint16 (range_list_pick (ports args) (port_index args (loop_i s))))
    = (rc, L') ->
  loop_step args i s =
    (Running,
     {| loop_L := L';
        loop_i := loop_i s + 1;
        loop_bucket :=
          if rc <? 0 then bucket_consume (loop_bucket s) (loop_now i)
          else take_token (bucket_consume (loop_bucket s) (loop_now i));
        loop_trace :=
          loop_trace s
          ++ [Ev_script_loop
                (uint32 (range_list_pick (targets args)
                           (target_index args (loop_i s))))
                (uint16 (range_list_pick (ports args)
                           (port_index args (loop_i s))))] |}).
Proof.
  intros Hi Hstop Hrc. unfold loop_step.
  assert (Ht := tot_cnt_range).
  destruct (Z.ltb_spec (loop_i s) (tot_cnt args)); [|lia].
  rewrite Hstop. simpl. rewrite Hrc.
  rewrite wrap64_small by lia. reflexivity.
Qed.

(** Every turn adds exactly one call to the trace. *)
Lemma loop_step_trace i s :
  exists e, loop_trace (snd (loop_step args i s)) = loop_trace s ++ [e].
Proof.
  unfold loop_step.
  destruct ((loop_i s <? tot_cnt args) && negb (loop_stop i)).
  - destruct (script_loop _ _ _) as [rc L']. simpl. eauto.
  - simpl. eauto.
Qed.

Lemma loop_run_trace ins : forall s,
  exists ext, loop_trace (snd (loop_run args ins s)) = loop_trace s ++ ext.
Proof.
  induction ins as [|i ins IH]; intros s; simpl.
  - exists []. now rewrite app_nil_r.
  - destruct (loop_step_trace i s) as [e He].
    destruct (loop_step args i s) as [[] s']; simpl in *.
    + destruct (IH s') as [ext Hext]. exists (e :: ext).
      rewrite Hext, He, <- app_assoc. reflexivity.
    + exists [e]. exact He.
Qed.

(** The tuple of turn [j] after the current one, as long as no stop
    is seen up to it. *)
Lemma loop_run_lookup ins : forall s (j : nat),
  0 <= loop_i s ->
  loop_i s + Z.of_nat j < tot_cnt args ->
  (j < length ins)%nat ->
  Forall (fun i => loop_stop i = false) (take (S j) ins) ->
  tuples (loop_trace (snd (loop_run args ins s)))
    !! (length (tuples (loop_trace s)) + j)%nat
  = Some (uint32 (range_list_pick (targets args)
                    (target_index args (loop_i s + Z.of_nat j))),
          uint16 (range_list_pick (ports args)
                    (port_index args (loop_i s + Z.of_nat j)))).
Proof.
  induction ins as [|i ins IH]; intros s j Hi Hj Hlen Hgo;
    simpl in Hlen; [lia|].
  rewrite firstn_cons in Hgo. apply Forall_cons in Hgo as [Hi0 Hgo].
  simpl loop_run.
  destruct (script_loop (loop_L s)
    (uint32 (range_list_pick (targets args) (target_index args (loop_i s))))
    (uint16 (range_list_pick (ports args) (port_index args (loop_i s)))))
    as [rc L'] eqn:Hrc.
  rewrite (loop_step_enter i s rc L') by (try assumption; lia).
  set (s' := {| loop_L := L' |}).
  destruct j as [|j].
  - destruct (loop_run_trace ins s') as [ext Hext].
    rewrite Hext. unfold s'; simpl loop_trace. unfold tuples.
    rewrite !omap_app. simpl.
    rewrite Nat.add_0_r, Z.add_0_r.
    rewrite <- app_assoc. rewrite lookup_app_r by lia.
    now rewrite Nat.sub_diag.
  - specialize (IH s' j).
    replace (length (tuples (loop_trace s')) + j)%nat
      with (length (tuples (loop_trace s)) + S j)%nat in IH.
    2:{ unfold s'; simpl loop_trace. unfold tuples.
        rewrite omap_app, length_app. simpl. lia. }
    rewrite IH; unfold s'; simpl loop_i; try lia; try assumption.
    replace (loop_i s + 1 + Z.of_nat j) with (loop_i s + Z.of_nat (S j))
      by lia.
    reflexivity.
Qed.

(** C5: turn [i] of the generator, for [i] below the total, hands the
    script the target at range-list index [(i mod T) / C] and the port
    at index [(i / T) / C], where [T] is the number of targets and [C]
    the number of duplicates; the total is [T * P * C] whenever that
    product fits a [size_t]. *)
Theorem loop_cb_picks ins (i : nat) :
  let T := range_list_count (targets args) in
  let P := range_list_count (ports args) in
  let C := count args in
  Z.of_nat i < tot_cnt args ->
  (i < length ins)%nat ->
  Forall (fun x => loop_stop x = false) (take (S i) ins) ->
  (0 <= T * P -> 0 <= T * P * C < 2 ^ 64 -> tot_cnt args = T * P * C)
  /\ tuples (loop_trace (snd (loop_cb args ins))) !! i
     = Some (uint32 (range_list_pick (targets args)
                       ((Z.of_nat i mod T) / C)),
             uint16 (range_list_pick (ports args)
                       ((Z.of_nat i / T) / C))).
Proof.
  intros T P C Hi Hlen Hgo. split.
  - apply tot_cnt_exact.
  - unfold loop_cb.
    apply (loop_run_lookup ins (loop_init args) i); simpl; try lia;
      assumption.
Qed.

(** C9: a turn of the generator in which the script's [loop] upcall
    answers a negative status leaves the bucket as [bucket_consume]
    left it (no token is taken), and the generator goes on with the
    next index; with a non-negative status one token is taken. *)
Theorem loop_step_skip i s rc L' :
  0 <= loop_i s < tot_cnt args ->
  loop_stop i = false ->
  script_loop (loop_L s)
    (uint32 (range_list_pick (targets args) (target_index args (loop_i s))))
    (uint16 (range_list_pick (ports args) (port_index args (loop_i s))))
    = (rc, L') ->
  let '(c, s') := loop_step args i s in
  c = Running
  /\ loop_i s' = loop_i s + 1
  /\ (rc < 0 ->
      loop_bucket s' = bucket_consume (loop_bucket s) (loop_now i))
  /\ (0 <= rc ->
      loop_bucket s'
      = take_token (bucket_consume (loop_bucket s) (loop_now i))).
Proof.
  intros Hi Hstop Hrc.
  rewrite (loop_step_enter i s rc L') by assumption.
  simpl. repeat split; intros Hsign; zcases.
Qed.

End WithWorkers.

End GeneratorFacts.

(** ** resolv.c: the ARP resolver *)

Module ResolvFacts.

Import Pkt Resolv.

(** In a well-formed chain no ARP header lies deeper than second. *)
Lemma well_formed_arp_depth c : forall h,
  well_formed c = true -> In (N_arp h) (drop 2 c) -> False.
Proof.
  induction c as [|x c IH]; intros h Hwf Hin; [destruct Hin|].
  destruct c as [|y c]; [destruct Hin|].
  simpl drop in Hin. simpl in Hwf.
  apply andb_true_iff in Hwf as [Hxy Hwf].
  destruct c as [|z c]; [destruct Hin|].
  destruct Hin as [->|Hin].
  - simpl in Hwf. apply andb_true_iff in Hwf as [Hyz _].
    destruct x, y; discriminate.
  - apply (IH h Hwf). exact Hin.
Qed.

(** What [pkt_unpack] hands back with an ARP header in it is an
    Ethernet header followed by that ARP header. *)
Lemma unpacked_arp n p h :
  unpacked n p = true -> In (N_arp h) (nodes p) ->
  exists e, nodes p = [N_eth e; N_arp h] /\ n = 2.
Proof.
  unfold unpacked. intros Hu Hin.
  apply andb_true_iff in Hu as [Hu Hwf].
  apply andb_true_iff in Hu as [Hn Hhd].
  apply Z.eqb_eq in Hn.
  destruct (nodes p) as [|a c] eqn:Hc; [destruct Hin|].
  destruct a as [e| | | | |]; try discriminate.
  destruct Hin as [Hin|Hin]; [discriminate|].
  destruct c as [|b c]; [destruct Hin|].
  destruct Hin as [->|Hin].
  - destruct c as [|z c].
    + exists e. split; [reflexivity|]. simpl in Hn. lia.
    + simpl in Hwf. destruct z; discriminate.
  - exfalso. exact (well_formed_arp_depth _ h Hwf Hin).
Qed.

Section WithCodec.

Context `{CD : Codec}.
Variable little : bool.

Lemma memcmp_ne_be32 x b :
  memcmp_ne (mem32 little (htonl little x)) b 4 = false
  <-> take 4 b = be_bytes32 x.
Proof.
  unfold memcmp_ne. rewrite mem32_htonl.
  change (take 4 (be_bytes32 x)) with (be_bytes32 x).
  rewrite negb_false_iff, bool_decide_eq_true. split; congruence.
Qed.

(** The test of lines 114-124 on a chain as [pkt_unpack] hands it
    back: with a matching ARP header the loop is left with the sender
    address of that header; without one the loop goes on. *)
Lemma check_reply_unpacked saddr daddr rsp rsp_len :
  let n := fst (pkt_unpack rsp rsp_len) in
  let p := snd (pkt_unpack rsp rsp_len) in
  unpacked n p = true ->
  (forall h, In (N_arp h) (nodes p) -> arp_matches saddr daddr h ->
     check_reply little (htonl little saddr) (htonl little daddr)
       rsp rsp_len = Some (Ret 0, Some (take 6 (hwsrc h))))
  /\ ((forall h, In (N_arp h) (nodes p) -> ~ arp_matches saddr daddr h) ->
      check_reply little (htonl little saddr) (htonl little daddr)
        rsp rsp_len = None).
Proof.
  intros n p Hu. unfold check_reply.
  destruct (pkt_unpack rsp rsp_len) as [n' p'] eqn:Hup.
  simpl in n, p. subst n p. split.
  - intros h Hin [Hsrc Hdst].
    destruct (unpacked_arp _ _ _ Hu Hin) as (e & Hc & ->).
    rewrite Hc. simpl.
    apply memcmp_ne_be32 in Hsrc. apply memcmp_ne_be32 in Hdst.
    now rewrite Hsrc, Hdst.
  - intros Hno.
    destruct (Z.ltb_spec n' 2) as [|Hn]; [reflexivity|].
    destruct (nodes p') as [|a c] eqn:Hc.
    + unfold unpacked in Hu. rewrite Hc in Hu. simpl in Hu.
      apply andb_true_iff in Hu as [Hu _].
      apply andb_true_iff in Hu as [Hu _].
      apply Z.eqb_eq in Hu. lia.
    + destruct c as [|b c]; [reflexivity|].
      destruct b as [|h| | | |]; try reflexivity.
      assert (Hin : In (N_arp h) (a :: N_arp h :: c))
        by (right; left; reflexivity).
      specialize (Hno h Hin). unfold arp_matches in Hno.
      destruct (memcmp_ne (mem32 little (htonl little daddr)) (psrc h) 4)
        eqn:Hsrc; [reflexivity|].
      destruct (memcmp_ne (mem32 little (htonl little saddr)) (pdst h) 4)
        eqn:Hdst; [reflexivity|].
      apply memcmp_ne_be32 in Hsrc. apply memcmp_ne_be32 in Hdst.
      exfalso. apply Hno. now split.
Qed.

(** One turn of the loop on a frame captured within the time limit,
    by what [check_reply] says of the frame. *)
Lemma poll_frame start saddr daddr rsp rsp_len now ins dhost tr :
  wrap64 (now - start) <= timeout ->
  poll little start saddr daddr
    ({| cap_frame := Some (rsp, rsp_len); cap_now := now |} :: ins) dhost tr
  = match check_reply little saddr daddr rsp rsp_len with
    | None => poll little start saddr daddr ins dhost (tr ++ [Ev_capture])
    | Some (r, None) => (r, dhost, tr ++ [Ev_capture])
    | Some (r, Some mac) => (r, mac ++ drop 6 dhost, tr ++ [Ev_capture])
    end.
Proof.
  intros Hnow. simpl poll.
  destruct (Z.ltb_spec timeout (wrap64 (now - start))); [lia|].
  reflexivity.
Qed.

(** C3: a frame captured within the time limit, whose chain is as
    [pkt_unpack] hands it back, completes the resolution exactly when
    the chain holds an ARP header whose [psrc] is the gateway address
    and whose [pdst] is the local address: then the function returns 0
    with the six bytes of that header's [hwsrc] in [dhost]; otherwise
    [dhost] is left alone and the loop goes on to the next capture. *)
Theorem poll_reply start saddr daddr rsp rsp_len now ins dhost tr :
  let n := fst (pkt_unpack rsp rsp_len) in
  let p := snd (pkt_unpack rsp rsp_len) in
  let i := {| cap_frame := Some (rsp, rsp_len); cap_now := now |} in
  let run := poll little start (htonl little saddr) (htonl little daddr) in
  wrap64 (now - start) <= timeout ->
  unpacked n p = true ->
  (forall h, In (N_arp h) (nodes p) -> arp_matches saddr daddr h ->
     run (i :: ins) dhost tr
     = (Ret 0, take 6 (hwsrc h) ++ drop 6 dhost, tr ++ [Ev_capture]))
  /\ ((forall h, In (N_arp h) (nodes p) -> ~ arp_matches saddr daddr h) ->
      run (i :: ins) dhost tr = run ins dhost (tr ++ [Ev_capture])).
Proof.
  intros n p i run Hnow Hu.
  destruct (check_reply_unpacked saddr daddr rsp rsp_len Hu) as [Hyes Hno].
  unfold run, i. rewrite !poll_frame by assumption.
  split.
  - intros h Hin Hm. now rewrite (Hyes h Hin Hm).
  - intros Hnone. now rewrite (Hno Hnone).
Qed.

(** When the test lets a frame through, the chain holds a matching
    ARP header and the loop is left with result 0. *)
Lemma check_reply_some saddr daddr rsp rsp_len r m :
  unpacked (fst (pkt_unpack rsp rsp_len)) (snd (pkt_unpack rsp rsp_len))
  = true ->
  check_reply little (htonl little saddr) (htonl little daddr) rsp rsp_len
  = Some (r, m) ->
  exists h,
    In (N_arp h) (nodes (snd (pkt_unpack rsp rsp_len)))
    /\ arp_matches saddr daddr h
    /\ r = Ret 0 /\ m = Some (take 6 (hwsrc h)).
Proof.
  unfold check_reply, unpacked.
  destruct (pkt_unpack rsp rsp_len) as [n p]. simpl.
  intros Hu Hc.
  apply andb_true_iff in Hu as [Hu _].
  apply andb_true_iff in Hu as [Hn _]. apply Z.eqb_eq in Hn.
  destruct (Z.ltb_spec n 2) as [|Hn2]; [discriminate|].
  destruct (nodes p) as [|a [|b c]]; simpl in Hn; try lia; try discriminate.
  destruct b as [|h| | | |]; try discriminate.
  destruct (memcmp_ne (mem32 little (htonl little daddr)) (psrc h) 4)
    eqn:Hsrc; [discriminate|].
  destruct (memcmp_ne (mem32 little (htonl little saddr)) (pdst h) 4)
    eqn:Hdst; [discriminate|].
  apply memcmp_ne_be32 in Hsrc. apply memcmp_ne_be32 in Hdst.
  inversion Hc; subst r m. exists h.
  split; [right; left; reflexivity|]. repeat split; assumption.
Qed.

(** The resolver returns 0 only after a frame, captured within the
    time limit, that holds a matching ARP header; [dhost] then holds
    the sender address of that header. *)
Lemma poll_returns_zero start saddr daddr ins : forall dhost tr d t,
  Forall (fun i =>
            match cap_frame i with
            | None => True
            | Some (rsp, rsp_len) =>
                unpacked (fst (pkt_unpack rsp rsp_len))
                         (snd (pkt_unpack rsp rsp_len)) = true
            end) ins ->
  poll little start (htonl little saddr) (htonl little daddr) ins dhost tr
  = (Ret 0, d, t) ->
  exists i rsp rsp_len h,
    In i ins /\ cap_frame i = Some (rsp, rsp_len)
    /\ wrap64 (cap_now i - start) <= timeout
    /\ In (N_arp h) (nodes (snd (pkt_unpack rsp rsp_len)))
    /\ arp_matches saddr daddr h
    /\ d = take 6 (hwsrc h) ++ drop 6 dhost.
Proof.
  induction ins as [|i ins IH]; intros dhost tr d t Hu Hp;
    [discriminate|].
  apply Forall_cons in Hu as [Hi Hu]. simpl in Hp.
  assert (Hnext :
    poll little start (htonl little saddr) (htonl little daddr) ins dhost
      (tr ++ [Ev_capture]) = (Ret 0, d, t) ->
    exists i0 rsp rsp_len h,
      In i0 (i :: ins) /\ cap_frame i0 = Some (rsp, rsp_len)
      /\ wrap64 (cap_now i0 - start) <= timeout
      /\ In (N_arp h) (nodes (snd (pkt_unpack rsp rsp_len)))
      /\ arp_matches saddr daddr h
      /\ d = take 6 (hwsrc h) ++ drop 6 dhost).
  { intros Hrest.
    destruct (IH _ _ _ _ Hu Hrest) as (i0 & rsp & len & h & Hin & Hrest').
    exists i0, rsp, len, h. split; [now right | exact Hrest']. }
  destruct (Z.ltb_spec timeout (wrap64 (cap_now i - start))) as [|Hnow];
    [discriminate|].
  destruct (cap_frame i) as [[rsp rsp_len]|] eqn:Hframe; [|auto].
  destruct (check_reply little (htonl little saddr) (htonl little daddr)
              rsp rsp_len) as [[r m]|] eqn:Hc; [|auto].
  destruct (check_reply_some _ _ _ _ _ _ Hi Hc) as (h & Hin & Hm & -> & ->).
  inversion Hp; subst d t.
  exists i, rsp, rsp_len, h. split; [now left|]. repeat split; auto;
    apply Hm.
Qed.

(** The polling loop only captures. *)
Lemma poll_trace start saddr daddr ins : forall dhost tr,
  exists k,
    snd (poll little start saddr daddr ins dhost tr)
    = tr ++ replicate k Ev_capture.
Proof.
  induction ins as [|i ins IH]; intros dhost tr; simpl.
  - exists 0%nat. now rewrite app_nil_r.
  - assert (Hnext : exists k,
              snd (poll little start saddr daddr ins dhost
                     (tr ++ [Ev_capture]))
              = tr ++ replicate k Ev_capture).
    { destruct (IH dhost (tr ++ [Ev_capture])) as [k Hk].
      exists (S k). rewrite Hk, <- app_assoc. reflexivity. }
    destruct (timeout <? wrap64 (cap_now i - start));
      [exists 1%nat; reflexivity|].
    destruct (cap_frame i) as [[rsp rsp_len]|]; [|exact Hnext].
    destruct (check_reply little saddr daddr rsp rsp_len)
      as [[r [mac|]]|]; try (exists 1%nat; reflexivity).
    exact Hnext.
Qed.

(** Turns that bring no reply leave [dhost] alone. *)
Lemma poll_no_reply start saddr daddr ins1 : forall ins dhost tr,
  Forall (no_reply start saddr daddr) ins1 ->
  poll little start (htonl little saddr) (htonl little daddr)
    (ins1 ++ ins) dhost tr
  = poll little start (htonl little saddr) (htonl little daddr)
      ins dhost (tr ++ replicate (length ins1) Ev_capture).
Proof.
  induction ins1 as [|i ins1 IH]; intros ins dhost tr Hq.
  - simpl. now rewrite app_nil_r.
  - apply Forall_cons in Hq as [[Hnow Hi] Hq].
    simpl replicate.
    replace (tr ++ Ev_capture :: replicate (length ins1) Ev_capture)
      with ((tr ++ [Ev_capture]) ++ replicate (length ins1) Ev_capture)
      by (now rewrite <- app_assoc).
    rewrite <- IH by assumption.
    destruct i as [[[rsp rsp_len]|] now]; simpl in Hnow, Hi.
    + destruct Hi as [Hu Hnone]. simpl app.
      rewrite poll_frame by assumption.
      destruct (check_reply_unpacked saddr daddr rsp rsp_len Hu) as [_ Hno].
      now rewrite (Hno Hnone).
    + simpl.
      destruct (Z.ltb_spec timeout (wrap64 (now - start))); [lia|].
      reflexivity.
Qed.

End WithCodec.

End ResolvFacts.

(** ** pktizr.c: start-up *)

Module StartupFacts.

Import Pkt Resolv Pktizr ResolvFacts.

Lemma injects_captures k : injects (replicate k Ev_capture) = 0%nat.
Proof. induction k as [|k IH]; [reflexivity | exact IH]. Qed.

Section WithPlatform.

Context `{PF : Platform} `{CD : Codec}.

(** The option loop never writes [args->gateway_addr]. *)
Lemma option_case_gateway_addr o l l' :
  option_case o l = inr l' ->
  gateway_addr (l_args l') = gateway_addr (l_args l).
Proof.
  destruct o; simpl; try destruct (strtoull optarg) as [v []];
    intros Heq; inversion Heq; reflexivity.
Qed.

Lemma option_loop_gateway_addr os : forall l l',
  option_loop os l = inr l' ->
  gateway_addr (l_args l') = gateway_addr (l_args l).
Proof.
  induction os as [|o os IH]; intros l l' Heq; simpl in Heq.
  - now inversion Heq.
  - destruct (option_case o l) as [|l1] eqn:Ho; [discriminate|].
    rewrite (IH _ _ Heq). exact (option_case_gateway_addr o l l1 Ho).
Qed.

(** C2, as the code has it: with [--gateway-addr A] on the command
    line, the address handed to the ARP resolver as [daddr] is what
    [malloc] left in [args->gateway_addr], whatever [A] is; [A] is
    written to [args->local_addr] and overwritten there by the local
    address. *)
Theorem gateway_option_lost argv1 os args0 l A args :
  option_loop os {| l_args := defaults argv1 args0; l_local_addr := None;
                    l_gateway_addr := None |} = inr l ->
  l_gateway_addr l = Some A ->
  configure l = inr args ->
  gateway_addr args = gateway_addr args0
  /\ exists r,
       routes_get_default = Some r
       /\ Some (local_addr args)
          = match l_local_addr l with
            | Some a => Some (ntohl little_endian (inet_addr a))
            | None => resolve_ifname_to_ip (if_name r)
            end.
Proof.
  intros Hos HA Hcfg.
  apply option_loop_gateway_addr in Hos. simpl in Hos.
  unfold configure in Hcfg.
  destruct (script (l_args l)); [|discriminate].
  destruct routes_get_default as [r|]; [|discriminate].
  destruct (resolve_ifname_to_mac (if_name r)) as [mac|]; [|discriminate].
  rewrite HA in Hcfg. simpl in Hcfg.
  destruct (match l_local_addr l with
            | Some a => Some (ntohl little_endian (inet_addr a))
            | None => resolve_ifname_to_ip (if_name r)
            end) as [a|] eqn:Hlocal; [|discriminate].
  destruct (netdev_open (if_name r)); [|discriminate].
  inversion Hcfg; subst args; simpl. split; [exact Hos|].
  exists r. split; [reflexivity | symmetry; exact Hlocal].
Qed.

(** C7: [resolv_addr_to_mac] injects one frame, the packed request,
    whatever it captures afterwards; when the turns before the first
    one that reads the clock more than 5,000,000 microseconds after
    the start bring no matching reply, it returns -1 and leaves
    [dhost] alone, and [main] ends with a fatal diagnostic. *)
Theorem resolv_timeout start ins1 last ins2 args :
  let shost := local_mac args in
  let saddr := local_addr args in
  let dhost := gateway_mac args in
  let daddr := gateway_addr args in
  let request :=
    pkt_pack (ETH_PKTLEN + ARP_PKTLEN)
      (arp_request little_endian shost (htonl little_endian saddr)
         (htonl little_endian daddr)) in
  0 <= fst request ->
  Forall (no_reply start saddr daddr) ins1 ->
  timeout < wrap64 (cap_now last - start) ->
  (forall ins,
     injects (snd (resolv_addr_to_mac little_endian start ins
                     shost saddr dhost daddr)) = 1%nat
     /\ exists k,
          snd (resolv_addr_to_mac little_endian start ins
                 shost saddr dhost daddr)
          = Ev_inject (snd request) (fst request) :: replicate k Ev_capture)
  /\ resolv_addr_to_mac little_endian start (ins1 ++ last :: ins2)
       shost saddr dhost daddr
     = (Ret (-1), dhost,
        Ev_inject (snd request) (fst request)
        :: replicate (S (length ins1)) Ev_capture)
  /\ resolve_gateway start (ins1 ++ last :: ins2) args
     = Failure "Error resolving local MAC".
Proof.
  intros shost saddr dhost daddr request Hlen Hq Hlast.
  assert (Hrun : forall ins,
            resolv_addr_to_mac little_endian start ins shost saddr dhost daddr
            = poll little_endian start (htonl little_endian saddr)
                (htonl little_endian daddr) ins dhost
                [Ev_inject (snd request) (fst request)]).
  { intros ins. unfold resolv_addr_to_mac. fold request.
    destruct request as [len buf]. simpl in Hlen |- *.
    destruct (Z.ltb_spec len 0); [lia | reflexivity]. }
  assert (Hto : resolv_addr_to_mac little_endian start (ins1 ++ last :: ins2)
                  shost saddr dhost daddr
                = (Ret (-1), dhost,
                   Ev_inject (snd request) (fst request)
                   :: replicate (S (length ins1)) Ev_capture)).
  { rewrite Hrun, poll_no_reply by assumption. simpl poll.
    destruct (Z.ltb_spec timeout (wrap64 (cap_now last - start))); [|lia].
    do 2 f_equal. symmetry. apply replicate_cons_app. }
  split; [|split].
  - intros ins. rewrite Hrun.
    destruct (poll_trace little_endian start (htonl little_endian saddr)
                (htonl little_endian daddr) ins dhost
                [Ev_inject (snd request) (fst request)]) as [k Hk].
    rewrite Hk. split; [|exists k; reflexivity].
    unfold injects. simpl. f_equal. apply injects_captures.
  - exact Hto.
  - unfold resolve_gateway. fold shost saddr dhost daddr.
    rewrite Hto. reflexivity.
Qed.

End WithPlatform.

End StartupFacts.

(** ** pktizr.c: the transmitter and the receiver *)

Module WorkerFacts.

Import Pkt Bucket Script Pktizr.

Section WithWorkers.

Context `{CD : Codec} `{TB : TokenBucket} {L : Type} `{SH : ScriptHost L}.

Variable args : pktizr_args.

(** What [send_pkt] does, by the sign of the result of [pkt_pack]. *)
Lemma send_pkt_cases len pkt s :
  let pkt_len := fst (pkt_pack len pkt) in
  let buf := snd (pkt_pack len pkt) in
  (pkt_len < 0 ->
   send_pkt len pkt s
   = {| send_bucket := send_bucket s; pkt_sent := pkt_sent s;
        pkt_probe := pkt_probe s;
        send_trace := send_trace s ++ [Ev_get_buf; Ev_pkt_free pkt] |})
  /\ (0 <= pkt_len ->
      send_pkt len pkt s
      = {| send_bucket := take_token (send_bucket s);
           pkt_sent := wrap64 (pkt_sent s + 1);
           pkt_probe :=
             if probe pkt then wrap64 (pkt_probe s + 1) else pkt_probe s;
           send_trace :=
             send_trace s
             ++ [Ev_get_buf; Ev_inject buf pkt_len; Ev_pkt_free pkt] |}).
Proof.
  unfold send_pkt. destruct (pkt_pack len pkt) as [pkt_len buf]. simpl.
  split; intros Hsign; zcases.
Qed.

(** C6: a dequeued packet for which [pkt_pack] answers a negative
    value is freed without being injected, and the counters and the
    bucket stay as they are; a packet that packs is injected and
    freed, [pkt_sent] goes up by one, one token is taken from the
    bucket, and [pkt_probe] goes up by one exactly when the packet
    has its probe flag set.  Either way the transmitter stays in its
    inner loop. *)
Theorem send_step_packet i s pkt :
  let pkt_len := fst (pkt_pack (send_len i) pkt) in
  let buf := snd (pkt_pack (send_len i) pkt) in
  send_done i = false ->
  may_send args (send_bucket s) = true ->
  send_node i = Some pkt ->
  let '(pc, s') := send_step args i (Send_inner, s) in
  pc = Send_inner
  /\ (pkt_len < 0 ->
      send_trace s' = send_trace s ++ [Ev_get_buf; Ev_pkt_free pkt]
      /\ injects (send_trace s') = injects (send_trace s)
      /\ pkt_sent s' = pkt_sent s
      /\ pkt_probe s' = pkt_probe s
      /\ send_bucket s' = send_bucket s)
  /\ (0 <= pkt_len ->
      send_trace s'
      = send_trace s ++ [Ev_get_buf; Ev_inject buf pkt_len; Ev_pkt_free pkt]
      /\ injects (send_trace s') = S (injects (send_trace s))
      /\ pkt_sent s' = wrap64 (pkt_sent s + 1)
      /\ tokens (send_bucket s')
         = PrimFloat.sub (tokens (send_bucket s)) 1%float
      /\ pkt_probe s'
         = if probe pkt then wrap64 (pkt_probe s + 1) else pkt_probe s).
Proof.
  intros pkt_len buf Hdone Hmay Hnode. unfold send_step.
  rewrite Hdone, Hmay, Hnode. simpl.
  destruct (send_pkt_cases (send_len i) pkt s) as [Hneg Hpos].
  fold pkt_len buf in Hneg, Hpos.
  split; [reflexivity|]. split; intros Hsign.
  - rewrite (Hneg Hsign). simpl. repeat split.
    unfold injects. rewrite List.filter_app, length_app. simpl. lia.
  - rewrite (Hpos Hsign). simpl. repeat split.
    unfold injects. rewrite List.filter_app, length_app. simpl. lia.
Qed.

(** [pkt_sent] counts the frames injected (modulo 2^64), over any
    run of the transmitter. *)
Lemma send_step_counts i st :
  pkt_sent (snd st) = wrap64 (Z.of_nat (injects (send_trace (snd st)))) ->
  pkt_sent (snd (send_step args i st))
  = wrap64 (Z.of_nat (injects (send_trace (snd (send_step args i st))))).
Proof.
  destruct st as [pc s]. simpl. intros Hinv. unfold send_step.
  destruct pc; try exact Hinv.
  - destruct (send_done i); exact Hinv.
  - destruct (negb (send_done i) && may_send args (send_bucket s));
      [|exact Hinv].
    destruct (send_node i) as [pkt|]; [|exact Hinv].
    simpl. unfold send_pkt.
    destruct (pkt_pack (send_len i) pkt) as [pkt_len buf].
    destruct (pkt_len <? 0); simpl; unfold injects in *;
      rewrite List.filter_app, length_app; simpl.
    + rewrite Nat.add_0_r. exact Hinv.
    + rewrite Hinv. unfold wrap64.
      rewrite Z.add_mod_idemp_l by lia. f_equal. lia.
Qed.

Lemma send_cb_counts ins :
  pkt_sent (snd (send_cb args ins))
  = wrap64 (Z.of_nat (injects (send_trace (snd (send_cb args ins))))).
Proof.
  unfold send_cb.
  induction ins as [|i ins IH] using rev_ind; [reflexivity|].
  rewrite fold_left_app. simpl. now apply send_step_counts.
Qed.

(** C4, as the code has it: a captured frame for which [pkt_unpack]
    answers zero layers is released without an upcall to the script's
    [recv] and without a change to [pkt_recv]. *)
Theorem recv_step_no_layers i s buf len :
  recv_done i = false ->
  recv_frame i = Some (buf, len) ->
  fst (pkt_unpack buf len) = 0 ->
  recv_step i s
  = (Running,
     {| recv_L := recv_L s; pkt_recv := pkt_recv s;
        recv_trace := recv_trace s ++ [Ev_capture; Ev_release] |}).
Proof.
  intros Hdone Hframe Hrc. unfold recv_step.
  rewrite Hdone, Hframe.
  destruct (pkt_unpack buf len) as [rc pkt]. simpl in Hrc. subst rc.
  reflexivity.
Qed.

(** A frame with any other answer of [pkt_unpack] goes to the
    script. *)
Lemma recv_step_upcall i s buf len :
  recv_done i = false ->
  recv_frame i = Some (buf, len) ->
  fst (pkt_unpack buf len) <> 0 ->
  let pkt := snd (pkt_unpack buf len) in
  let rc := fst (script_recv (recv_L s) pkt) in
  recv_step i s
  = (Running,
     {| recv_L := snd (script_recv (recv_L s) pkt);
        pkt_recv := if rc <? 0 then pkt_recv s else wrap64 (pkt_recv s + 1);
        recv_trace :=
          recv_trace s
          ++ [Ev_capture; Ev_script_recv pkt; Ev_pkt_free pkt; Ev_release] |}).
Proof.
  intros Hdone Hframe Hrc. unfold recv_step.
  rewrite Hdone, Hframe.
  destruct (pkt_unpack buf len) as [rc pkt]. simpl in Hrc |- *.
  destruct (Z.eqb_spec rc 0); [contradiction|].
  destruct (script_recv (recv_L s) pkt) as [rc' L']. reflexivity.
Qed.

End WithWorkers.

End WorkerFacts.

(** ** pktizr.c: shutdown *)

Module ThreadFacts.

Import Pkt Bucket Script Pktizr Threads.

Section WithWorkers.

Context `{CD : Codec} `{TB : TokenBucket} {L : Type} `{SH : ScriptHost L}.

Variable args : pktizr_args.

(** The transmitter leaves its function only when it reads [done]
    set. *)
Lemma send_step_exit i st :
  fst (send_step args i st) = Send_exit ->
  fst st = Send_exit \/ send_done i = true.
Proof.
  destruct st as [pc s]. unfold send_step. destruct pc; simpl.
  - destruct (send_done i); simpl; [now right | discriminate].
  - destruct (negb (send_done i) && may_send args (send_bucket s));
      [destruct (send_node i)|]; discriminate.
  - now left.
Qed.

Lemma send_step_stays i s :
  fst (send_step args i (Send_exit, s)) = Send_exit.
Proof. reflexivity. Qed.

(** The receiver leaves its function only when it reads [done] set. *)
Lemma recv_step_exit i (s : recv_state (L := L)) :
  fst (recv_step i s) = Exited -> recv_done i = true.
Proof.
  unfold recv_step. destruct (recv_done i); [reflexivity|].
  destruct (recv_frame i) as [[buf len]|]; [|discriminate].
  destruct (pkt_unpack buf len) as [rc pkt].
  destruct (rc =? 0); [discriminate|].
  destruct (script_recv (recv_L s) pkt). discriminate.
Qed.

Lemma invariant_init : invariant (sys_init args).
Proof. unfold invariant. simpl. repeat split; try discriminate.
  intros [|]; discriminate. Qed.

Lemma invariant_step s s' : invariant s -> step args s s' -> invariant s'.
Proof.
  intros (Hd & Hl & Hr & Hs & Hrd & Hsd) Hstep.
  destruct Hstep as [s Hm|s Hm Hj|s Hm|s Hm Hj|s Hm Hj|s i Hrun
                    |s i Hdone|s i Hrun Hdone];
    unfold invariant; simpl in *; try rewrite Hm in *; simpl in *.
  - repeat split; auto; try discriminate. intros [|]; discriminate.
  - repeat split; auto; try discriminate. intros [|]; discriminate.
  - repeat split; auto; try discriminate.
    + intros [|]; discriminate.
  - repeat split; auto; try discriminate.
  - repeat split; auto; try discriminate.
  - repeat split; auto.
    intros Hj. specialize (Hl Hj). congruence.
  - repeat split; auto.
    + intros Hc. specialize (Hs Hc).
      destruct (sys_send s) as [pc st]. simpl in Hs. subst pc.
      reflexivity.
    + intros Hex. apply send_step_exit in Hex as [Hex|Hex]; [auto|].
      congruence.
  - repeat split; auto.
    + intros Hc. specialize (Hr Hc). congruence.
    + intros Hex. apply recv_step_exit in Hex. congruence.
Qed.

Lemma invariant_reachable s : reachable args s -> invariant s.
Proof.
  induction 1 as [|s s' _ IH Hstep]; [apply invariant_init|].
  exact (invariant_step s s' IH Hstep).
Qed.

(** C8: in every state the program can reach, [args->done] is set
    exactly when [main] is past line 231, which it reaches only after
    the join of the generator; a worker that has left its loop, and a
    join of the receiver or the transmitter that went through, come
    after [done] was set.  The receiver tests [done] at the top of
    each turn and the transmitter at the top of each turn of both of
    its loops: once they read it set, the receiver leaves at that
    test and the transmitter leaves its inner loop without taking a
    packet and leaves its outer loop at the next test. *)
Theorem shutdown_order s :
  reachable args s ->
  (sys_done s = true <-> done_set (sys_main s) = true)
  /\ (sys_done s = true ->
      loop_joined (sys_main s) = true /\ fst (sys_loop s) = Exited)
  /\ (fst (sys_recv s) = Exited \/ fst (sys_send s) = Send_exit ->
      sys_done s = true)
  /\ (sys_main s = M_join_send \/ sys_main s = M_close ->
      sys_done s = true /\ fst (sys_recv s) = Exited)
  /\ (sys_main s = M_close -> fst (sys_send s) = Send_exit)
  /\ (forall (i : recv_in) (r : recv_state (L := L)),
        recv_done i = true ->
        recv_step i r
        = (Exited,
           {| recv_L := recv_L r; pkt_recv := pkt_recv r;
              recv_trace := recv_trace r ++ [Ev_script_close] |}))
  /\ (forall i t,
        send_done i = true ->
        send_step args i (Send_outer, t) = (Send_exit, t)
        /\ send_step args i (Send_inner, t) = (Send_outer, t)).
Proof.
  intros Hreach.
  destruct (invariant_reachable s Hreach) as (Hd & Hl & Hr & Hs & Hrd & Hsd).
  split; [split; congruence|].
  split.
  { intros Hdn. rewrite Hd in Hdn.
    assert (Hj : loop_joined (sys_main s) = true)
      by (destruct (sys_main s); simpl in *; congruence).
    split; [exact Hj | exact (Hl Hj)]. }
  split; [intros [Hx|Hx]; auto|].
  split.
  { intros Hx. split; [|exact (Hr Hx)].
    rewrite Hd. destruct Hx as [-> | ->]; reflexivity. }
  split; [exact Hs|].
  split.
  { intros i r Hdone. unfold recv_step. now rewrite Hdone. }
  intros i t Hdone. unfold send_step. rewrite Hdone. split; reflexivity.
Qed.

End WithWorkers.

End ThreadFacts.

(** ** The properties at work on concrete runs *)

Module Runs.

Import Pkt Bucket Script Ranges Resolv Pktizr Threads Doubles.
Import LPack LPackFacts GeneratorFacts ResolvFacts StartupFacts WorkerFacts.
Import ThreadFacts.

#[local] Existing Instance idle_bucket.
#[local] Existing Instance eth_arp_codec.
#[local] Existing Instance test_platform.

(** C10 at work: -2 as a signed 4-byte big-endian field of a 64-bit
    Lua integer. *)
Lemma packint_unpackint_roundtrip_witness :
  unpackint 8 (packint 8 [0; 0; 0; 0] (to_unsigned 8 (-2)) false 4 true)
            false 4 true = Some (-2).
Proof.
  apply (packint_unpackint_roundtrip 8); try reflexivity;
    unfold representable; vm_compute; split; congruence.
Defined.

(** C5 at work: turn 2 of the second scenario of the spec. *)
Lemma loop_cb_picks_witness :
  (0 <= 3 * 2 -> 0 <= 3 * 2 * 2 < 2 ^ 64 -> tot_cnt scenario2 = 3 * 2 * 2)
  /\ tuples (loop_trace (snd (loop_cb (SH := counting_script) scenario2
                               (replicate 12 (go 0))))) !! 2%nat
     = Some (uint32 (range_list_pick (targets scenario2) ((2 mod 3) / 2)),
             uint16 (range_list_pick (ports scenario2) ((2 / 3) / 2))).
Proof.
  apply (loop_cb_picks (TB := idle_bucket) (SH := counting_script)
           scenario2 (replicate 12 (go 0)) 2).
  - vm_compute. reflexivity.
  - simpl. lia.
  - simpl. repeat constructor.
Defined.

(** C9 at work: a script that refuses its first tuple. *)
Lemma loop_step_skip_witness :
  let '(c, s') :=
    loop_step (TB := idle_bucket) (SH := refusing_script) scenario2 (go 7)
      (loop_init (SH := refusing_script) scenario2) in
  c = Running
  /\ loop_i s' = 0 + 1
  /\ (-1 < 0 -> loop_bucket s' = bucket_consume (bucket_init 0) 7)
  /\ (0 <= -1 ->
      loop_bucket s' = take_token (bucket_consume (bucket_init 0) 7)).
Proof.
  apply (loop_step_skip (SH := refusing_script) scenario2 (go 7)
           (loop_init (SH := refusing_script) scenario2) (-1) 1).
  - vm_compute. split; [congruence | reflexivity].
  - reflexivity.
  - reflexivity.
Defined.

(** C1, on the second end-to-end scenario of the spec (three targets,
    two ports, two probes per tuple): the generator makes its twelve
    upcalls, but the third target, 10.0.0.3, is never handed to the
    script, while (10.0.0.1, 22) is handed to it four times and its
    probes are not consecutive. *)
Theorem loop_cb_scenario2 :
  let run :=
    tuples (loop_trace (snd (loop_cb (TB := idle_bucket)
                               (SH := counting_script)
                               scenario2 (replicate 13 (go 0))))) in
  range_list_count (targets scenario2) = 3
  /\ range_list_count (ports scenario2) = 2
  /\ range_list_pick (targets scenario2) 2 = 167772163
  /\ run = [(167772161, 22); (167772161, 22); (167772162, 22);
            (167772161, 22); (167772161, 22); (167772162, 22);
            (167772161, 80); (167772161, 80); (167772162, 80);
            (167772161, 80); (167772161, 80); (167772162, 80)]
  /\ occurrences (167772163, 22) run = 0%nat
  /\ occurrences (167772161, 22) run = 4%nat.
Proof. vm_compute. repeat split; reflexivity. Qed.

(** C2 at work: the address of the command line is 10.0.0.254, the
    resolver is given 0.0.0.0. *)
Lemma gateway_option_lost_witness :
  let l := {| l_args := set_script (Some "probe.lua"%string)
                          (defaults "10.0.0.9" zeroed_args);
              l_local_addr := None;
              l_gateway_addr := Some "10.0.0.254"%string |} in
  let args :=
    set_local_addr 167772162
      (set_local_mac [2; 0; 0; 0; 0; 2]
         (set_local_addr (ntohl little_endian (inet_addr "10.0.0.254"))
            (l_args l))) in
  gateway_addr args = gateway_addr zeroed_args
  /\ exists r,
       routes_get_default = Some r
       /\ Some (local_addr args)
          = match l_local_addr l with
            | Some a => Some (ntohl little_endian (inet_addr a))
            | None => resolve_ifname_to_ip (if_name r)
            end.
Proof.
  intros l args.
  apply (gateway_option_lost "10.0.0.9" with_gateway zeroed_args l
           "10.0.0.254" args); reflexivity.
Defined.

(** The same command line run through [main]: the reply of 10.0.0.254
    is not accepted, since the request went out for 0.0.0.0, and
    start-up ends on the timeout. *)
Lemma main_with_gateway_option :
  ntohl little_endian (inet_addr "10.0.0.254") = 167772414
  /\ main 5 "10.0.0.9" with_gateway zeroed_args 0
       [{| cap_frame :=
             Some (arp_reply [2; 0; 0; 0; 0; 254] 167772414 167772162
                     [2; 0; 0; 0; 0; 2], 42);
           cap_now := 1000 |};
        {| cap_frame := None; cap_now := 5000001 |}]
     = Failure "Error resolving local MAC".
Proof. vm_compute. split; reflexivity. Qed.

(** Without the option the gateway of the default route answers and
    start-up goes through. *)
Lemma main_without_gateway_option :
  exists args tr,
    main 5 "10.0.0.9" [Opt_S "probe.lua"] zeroed_args 0
      [{| cap_frame :=
            Some (arp_reply [2; 0; 0; 0; 0; 1] 167772161 167772162
                    [2; 0; 0; 0; 0; 2], 42);
          cap_now := 1000 |}]
    = Ready args tr
    /\ gateway_addr args = 167772161
    /\ gateway_mac args = [2; 0; 0; 0; 0; 1]
    /\ injects tr = 1%nat.
Proof. do 2 eexists. vm_compute. repeat split; reflexivity. Qed.

(** C3 at work: the reply of the gateway, captured one millisecond
    after the start. *)
Lemma poll_reply_witness :
  let n := fst (pkt_unpack gateway_reply 42) in
  let p := snd (pkt_unpack gateway_reply 42) in
  let i := {| cap_frame := Some (gateway_reply, 42); cap_now := 1000 |} in
  let run := poll true 0 (htonl true 167772162) (htonl true 167772161) in
  (forall h, In (N_arp h) (nodes p) -> arp_matches 167772162 167772161 h ->
     run (i :: []) [0; 0; 0; 0; 0; 0] []
     = (Ret 0, take 6 (hwsrc h) ++ drop 6 [0; 0; 0; 0; 0; 0],
        [] ++ [Ev_capture]))
  /\ ((forall h, In (N_arp h) (nodes p) ->
         ~ arp_matches 167772162 167772161 h) ->
      run (i :: []) [0; 0; 0; 0; 0; 0] []
      = run [] [0; 0; 0; 0; 0; 0] ([] ++ [Ev_capture])).
Proof.
  apply (poll_reply true 0 167772162 167772161 gateway_reply 42 1000).
  - vm_compute. congruence.
  - reflexivity.
Defined.

(** C7 at work: nothing arrives, and the clock passes five seconds. *)
Lemma resolv_timeout_witness :
  let ins1 := [{| cap_frame := None; cap_now := 2500000 |}] in
  let last := {| cap_frame := None; cap_now := 5000001 |} in
  let request :=
    pkt_pack (ETH_PKTLEN + ARP_PKTLEN)
      (arp_request little_endian (local_mac configured)
         (htonl little_endian (local_addr configured))
         (htonl little_endian (gateway_addr configured))) in
  (forall ins,
     injects (snd (resolv_addr_to_mac little_endian 0 ins
                     (local_mac configured) (local_addr configured)
                     (gateway_mac configured) (gateway_addr configured)))
     = 1%nat
     /\ exists k,
          snd (resolv_addr_to_mac little_endian 0 ins
                 (local_mac configured) (local_addr configured)
                 (gateway_mac configured) (gateway_addr configured))
          = Ev_inject (snd request) (fst request) :: replicate k Ev_capture)
  /\ resolv_addr_to_mac little_endian 0 (ins1 ++ last :: [])
       (local_mac configured) (local_addr configured)
       (gateway_mac configured) (gateway_addr configured)
     = (Ret (-1), gateway_mac configured,
        Ev_inject (snd request) (fst request)
        :: replicate (S (length ins1)) Ev_capture)
  /\ resolve_gateway 0 (ins1 ++ last :: []) configured
     = Failure "Error resolving local MAC".
Proof.
  intros ins1 last request.
  apply (resolv_timeout 0 ins1 last [] configured).
  - vm_compute. congruence.
  - repeat constructor. vm_compute. congruence.
  - vm_compute. reflexivity.
Defined.

(** C6 at work: a probe that packs. *)
Lemma send_step_packet_witness :
  let i := {| send_done := false; send_now := 0; send_node := Some probe_pkt;
              send_len := 1500 |} in
  let s := send_init scenario2 in
  let pkt_len := fst (pkt_pack (send_len i) probe_pkt) in
  let buf := snd (pkt_pack (send_len i) probe_pkt) in
  let '(pc, s') := send_step scenario2 i (Send_inner, s) in
  pc = Send_inner
  /\ (pkt_len < 0 ->
      send_trace s' = send_trace s ++ [Ev_get_buf; Ev_pkt_free probe_pkt]
      /\ injects (send_trace s') = injects (send_trace s)
      /\ pkt_sent s' = pkt_sent s
      /\ pkt_probe s' = pkt_probe s
      /\ send_bucket s' = send_bucket s)
  /\ (0 <= pkt_len ->
      send_trace s'
      = send_trace s
        ++ [Ev_get_buf; Ev_inject buf pkt_len; Ev_pkt_free probe_pkt]
      /\ injects (send_trace s') = S (injects (send_trace s))
      /\ pkt_sent s' = wrap64 (pkt_sent s + 1)
      /\ tokens (send_bucket s')
         = PrimFloat.sub (tokens (send_bucket s)) 1%float
      /\ pkt_probe s'
         = if probe probe_pkt then wrap64 (pkt_probe s + 1) else pkt_probe s).
Proof.
  intros i s.
  apply (send_step_packet scenario2 i s probe_pkt); reflexivity.
Defined.

(** The same probe handed a buffer too short for it, then with room:
    one frame goes out, and the counters show one packet, a probe. *)
Lemma send_cb_short_buffer :
  let short := {| send_done := false; send_now := 0;
                  send_node := Some probe_pkt; send_len := 20 |} in
  let room := {| send_done := false; send_now := 0;
                 send_node := Some probe_pkt; send_len := 1500 |} in
  let s := snd (send_cb scenario2 [room; short; room]) in
  pkt_sent s = 1 /\ pkt_probe s = 1 /\ injects (send_trace s) = 1%nat
  /\ tokens (send_bucket s) = (-1)%float
  /\ send_trace s
     = [Ev_get_buf; Ev_pkt_free probe_pkt;
        Ev_get_buf; Ev_inject (snd (pkt_pack 1500 probe_pkt)) 42;
        Ev_pkt_free probe_pkt].
Proof. vm_compute. repeat split; reflexivity. Qed.

(** C4 as stated fails: [pkt_unpack] answers one layer, fewer than
    two, and yet the script's [recv] is called with the chain and
    [pkt_recv] goes from 0 to 1. *)
Lemma recv_step_one_layer :
  let i := {| recv_done := false; recv_frame := Some (one_layer_frame, 14) |} in
  let s := recv_init (SH := counting_script) in
  let s' := snd (recv_step (SH := counting_script) i s) in
  ~ (fst (pkt_unpack one_layer_frame 14) < 2 ->
     pkt_recv s' = pkt_recv s
     /\ forall p, ~ In (Ev_script_recv p) (recv_trace s')).
Proof.
  intros i s s' Hdrop.
  assert (Hlt : fst (pkt_unpack one_layer_frame 14) < 2)
    by (vm_compute; reflexivity).
  destruct (Hdrop Hlt) as [Hcount _]. vm_compute in Hcount. discriminate.
Qed.

(** C4 as amended, at work: a frame too short for an Ethernet
    header. *)
Lemma recv_step_no_layers_witness :
  let i := {| recv_done := false; recv_frame := Some ([2; 0; 0], 3) |} in
  let s := recv_init (SH := counting_script) in
  recv_step (SH := counting_script) i s
  = (Running,
     {| recv_L := recv_L s; pkt_recv := pkt_recv s;
        recv_trace := recv_trace s ++ [Ev_capture; Ev_release] |}).
Proof.
  intros i s.
  apply (recv_step_no_layers (SH := counting_script) i s [2; 0; 0] 3);
    reflexivity.
Defined.

(** C8 at work: a run of the four threads to the end of [main]. *)
Lemma shutdown_order_witness :
  exists s : sys (L := Z),
    sys_main s = M_close
    /\ (sys_done s = true <-> done_set (sys_main s) = true)
    /\ (sys_done s = true ->
        loop_joined (sys_main s) = true /\ fst (sys_loop s) = Exited)
    /\ (fst (sys_recv s) = Exited \/ fst (sys_send s) = Send_exit ->
        sys_done s = true)
    /\ (sys_main s = M_join_send \/ sys_main s = M_close ->
        sys_done s = true /\ fst (sys_recv s) = Exited)
    /\ (sys_main s = M_close -> fst (sys_send s) = Send_exit)
    /\ (forall (i : recv_in) (r : recv_state (L := Z)),
          recv_done i = true ->
          recv_step (SH := counting_script) i r
          = (Exited,
             {| recv_L := recv_L r; pkt_recv := pkt_recv r;
                recv_trace := recv_trace r ++ [Ev_script_close] |}))
    /\ (forall i t,
          send_done i = true ->
          send_step scenario2 i (Send_outer, t) = (Send_exit, t)
          /\ send_step scenario2 i (Send_inner, t) = (Send_outer, t)).
Proof.
  pose proof (reach_init (SH := counting_script) scenario2) as R.
  advance R ltac:(apply step_status; reflexivity).
  advance R ltac:(apply (step_loop _ _ {| loop_stop := true; loop_now := 0 |});
                  reflexivity).
  advance R ltac:(apply step_join_loop; reflexivity).
  advance R ltac:(apply step_set_done; reflexivity).
  advance R ltac:(apply (step_recv _ _ {| recv_done := true;
                                          recv_frame := None |});
                  reflexivity).
  advance R ltac:(apply step_join_recv; reflexivity).
  advance R ltac:(apply (step_send _ _ {| send_done := true; send_now := 0;
                                          send_node := None; send_len := 0 |});
                  reflexivity).
  advance R ltac:(apply step_join_send; reflexivity).
  match type of R with reachable _ ?s => exists s end.
  split; [reflexivity|].
  exact (shutdown_order scenario2 _ R).
Defined.

End Runs.

(** ** lpack.c: fields of any size, and the way back *)

Module LPackFields.

Import LPack LPackFacts LPackOptions.

(** Byte [j] of a value only depends on the value modulo a power of
    256 above [j]. *)
Lemma byte_of_mod x m j :
  0 <= j < m -> byte_of (x mod 2 ^ (8 * m)) j = byte_of x j.
Proof.
  intros Hj. rewrite !byte_of_div by lia.
  replace (8 * m) with (8 * j + 8 * (m - j)) by lia.
  rewrite Z.pow_add_r by lia.
  rewrite Z.rem_mul_r by lia.
  rewrite (Z.add_comm (x mod _)), (Z.mul_comm (2 ^ (8 * j))), Z.div_add_l
    by lia.
  rewrite (Z.div_small (x mod 2 ^ (8 * j))) by (apply Z.mod_pos_bound; lia).
  rewrite Z.add_0_r.
  replace (8 * (m - j)) with (8 + 8 * (m - j - 1)) by lia.
  rewrite Z.pow_add_r by lia. change (2 ^ 8) with 256.
  rewrite Z.rem_mul_r by lia.
  rewrite (Z.mul_comm 256), Z.mod_add by lia.
  apply Z.mod_mod. lia.
Qed.

(** A value below [256 ^ m] has no byte at [m] or above. *)
Lemma byte_of_high x m j :
  0 <= m <= j -> 0 <= x < 2 ^ (8 * m) -> byte_of x j = 0.
Proof.
  intros Hj Hx. rewrite byte_of_div by lia.
  rewrite Z.div_small; [reflexivity|].
  split; [lia|]. apply Z.lt_le_trans with (2 ^ (8 * m)); [lia|].
  apply Z.pow_le_mono_r; lia.
Qed.

Lemma le_value_range l :
  Forall (fun b => 0 <= b < 256) l ->
  0 <= le_value l < 2 ^ (8 * Z.of_nat (length l)).
Proof.
  induction 1 as [|b l Hb _ IH]; simpl le_value; simpl length.
  - simpl. lia.
  - replace (8 * Z.of_nat (S (length l)))
      with (8 + 8 * Z.of_nat (length l)) by lia.
    rewrite Z.pow_add_r by lia. change (2 ^ 8) with 256. lia.
Qed.

(** The bytes of [le_value l] are the elements of [l]. *)
Lemma byte_of_le_value l : forall j b,
  Forall (fun b => 0 <= b < 256) l ->
  l !! j = Some b -> byte_of (le_value l) (Z.of_nat j) = b.
Proof.
  induction l as [|a l IH]; intros j b Hl Hj; [discriminate|].
  apply Forall_cons in Hl as [Ha Hl].
  assert (Hr := le_value_range l Hl).
  simpl le_value. rewrite byte_of_div by lia.
  destruct j as [|j]; simpl in Hj.
  - inversion Hj; subst a. simpl. rewrite Z.div_1_r.
    rewrite (Z.mul_comm 256), Z.mod_add by lia.
    apply Z.mod_small. lia.
  - replace (8 * Z.of_nat (S j)) with (8 + 8 * Z.of_nat j) by lia.
    rewrite Z.pow_add_r by lia. change (2 ^ 8) with 256.
    rewrite <- Z.div_div by lia.
    rewrite (Z.mul_comm 256), Z.div_add by lia.
    rewrite (Z.div_small a) by lia. rewrite Z.add_0_l.
    rewrite <- byte_of_div by lia. now apply IH.
Qed.

Lemma le_value_snoc l b :
  le_value (l ++ [b]) = le_value l + 2 ^ (8 * Z.of_nat (length l)) * b.
Proof.
  induction l as [|a l IH]; simpl le_value; simpl length.
  - simpl. lia.
  - rewrite IH.
    replace (8 * Z.of_nat (S (length l)))
      with (8 + 8 * Z.of_nat (length l)) by lia.
    rewrite Z.pow_add_r by lia. change (2 ^ 8) with 256. ring.
Qed.

Section WithLuaInteger.

Variable SZINT : Z.
Hypothesis SZINT_pos : 0 < SZINT.

Lemma to_unsigned_range x : 0 <= to_unsigned SZINT x < 2 ^ (NB * SZINT).
Proof.
unfold to_unsigned. apply Z.mod_pos_bound.
apply Z.pow_pos_nonneg; unfold NB; lia.
Qed.

Lemma to_integer_range x :
- 2 ^ (NB * SZINT - 1) <= to_integer SZINT x < 2 ^ (NB * SZINT - 1).
Proof.
unfold to_integer. assert (Hu := to_unsigned_range x).
assert (H2 := pow2_double (NB * SZINT) ltac:(unfold NB; lia)).
destruct (Z.ltb_spec (to_unsigned SZINT x) (2 ^ (NB * SZINT - 1))); lia.
Qed.

Lemma to_unsigned_to_integer x :
to_unsigned SZINT (to_integer SZINT x) = to_unsigned SZINT x.
Proof.
unfold to_integer. assert (Hu := to_unsigned_range x).
destruct (Z.ltb_spec (to_unsigned SZINT x) (2 ^ (NB * SZINT - 1))).
- unfold to_unsigned. apply Z.mod_mod. apply Z.pow_nonzero; unfold NB; lia.
- unfold to_unsigned.
  rewrite <- (Z.mod_add _ 1) by (apply Z.pow_nonzero; unfold NB; lia).
  replace (x mod 2 ^ (NB * SZINT) - 2 ^ (NB * SZINT)
           + 1 * 2 ^ (NB * SZINT)) with (x mod 2 ^ (NB * SZINT)) by lia.
  apply Z.mod_mod. apply Z.pow_nonzero; unfold NB; lia.
Qed.

Lemma to_integer_small x :
0 <= x < 2 ^ (NB * SZINT - 1) -> to_integer SZINT x = x.
Proof.
intros Hx. unfold to_integer, to_unsigned.
assert (H2 := pow2_double (NB * SZINT) ltac:(unfold NB; lia)).
rewrite Z.mod_small by lia.
destruct (Z.ltb_spec x (2 ^ (NB * SZINT - 1))); lia.
Qed.

Lemma packint_extend_lookup e size k : forall i buff j,
0 <= i -> i + Z.of_nat k <= size ->
length buff = Z.to_nat size ->
0 <= j < size ->
packint_extend k i e size buff !! pos e size j =
  if (i <=? j) && (j <? i + Z.of_nat k) then Some MC
  else buff !! pos e size j.
Proof.
induction k as [|k IH]; intros i buff j Hi Hk Hlen Hj; simpl packint_extend.
- zcases.
- rewrite IH by (try rewrite length_insert; lia).
  destruct (Z.eq_dec j i) as [->|Hne].
  + rewrite list_lookup_insert_eq by (rewrite Hlen; apply pos_lt; lia).
    zcases.
  + rewrite list_lookup_insert_ne
      by (intros Heq; apply pos_inj in Heq; lia).
    zcases.
Qed.

Lemma length_packint_bytes e size k : forall i n buff,
length (packint_bytes k i n e size buff) = length buff.
Proof.
induction k as [|k IH]; intros i n buff; simpl; [reflexivity|].
now rewrite IH, length_insert.
Qed.

Lemma length_packint_extend e size k : forall i buff,
length (packint_extend k i e size buff) = length buff.
Proof.
induction k as [|k IH]; intros i buff; simpl; [reflexivity|].
now rewrite IH, length_insert.
Qed.

Lemma length_packint buff n e size neg :
length (packint SZINT buff n e size neg) = length buff.
Proof.
unfold packint.
destruct (neg && (SZINT <? size));
  rewrite ?length_packint_extend, length_packint_bytes, length_insert;
  reflexivity.
Qed.

(** The cell of significance [j] after [packint], for a field of any
  size: byte [j] of [n], or the sign byte in the cells that a
  negative number gets beyond the size of a Lua integer. *)
Lemma packint_cell buff n e size neg j :
1 <= size ->
length buff = Z.to_nat size ->
0 <= j < size ->
packint SZINT buff n e size neg !! pos e size j
= Some (if neg && (SZINT <? size) && (SZINT <=? j) then MC
        else byte_of n j).
Proof.
intros Hs Hlen Hj. unfold packint.
assert (Hlow :
  packint_bytes (Z.to_nat (size - 1)) 1 n e size
    (<[pos e size 0 := Z.land n MC]> buff) !! pos e size j
  = Some (byte_of n j)).
{ rewrite packint_bytes_lookup by (try rewrite length_insert; lia).
  unfold byte_of.
  destruct (Z.eq_dec j 0) as [->|Hne].
  - rewrite list_lookup_insert_eq by (rewrite Hlen; apply pos_lt; lia).
    zcases.
  - zcases. do 2 f_equal. f_equal. unfold NB. lia. }
destruct neg; simpl andb; [|exact Hlow].
destruct (Z.ltb_spec SZINT size) as [Hwide|]; simpl andb; [|exact Hlow].
rewrite packint_extend_lookup
  by (try rewrite length_packint_bytes, length_insert; lia).
rewrite Hlow. zcases.
Qed.

(** Two fields of [size] bytes are the same when their cells of every
  significance are. *)
Lemma field_eq e size (a b : list Z) :
length a = Z.to_nat size -> length b = Z.to_nat size ->
(forall j, 0 <= j < size -> a !! pos e size j = b !! pos e size j) ->
a = b.
Proof.
intros Ha Hb Hcells. apply list_eq. intros i.
destruct (Nat.lt_ge_cases i (Z.to_nat size)) as [Hi|Hi].
- set (j := if e then Z.of_nat i else size - 1 - Z.of_nat i).
  assert (Hj : 0 <= j < size) by (unfold j; destruct e; lia).
  assert (Hp : pos e size j = i) by (unfold pos, j; destruct e; lia).
  rewrite <- Hp. now apply Hcells.
- rewrite !lookup_ge_None_2 by lia. reflexivity.
Qed.

(** The cell of significance [j] of a field, read as [unpackint]
  reads it. *)
Lemma byte_at_field e size str j :
length str = Z.to_nat size -> 0 <= j < size ->
field_bytes e str !! Z.to_nat j = Some (byte_at str (pos e size j))
/\ str !! pos e size j = Some (byte_at str (pos e size j)).
Proof.
intros Hlen Hj.
assert (Hp := pos_lt e size j Hj).
destruct (lookup_lt_is_Some_2 str (pos e size j)) as [b Hb]; [lia|].
unfold byte_at. rewrite Hb. simpl. split; [|reflexivity].
unfold field_bytes. destruct e; [exact Hb|].
rewrite reverse_lookup by lia. rewrite <- Hb. f_equal.
unfold pos. lia.
Qed.

(** The read loop of [unpackint] over the [k] least significant
  cells of a field. *)
Lemma unpackint_bytes_field str e size k : forall res,
length str = Z.to_nat size ->
Forall (fun b => 0 <= b < 256) str ->
Z.of_nat k <= size -> Z.of_nat k <= SZINT ->
0 <= res < 2 ^ (8 * (SZINT - Z.of_nat k)) ->
unpackint_bytes SZINT k str e size res
= res * 2 ^ (8 * Z.of_nat k) + le_value (take k (field_bytes e str)).
Proof.
intros res Hlen Hbytes. revert res.
assert (Hfb : Forall (fun b => 0 <= b < 256) (field_bytes e str))
  by (unfold field_bytes; destruct e;
      [assumption | now apply Forall_reverse]).
induction k as [|k IH]; intros res Hks HkS Hres; simpl unpackint_bytes.
- simpl. lia.
- destruct (byte_at_field e size str (Z.of_nat k) Hlen ltac:(lia))
    as [Hf _].
  rewrite Nat2Z.id in Hf.
  assert (Hb : 0 <= byte_at str (pos e size (Z.of_nat k)) < 256).
  { rewrite Forall_lookup in Hfb. exact (Hfb _ _ Hf). }
  assert (Hpow : 2 ^ (8 * (SZINT - Z.of_nat k))
                 = 2 ^ (8 * (SZINT - Z.of_nat (S k))) * 256).
  { replace (8 * (SZINT - Z.of_nat k))
      with (8 * (SZINT - Z.of_nat (S k)) + 8) by lia.
    rewrite Z.pow_add_r by lia. reflexivity. }
  assert (Hle : 2 ^ (8 * (SZINT - Z.of_nat k)) <= 2 ^ (NB * SZINT)).
  { apply Z.pow_le_mono_r; unfold NB; lia. }
  unfold to_unsigned.
  assert (Hsh : Z.shiftl res NB = res * 256)
    by (rewrite Z.shiftl_mul_pow2; unfold NB; lia).
  rewrite Z.mod_small by (rewrite Hsh; nia).
  change NB with 8. rewrite lor_shiftl_byte by lia.
  rewrite IH by (try lia; nia).
  rewrite (take_S_r _ _ _ Hf), le_value_snoc.
  rewrite length_take_le
    by (unfold field_bytes; destruct e; rewrite ?length_reverse; lia).
  replace (8 * Z.of_nat (S k)) with (8 * Z.of_nat k + 8) by lia.
  rewrite Z.pow_add_r by lia. change (2 ^ 8) with 256. ring.
Qed.

Lemma unpackint_check_true e size str mask k : forall i,
length str = Z.to_nat size ->
0 <= i -> i + Z.of_nat k <= size ->
unpackint_check k i str e size mask = true
<-> forall j, i <= j < i + Z.of_nat k ->
      byte_at str (pos e size j) = mask.
Proof.
induction k as [|k IH]; intros i Hlen Hi Hk; simpl unpackint_check.
- split; [intros _ j Hj; lia | reflexivity].
- rewrite andb_true_iff, Z.eqb_eq, IH by lia. split.
  + intros [H0 Hrest] j Hj.
    destruct (Z.eq_dec j i) as [->|]; [exact H0 | apply Hrest; lia].
  + intros Hall. split; [apply Hall; lia | intros j Hj; apply Hall; lia].
Qed.

(** The other way round of the sign extension: the value it gives
  for an [m+1]-bit pattern is in range and has that pattern. *)
Lemma sign_extension_inv R m :
0 <= m -> 0 <= R < 2 ^ (m + 1) ->
- 2 ^ m <= Z.lxor R (2 ^ m) - 2 ^ m < 2 ^ m
/\ (Z.lxor R (2 ^ m) - 2 ^ m) mod 2 ^ (m + 1) = R.
Proof.
intros Hm HR.
assert (H2 : 2 ^ (m + 1) = 2 * 2 ^ m)
  by (rewrite Z.pow_add_r by lia; lia).
set (n := if R <? 2 ^ m then R else R - 2 ^ (m + 1)).
assert (Hn : - 2 ^ m <= n < 2 ^ m)
  by (unfold n; destruct (Z.ltb_spec R (2 ^ m)); lia).
assert (Hmod : n mod 2 ^ (m + 1) = R).
{ unfold n. destruct (Z.ltb_spec R (2 ^ m)).
  - apply Z.mod_small. lia.
  - rewrite <- (Z.mod_add _ 1) by lia.
    replace (R - 2 ^ (m + 1) + 1 * 2 ^ (m + 1)) with R by lia.
    apply Z.mod_small. lia. }
assert (Hw : Z.lxor (n mod 2 ^ (m + 1)) (2 ^ m) - 2 ^ m = n)
  by (apply sign_extension; assumption).
rewrite Hmod in Hw. rewrite Hw. split; [exact Hn | exact Hmod].
Qed.

Lemma mask_value size :
1 <= size < SZINT ->
to_unsigned SZINT (Z.shiftl 1 (size * NB - 1)) = 2 ^ (8 * size - 1).
Proof.
intros Hs. unfold to_unsigned.
rewrite Z.shiftl_mul_pow2, Z.mul_1_l by (unfold NB; lia).
replace (size * NB - 1) with (8 * size - 1) by (unfold NB; lia).
apply Z.mod_small. split; [apply Z.pow_nonneg; lia|].
apply Z.pow_lt_mono_r; unfold NB; lia.
Qed.

(** What [unpackint] computes, in terms of the value [R] of the cells
  it reads. *)
Lemma unpackint_value str e size sg :
1 <= size ->
length str = Z.to_nat size ->
Forall (fun b => 0 <= b < 256) str ->
let limit := Z.min size SZINT in
let R := le_value (take (Z.to_nat limit) (field_bytes e str)) in
0 <= R < 2 ^ (8 * limit)
/\ (forall j, 0 <= j < limit -> byte_of R j = byte_at str (pos e size j))
/\ unpackint SZINT str e size sg
   = if size <? SZINT then
       if sg
       then Some (Z.lxor R (2 ^ (8 * size - 1)) - 2 ^ (8 * size - 1))
       else Some R
     else if SZINT <? size then
       if unpackint_check (Z.to_nat (size - SZINT)) SZINT str e size
            (if negb sg || (0 <=? to_integer SZINT R) then 0 else MC)
       then Some (to_integer SZINT R)
       else None
     else Some (to_integer SZINT R).
Proof.
intros Hs Hlen Hbytes limit R.
assert (Hfb : Forall (fun b => 0 <= b < 256) (field_bytes e str))
  by (unfold field_bytes; destruct e;
      [assumption | now apply Forall_reverse]).
assert (Hfl : length (field_bytes e str) = Z.to_nat size)
  by (unfold field_bytes; destruct e; rewrite ?length_reverse; exact Hlen).
assert (HR : 0 <= R < 2 ^ (8 * limit)).
{ pose proof (le_value_range (take (Z.to_nat limit) (field_bytes e str))
                (Forall_take _ _ _ Hfb)) as Hr.
  rewrite length_take_le in Hr by (unfold limit; lia).
  rewrite Z2Nat.id in Hr by (unfold limit; lia). exact Hr. }
split; [exact HR|]. split.
{ intros j Hj.
  destruct (byte_at_field e size str j Hlen ltac:(unfold limit in Hj; lia))
    as [Hf _].
  rewrite <- (Z2Nat.id j) at 1 by lia.
  apply byte_of_le_value; [now apply Forall_take|].
  rewrite lookup_take_lt by lia. exact Hf. }
unfold unpackint.
assert (Hlim : (if size <=? SZINT then size else SZINT) = limit)
  by (unfold limit; destruct (Z.leb_spec size SZINT); lia).
rewrite Hlim.
rewrite unpackint_bytes_field
  by (try assumption; unfold limit; lia).
rewrite Z.mul_0_l, Z.add_0_l. fold R.
destruct (Z.ltb_spec size SZINT) as [Hlt|Hge].
- assert (HlimS : limit = size) by (unfold limit; lia).
  rewrite HlimS in HR.
  assert (Hsmall : 0 <= R < 2 ^ (NB * SZINT - 1)).
  { split; [lia|]. apply Z.lt_le_trans with (2 ^ (8 * size)); [lia|].
    apply Z.pow_le_mono_r; unfold NB; lia. }
  destruct sg.
  + rewrite mask_value by lia.
    destruct (sign_extension_inv R (8 * size - 1) ltac:(lia)) as [Hw _].
    { replace (8 * size - 1 + 1) with (8 * size) by lia. exact HR. }
    f_equal. apply to_integer_to_unsigned; [exact SZINT_pos|].
    assert (2 ^ (8 * size - 1) <= 2 ^ (NB * SZINT - 1))
      by (apply Z.pow_le_mono_r; unfold NB; lia).
    lia.
  + f_equal. now apply to_integer_small.
- assert (HlimS : limit = SZINT) by (unfold limit; lia).
  rewrite HlimS. reflexivity.
Qed.

(** X2: an integer read from a field of [size] bytes, written back with
    the same byte order, size and signedness, gives the field: every
    string of [size] bytes that [unpackint] accepts is the packing of
    the integer it yields. *)
Theorem unpackint_packint str buff e size sg v :
1 <= size ->
length str = Z.to_nat size ->
length buff = Z.to_nat size ->
Forall (fun b => 0 <= b < 256) str ->
unpackint SZINT str e size sg = Some v ->
packint SZINT buff (to_unsigned SZINT v) e size (sg && (v <? 0)) = str.
Proof.
intros Hs Hlen Hbuf Hbytes Hun.
destruct (unpackint_value str e size sg Hs Hlen Hbytes) as (HR & Hcell & Hv).
set (R := le_value (take (Z.to_nat (Z.min size SZINT))
                      (field_bytes e str))) in *.
rewrite Hun in Hv.
apply (field_eq e size); [now rewrite length_packint | exact Hlen|].
intros j Hj. rewrite packint_cell by assumption.
rewrite (proj2 (byte_at_field e size str j Hlen Hj)). f_equal.
destruct (Z.ltb_spec size SZINT) as [Hlt|Hge].
- (* narrower than a Lua integer *)
  rewrite Z.min_l in HR, Hcell by lia.
  replace (sg && (v <? 0) && (SZINT <? size)) with false
    by (destruct (Z.ltb_spec SZINT size); [lia|];
        now rewrite andb_false_r).
  simpl. rewrite <- Hcell by lia.
  unfold to_unsigned. change (NB * SZINT) with (8 * SZINT).
  rewrite byte_of_mod by lia.
  destruct sg; inversion Hv; subst v; [|reflexivity].
  destruct (sign_extension_inv R (8 * size - 1) ltac:(lia)) as [_ Hm].
  { replace (8 * size - 1 + 1) with (8 * size) by lia. exact HR. }
  replace (8 * size - 1 + 1) with (8 * size) in Hm by lia.
  rewrite <- Hm at 2. now rewrite byte_of_mod by lia.
- rewrite Z.min_r in HR, Hcell by lia.
  assert (Hu : to_unsigned SZINT (to_integer SZINT R) = R).
  { rewrite to_unsigned_to_integer. unfold to_unsigned.
    apply Z.mod_small. exact HR. }
  destruct (Z.ltb_spec SZINT size) as [Hwide|Hsame].
  + (* wider than a Lua integer *)
    destruct (unpackint_check _ _ _ _ _ _) eqn:Hchk; [|discriminate].
    inversion Hv; subst v. rewrite Hu.
    rewrite unpackint_check_true in Hchk by (try assumption; lia).
    destruct (Z.leb_spec SZINT j) as [Hhigh|Hlow].
    * rewrite (Hchk j) by lia.
      rewrite (byte_of_high R SZINT j) by lia.
      destruct (Z.ltb_spec SZINT size); [|lia].
      destruct sg; simpl; [|reflexivity].
      destruct (Z.leb_spec 0 (to_integer SZINT R));
        destruct (Z.ltb_spec (to_integer SZINT R) 0); try lia; reflexivity.
    * rewrite andb_false_r. now apply Hcell.
  + inversion Hv; subst v. rewrite Hu, andb_false_r. apply Hcell. lia.
Qed.

(** Values below [256 ^ m] with the same [m] bytes are the same. *)
Lemma bytes_determine a b (m : nat) :
(forall j, 0 <= j < Z.of_nat m -> byte_of a j = byte_of b j) ->
a mod 2 ^ (8 * Z.of_nat m) = b mod 2 ^ (8 * Z.of_nat m).
Proof.
induction m as [|m IH]; intros Hb.
- simpl. now rewrite !Z.mod_1_r.
- replace (Z.of_nat (S m)) with (Z.of_nat m + 1) by lia.
  rewrite !mod_pow2_byte by lia.
  rewrite IH by (intros j Hj; apply Hb; lia).
  rewrite (Hb (Z.of_nat m)) by lia. reflexivity.
Qed.

(** [packint] leaves bytes in every cell. *)
Lemma packint_bytes_range buff n e size neg :
1 <= size -> length buff = Z.to_nat size ->
Forall (fun b => 0 <= b < 256) (packint SZINT buff n e size neg).
Proof.
intros Hs Hlen. apply Forall_lookup. intros i b Hi.
assert (Hil : (i < Z.to_nat size)%nat).
{ apply lookup_lt_Some in Hi. now rewrite length_packint, Hlen in Hi. }
set (j := if e then Z.of_nat i else size - 1 - Z.of_nat i).
assert (Hj : 0 <= j < size) by (unfold j; destruct e; lia).
assert (Hp : pos e size j = i) by (unfold pos, j; destruct e; lia).
rewrite <- Hp, packint_cell in Hi by assumption.
inversion Hi.
destruct (neg && (SZINT <? size) && (SZINT <=? j)).
- vm_compute. split; congruence.
- apply byte_of_range. lia.
Qed.

(** Every integer [str_pack] lets through survives [packint] (with
  the sign flag [str_pack] passes) followed by [unpackint],
  whatever the size of the field. *)
Lemma packint_unpackint_item buff n e size sg :
1 <= size ->
length buff = Z.to_nat size ->
- 2 ^ (NB * SZINT - 1) <= n < 2 ^ (NB * SZINT - 1) ->
(size < SZINT -> representable SZINT sg size n) ->
unpackint SZINT
  (packint SZINT buff (to_unsigned SZINT n) e size (sg && (n <? 0)))
  e size sg = Some n.
Proof.
intros Hs Hlen Hn Hrep.
set (str := packint SZINT buff (to_unsigned SZINT n) e size
              (sg && (n <? 0))).
assert (Hsl : length str = Z.to_nat size)
  by (unfold str; now rewrite length_packint).
assert (Hbytes : Forall (fun b => 0 <= b < 256) str)
  by (apply packint_bytes_range; [lia | exact Hlen]).
assert (Hcells : forall j, 0 <= j < size ->
          byte_at str (pos e size j)
          = if sg && (n <? 0) && (SZINT <? size) && (SZINT <=? j) then MC
            else byte_of (to_unsigned SZINT n) j).
{ intros j Hj. unfold byte_at, str.
  rewrite packint_cell by (try assumption; lia). reflexivity. }
destruct (unpackint_value str e size sg Hs Hsl Hbytes)
  as (HR & Hcell & Hv).
set (limit := Z.min size SZINT) in *.
set (R := le_value (take (Z.to_nat limit) (field_bytes e str))) in *.
assert (Hlim : 1 <= limit <= SZINT) by (unfold limit; lia).
assert (Hu := to_unsigned_range n).
assert (HRn : R = to_unsigned SZINT n mod 2 ^ (8 * limit)).
{ rewrite <- (Z.mod_small R (2 ^ (8 * limit))) at 1 by exact HR.
  pose proof (bytes_determine R (to_unsigned SZINT n) (Z.to_nat limit))
    as Hd.
  rewrite Z2Nat.id in Hd by lia. apply Hd.
  intros j Hj. rewrite Hcell, Hcells by (unfold limit in *; lia).
  destruct (Z.leb_spec SZINT j); [lia|]. now rewrite andb_false_r. }
rewrite Hv.
destruct (Z.ltb_spec size SZINT) as [Hnarrow|Hge].
- (* narrower than a Lua integer *)
  specialize (Hrep Hnarrow). unfold representable in Hrep.
  replace limit with size in * by (unfold limit; lia).
  assert (Hdiv : (2 ^ (8 * size) | 2 ^ (NB * SZINT))).
  { exists (2 ^ (NB * SZINT - 8 * size)).
    rewrite <- Z.pow_add_r by (unfold NB; lia).
    f_equal. lia. }
  assert (Hmod : R = n mod 2 ^ (8 * size)).
  { rewrite HRn. unfold to_unsigned.
    apply Z.mod_mod_divide. exact Hdiv. }
  destruct sg.
  + f_equal. rewrite Hmod.
    replace (8 * size) with (8 * size - 1 + 1) at 1 by lia.
    apply sign_extension; [lia|].
    change (NB * size - 1) with (8 * size - 1) in Hrep. exact Hrep.
  + f_equal. change (NB * size) with (8 * size) in Hrep.
    rewrite HRn. rewrite Z.mod_small by lia.
    unfold to_unsigned in *.
    assert (Hlt : 2 ^ (8 * size) <= 2 ^ (NB * SZINT - 1))
      by (apply Z.pow_le_mono_r; unfold NB; lia).
    assert (Hp : 0 < NB * SZINT) by (unfold NB; lia).
    assert (H2 := pow2_double (NB * SZINT) Hp).
    destruct (Z.neg_nonneg_cases n) as [Hneg|Hpos].
    * rewrite <- (Z.mod_add n 1) in Hrep by lia.
      rewrite Z.mod_small in Hrep by lia. lia.
    * apply Z.mod_small. lia.
- replace limit with SZINT in * by (unfold limit; lia).
  assert (HRu : R = to_unsigned SZINT n).
  { rewrite HRn. apply Z.mod_small. exact Hu. }
  rewrite HRu, to_integer_to_unsigned by assumption.
  destruct (Z.ltb_spec SZINT size) as [Hwide|]; [|reflexivity].
  replace (unpackint_check _ _ _ _ _ _) with true; [reflexivity|].
  symmetry. apply unpackint_check_true; [exact Hsl | lia | lia|].
  intros j Hj. rewrite Hcells by lia.
  destruct (Z.ltb_spec SZINT size); [|lia].
  destruct (Z.leb_spec SZINT j); [|lia]. rewrite !andb_true_r.
  rewrite (byte_of_high _ SZINT j) by (try lia; exact Hu).
  destruct sg; simpl; [|reflexivity].
  destruct (Z.leb_spec 0 n); destruct (Z.ltb_spec n 0); try lia;
    reflexivity.
Qed.

(** [unpackint] reads the [size] bytes of its field and nothing
  behind them. *)
Lemma byte_at_app (str tail : list Z) k :
(k < length str)%nat -> byte_at (str ++ tail) k = byte_at str k.
Proof. intros Hk. unfold byte_at. now rewrite lookup_app_l. Qed.

Lemma unpackint_bytes_app str tail e size k : forall res,
Z.of_nat k <= size -> length str = Z.to_nat size ->
unpackint_bytes SZINT k (str ++ tail) e size res
= unpackint_bytes SZINT k str e size res.
Proof.
induction k as [|k IH]; intros res Hk Hlen; [reflexivity|].
simpl. rewrite byte_at_app by (rewrite Hlen; apply pos_lt; lia).
apply IH; [lia | exact Hlen].
Qed.

Lemma unpackint_check_app str tail e size mask k : forall i,
0 <= i -> i + Z.of_nat k <= size -> length str = Z.to_nat size ->
unpackint_check k i (str ++ tail) e size mask
= unpackint_check k i str e size mask.
Proof.
induction k as [|k IH]; intros i Hi Hk Hlen; [reflexivity|].
simpl. rewrite byte_at_app by (rewrite Hlen; apply pos_lt; lia).
f_equal. apply IH; [lia | lia | exact Hlen].
Qed.

Lemma unpackint_app str tail e size sg :
length str = Z.to_nat size ->
unpackint SZINT (str ++ tail) e size sg = unpackint SZINT str e size sg.
Proof.
intros Hlen. unfold unpackint.
set (limit := if size <=? SZINT then size else SZINT).
assert (Hl : limit <= size)
  by (unfold limit; destruct (Z.leb_spec size SZINT); lia).
destruct (Z.le_gt_cases 0 limit) as [Hl0|Hl0].
- rewrite unpackint_bytes_app by (try assumption; lia).
  rewrite unpackint_check_app by (try assumption; lia).
  reflexivity.
- assert (Hs : size < 0)
    by (unfold limit in Hl0; destruct (Z.leb_spec size SZINT); lia).
  replace (Z.to_nat limit) with 0%nat by lia.
  destruct (Z.ltb_spec size SZINT); [reflexivity|].
  destruct (Z.ltb_spec SZINT size); [lia | reflexivity].
Qed.

(** X1: a field wider than a Lua integer: every Lua integer survives
    [packint] (with the sign flag [str_pack] passes) followed by
    [unpackint]; the bytes beyond the size of a Lua integer are the sign
    extension and pass the overflow check. *)
Theorem packint_unpackint_wide buff n e size sg :
SZINT < size ->
length buff = Z.to_nat size ->
- 2 ^ (NB * SZINT - 1) <= n < 2 ^ (NB * SZINT - 1) ->
unpackint SZINT
  (packint SZINT buff (to_unsigned SZINT n) e size (sg && (n <? 0)))
  e size sg = Some n.
Proof.
intros Hwide Hlen Hn.
apply packint_unpackint_item; try assumption; lia.
Qed.

(** X3: whatever bytes a field holds, the integer [unpackint] yields is
    a Lua integer, and for a field narrower than a Lua integer it lies
    in the range of the field: [0, 256^size) when unsigned,
    [-256^size/2, 256^size/2) when signed. *)
Theorem unpackint_range str e size sg v :
1 <= size ->
length str = Z.to_nat size ->
Forall (fun b => 0 <= b < 256) str ->
unpackint SZINT str e size sg = Some v ->
- 2 ^ (NB * SZINT - 1) <= v < 2 ^ (NB * SZINT - 1)
/\ (size < SZINT ->
    if sg then - 2 ^ (NB * size - 1) <= v < 2 ^ (NB * size - 1)
    else 0 <= v < 2 ^ (NB * size)).
Proof.
intros Hs Hlen Hbytes Hun.
destruct (unpackint_value str e size sg Hs Hlen Hbytes) as (HR & _ & Hv).
set (R := le_value (take (Z.to_nat (Z.min size SZINT))
                      (field_bytes e str))) in *.
rewrite Hun in Hv.
destruct (Z.ltb_spec size SZINT) as [Hlt|Hge].
- rewrite Z.min_l in HR by lia.
  assert (Hp : 2 ^ (NB * size) <= 2 ^ (NB * SZINT - 1))
    by (apply Z.pow_le_mono_r; unfold NB; lia).
  assert (H2 := pow2_double (NB * size) ltac:(unfold NB; lia)).
  change (8 * size) with (NB * size) in HR.
  destruct sg; inversion Hv; subst v.
  + destruct (sign_extension_inv R (NB * size - 1)
                ltac:(unfold NB; lia)) as [Hw _].
    { replace (NB * size - 1 + 1) with (NB * size) by lia. exact HR. }
    change (8 * size - 1) with (NB * size - 1). lia.
  + lia.
- split; [|lia].
  destruct (Z.ltb_spec SZINT size);
    [destruct (unpackint_check _ _ _ _ _ _); [|discriminate]|];
    inversion Hv; apply to_integer_range.
Qed.

(** X4: [unpackint] refuses a field exactly when the field is wider than
    a Lua integer and one of its bytes beyond that size is not the sign
    extension of the part it reads: not 255 for a signed field with a
    negative low part, not 0 otherwise. *)
Theorem unpackint_refuses str e size sg :
1 <= size ->
length str = Z.to_nat size ->
Forall (fun b => 0 <= b < 256) str ->
let low :=
  to_integer SZINT
    (le_value (take (Z.to_nat (Z.min size SZINT)) (field_bytes e str))) in
unpackint SZINT str e size sg = None
<-> SZINT < size
    /\ ~ (forall j, SZINT <= j < size ->
           byte_at str (pos e size j)
           = if sg && (low <? 0) then 255 else 0).
Proof.
intros Hs Hlen Hbytes low.
destruct (unpackint_value str e size sg Hs Hlen Hbytes) as (_ & _ & Hv).
rewrite Hv. fold low.
assert (Hmask : (if negb sg || (0 <=? low) then 0 else MC)
                = if sg && (low <? 0) then 255 else 0).
{ destruct sg; simpl; [|reflexivity].
  destruct (Z.leb_spec 0 low); destruct (Z.ltb_spec low 0);
    try lia; reflexivity. }
rewrite Hmask.
destruct (Z.ltb_spec size SZINT);
  [destruct sg; split; [discriminate | lia | discriminate | lia]|].
destruct (Z.ltb_spec SZINT size) as [Hwide|];
  [|split; [discriminate | lia]].
pose proof (unpackint_check_true e size str
              (if sg && (low <? 0) then 255 else 0)
              (Z.to_nat (size - SZINT)) SZINT Hlen ltac:(lia) ltac:(lia))
  as Hchk.
replace (SZINT + Z.of_nat (Z.to_nat (size - SZINT))) with size in Hchk
  by lia.
destruct (unpackint_check (Z.to_nat (size - SZINT)) SZINT str e size
            (if sg && (low <? 0) then 255 else 0)).
- split; [discriminate|]. intros [_ Hno]. exfalso. apply Hno.
  now apply Hchk.
- split; [|reflexivity]. intros _. split; [exact Hwide|].
  intros Hall. apply Hchk in Hall. discriminate.
Qed.

(** X5: the big-endian packing of an integer is the little-endian one
    read backwards, for a field of any size. *)
Theorem packint_mirror buff n size neg :
1 <= size ->
length buff = Z.to_nat size ->
packint SZINT buff n false size neg
= reverse (packint SZINT buff n true size neg).
Proof.
intros Hs Hlen.
apply (field_eq false size);
  [now rewrite length_packint
  | now rewrite length_reverse, length_packint |].
intros j Hj. rewrite packint_cell by assumption.
rewrite reverse_lookup
  by (rewrite length_packint, Hlen; apply pos_lt; exact Hj).
rewrite length_packint, Hlen.
replace (Z.to_nat size - S (pos false size j))%nat with (pos true size j)
  by (unfold pos; lia).
now rewrite packint_cell by assumption.
Qed.

End WithLuaInteger.

End LPackFields.

(** ** lpack.c: numerals, alignment, byte order of floats, positions *)

Module LPackOptionFacts.

Import LPack LPackFacts LPackOptions.

(** A positive number without a bit in common with its predecessor
    is a power of two. *)
Lemma land_pred_pow2 a :
  1 <= a -> Z.land a (a - 1) = 0 -> a = 2 ^ Z.log2 a.
Proof.
  intros Ha Hland.
  destruct (Z.log2_spec a ltac:(lia)) as [Hlo Hhi].
  destruct (Z.eq_dec a (2 ^ Z.log2 a)) as [|Hne]; [assumption|].
  exfalso.
  assert (Hl := Z.log2_nonneg a).
  assert (Hbit : Z.testbit a (Z.log2 a) = true) by (apply Z.bit_log2; lia).
  assert (Hlog : Z.log2 (a - 1) = Z.log2 a).
  { apply Z.log2_unique; [exact Hl | lia]. }
  assert (Hbit' : Z.testbit (a - 1) (Z.log2 a) = true).
  { rewrite <- Hlog. apply Z.bit_log2.
    assert (0 < 2 ^ Z.log2 a) by (apply Z.pow_pos_nonneg; lia). lia. }
  assert (Hboth : Z.testbit (Z.land a (a - 1)) (Z.log2 a) = true)
    by (rewrite Z.land_spec, Hbit, Hbit'; reflexivity).
  rewrite Hland, Z.bits_0 in Hboth. discriminate.
Qed.

Section WithCTypes.

Context `{CT : CTypes}.

Lemma to_int_small x :
1 <= SZ_int ->
- 2 ^ (8 * SZ_int - 1) <= x < 2 ^ (8 * SZ_int - 1) -> to_int x = x.
Proof.
intros Hs Hx. unfold to_int.
assert (Hpos : 0 < 8 * SZ_int) by lia.
assert (H2 := pow2_double (8 * SZ_int) Hpos).
rewrite Z.mod_small by lia. lia.
Qed.

(** [MAXSIZE] fits an [int] and leaves room for a last digit. *)
Lemma MAXSIZE_range :
2 <= SZ_int -> 1 <= SZ_size_t -> 255 <= MAXSIZE <= INT_MAX.
Proof.
intros Hi Hs. unfold MAXSIZE, INT_MAX.
assert (H15 : 2 ^ 15 <= 2 ^ (8 * SZ_int - 1))
  by (apply Z.pow_le_mono_r; lia).
destruct (Z.ltb_spec SZ_size_t SZ_int) as [Hlt|Hge].
- assert (2 ^ 8 <= 2 ^ (8 * SZ_size_t)) by (apply Z.pow_le_mono_r; lia).
  assert (2 ^ (8 * SZ_size_t) <= 2 ^ (8 * SZ_int - 1))
    by (apply Z.pow_le_mono_r; lia).
  lia.
- lia.
Qed.

Lemma digit_code c : digit c = true -> 0 <= c - 48 <= 9.
Proof.
unfold digit. intros H. apply andb_true_iff in H as [H1 H2].
apply Z.leb_le in H1. apply Z.leb_le in H2. lia.
Qed.

(** The loop of [getnum]: it reads a run of digits, its value never
  leaves the range of [int], and it stops at the first character
  that is no digit or once another digit might not fit. *)
Lemma getnum_loop_spec fmt : forall a v rest,
2 <= SZ_int -> 1 <= SZ_size_t ->
0 <= a <= (MAXSIZE - 9) / 10 ->
digit (peek fmt) = true ->
getnum_loop fmt a = (v, rest) ->
exists ds,
  fmt = String.append ds rest
  /\ ds <> EmptyString
  /\ all_digits ds = true
  /\ v = decimal ds a
  /\ a <= v <= MAXSIZE
  /\ (digit (peek rest) = false \/ (MAXSIZE - 9) / 10 < v).
Proof.
induction fmt as [|c fmt IH]; intros a v rest Hi Hs Ha Hd Hloop;
  [discriminate|].
assert (Hm := MAXSIZE_range Hi Hs). unfold INT_MAX in Hm.
assert (Hlim : 10 * ((MAXSIZE - 9) / 10) <= MAXSIZE - 9)
  by (apply Z.mul_div_le; lia).
simpl in Hd. apply digit_code in Hd as Hc.
simpl getnum_loop in Hloop.
rewrite (to_int_small MAXSIZE) in Hloop by lia.
rewrite (to_int_small (a * 10)) in Hloop by lia.
rewrite (to_int_small (a * 10 + (code c - 48))) in Hloop by lia.
rewrite Z.quot_div_nonneg in Hloop by lia.
set (a' := a * 10 + (code c - 48)) in *.
destruct (digit (peek fmt)) eqn:Hnext; simpl in Hloop.
- destruct (Z.leb_spec a' ((MAXSIZE - 9) / 10)) as [Hle|Hgt].
  + assert (Ha' : 0 <= a' <= (MAXSIZE - 9) / 10) by (unfold a'; lia).
    destruct (IH a' v rest Hi Hs Ha' eq_refl Hloop)
      as (ds & Hfmt & _ & Hall & Hv & Hrange & Hstop).
    exists (String c ds). simpl. rewrite Hfmt, Hall, Hd.
    repeat split; try assumption; try lia; discriminate.
  + inversion Hloop; subst v rest.
    exists (String c EmptyString). simpl. rewrite Hd. fold a'.
    repeat split; try lia; discriminate.
- inversion Hloop; subst v rest.
  exists (String c EmptyString). simpl. rewrite Hd. fold a'.
  repeat split; try lia; try discriminate. left. exact Hnext.
Qed.

(** X6: [getnum] on a format that starts with a digit yields the value
    of the digits it consumes, at most [MAXSIZE] (so the [int] it
    computes in never overflows); what it leaves starts with a character
    that is no digit unless the value is already too large for another
    digit. On any other format it yields the default and consumes
    nothing. *)
Theorem getnum_numeral fmt df v rest :
2 <= SZ_int -> 1 <= SZ_size_t ->
getnum fmt df = (v, rest) ->
if digit (peek fmt) then
  exists ds,
    fmt = String.append ds rest
    /\ ds <> EmptyString
    /\ all_digits ds = true
    /\ v = decimal ds 0
    /\ 0 <= v <= MAXSIZE
    /\ (digit (peek rest) = false \/ (MAXSIZE - 9) / 10 < v)
else v = df /\ rest = fmt.
Proof.
intros Hi Hs Hget. unfold getnum in Hget.
destruct (digit (peek fmt)) eqn:Hd; simpl in Hget.
- assert (Hm := MAXSIZE_range Hi Hs).
  apply getnum_loop_spec in Hget; try assumption.
  split; [lia|]. apply Z.div_pos; lia.
- inversion Hget. now split.
Qed.

(** What [alignment] asks for: nothing for a size of at most 1 or a
  [Kchar]; else the distance from [totalsize] to the next multiple
  of the alignment, which is the size capped by [maxalign] and has
  to be a power of two. *)
Lemma alignment_spec h opt totalsize align n :
1 <= SZ_int ->
0 <= totalsize ->
1 <= maxalign h <= MAXINTSIZE ->
alignment h opt totalsize align = inr n ->
if (align <=? 1) || KOption_eqb opt Kchar then n = 0
else
  let a := Z.min align (maxalign h) in
  a = 2 ^ Z.log2 a /\ 0 <= n < a /\ (totalsize + n) mod a = 0.
Proof.
intros Hi Ht Hmax Hal. unfold alignment in Hal.
destruct ((align <=? 1) || KOption_eqb opt Kchar) eqn:Hskip.
- now inversion Hal.
- apply orb_false_iff in Hskip as [Hgt _]. apply Z.leb_gt in Hgt.
  assert (Hcap : (if maxalign h <? align then maxalign h else align)
                 = Z.min align (maxalign h))
    by (destruct (Z.ltb_spec (maxalign h) align); lia).
  rewrite Hcap in Hal. set (a := Z.min align (maxalign h)) in *.
  assert (Ha : 1 <= a <= MAXINTSIZE) by (unfold a; lia).
  destruct (Z.eqb_spec (Z.land a (a - 1)) 0) as [Hpow|];
    simpl in Hal; [|discriminate].
  apply land_pred_pow2 in Hpow; [|lia].
  assert (Hk := Z.log2_nonneg a).
  assert (Hones : a - 1 = Z.ones (Z.log2 a))
    by (rewrite Z.ones_equiv; lia).
  assert (Hmod := Z.mod_pos_bound totalsize a ltac:(lia)).
  rewrite Hones, !Z.land_ones, <- Hpow in Hal by exact Hk.
  assert (H15 : 2 ^ 7 <= 2 ^ (8 * SZ_int - 1))
    by (apply Z.pow_le_mono_r; lia).
  unfold MAXINTSIZE in Ha.
  rewrite to_int_small in Hal by lia.
  inversion Hal as [Hn]. split; [exact Hpow|].
  split; [apply Z.mod_pos_bound; lia|].
  rewrite Z.add_mod_idemp_r by lia.
  apply Z.mod_divide; [lia|]. exists (totalsize / a + 1).
  assert (Hane : a <> 0) by lia.
  pose proof (Z.div_mod totalsize a Hane) as Hdm. lia.
Qed.

Lemma getnumlimit_range fmt df sz rest :
getnumlimit fmt df = inr (sz, rest) -> 1 <= sz <= MAXINTSIZE.
Proof.
unfold getnumlimit. destruct (getnum fmt df) as [v r].
destruct (Z.ltb_spec MAXINTSIZE v); simpl; [discriminate|].
destruct (Z.leb_spec v 0); simpl; [discriminate|].
intros Heq. inversion Heq; subst. lia.
Qed.

(** An option either leaves the header alone or is a [Knop] of size
  0; and [maxalign] stays within 1..16. *)
Lemma getoption_header h fmt opt size h' rest :
getoption h fmt = inr (opt, size, h', rest) ->
(h' = h \/ (opt = Knop /\ size = 0))
/\ (1 <= maxalign h <= MAXINTSIZE -> 1 <= maxalign h' <= MAXINTSIZE).
Proof.
destruct fmt as [|c fmt]; [discriminate|]. simpl.
destruct c as [[] [] [] [] [] [] [] []]; try discriminate;
  repeat match goal with
  | |- context [getnumlimit ?f ?d] =>
      let E := fresh "E" in
      destruct (getnumlimit f d) as [?|[? ?]] eqn:E;
      [discriminate | apply getnumlimit_range in E]
  | |- context [getnum ?f ?d] => destruct (getnum f d) as [? ?]
  | |- context [?a =? ?b] => destruct (a =? b); [discriminate|]
  end;
  intros Heq; inversion Heq; subst; simpl;
  (split; [auto | auto]).
Qed.

(** X7: padding asked for by [getdetails]: it is never negative and less
    than [maxalign]; for an option with a size above 1 (other than a
    [Kchar] or an ['X']) it is the distance from [totalsize] to the next
    multiple of the size capped by [maxalign], which is then a power of
    two. *)
Theorem getdetails_aligned h totalsize fmt opt size ntoalign h' rest :
1 <= SZ_int ->
0 <= totalsize ->
1 <= maxalign h <= MAXINTSIZE ->
getdetails h totalsize fmt = inr (opt, size, ntoalign, h', rest) ->
0 <= ntoalign < maxalign h'
/\ (opt <> Kpaddalign -> opt <> Kchar -> 1 < size ->
    let a := Z.min size (maxalign h') in
    a = 2 ^ Z.log2 a /\ (totalsize + ntoalign) mod a = 0).
Proof.
intros Hi Ht Hmax Hget. unfold getdetails in Hget.
destruct (getoption h fmt) as [|[[[opt1 size1] h1] fmt1]] eqn:Hopt;
  [discriminate|].
destruct (getoption_header _ _ _ _ _ _ Hopt) as [_ Hm1].
specialize (Hm1 Hmax).
assert (Hfin : forall align h2 fmt2,
          1 <= maxalign h2 <= MAXINTSIZE ->
          match alignment h2 opt1 totalsize align with
          | inl e => inl e
          | inr n => inr (opt1, size1, n, h2, fmt2)
          end = inr (opt, size, ntoalign, h', rest) ->
          opt = opt1 /\ size = size1 /\ h' = h2
          /\ alignment h' opt totalsize align = inr ntoalign).
{ intros align h2 fmt2 _ Hal.
  destruct (alignment h2 opt1 totalsize align) eqn:Ha; [discriminate|].
  inversion Hal; subst. auto. }
assert (Hbound : forall align,
          1 <= maxalign h' <= MAXINTSIZE ->
          alignment h' opt totalsize align = inr ntoalign ->
          0 <= ntoalign < maxalign h').
{ intros align Hm' Ha.
  apply alignment_spec in Ha; try assumption.
  destruct ((align <=? 1) || KOption_eqb opt Kchar); [lia|].
  cbv zeta in Ha. lia. }
destruct (KOption_eqb opt1 Kpaddalign) eqn:HX.
- destruct (peek fmt1 =? 0); [discriminate|].
  destruct (getoption h1 fmt1) as [|[[[opt2 align] h2] fmt2]] eqn:Hopt2;
    [discriminate|].
  destruct (KOption_eqb opt2 Kchar || (align =? 0)); [discriminate|].
  destruct (getoption_header _ _ _ _ _ _ Hopt2) as [_ Hm2].
  specialize (Hm2 Hm1).
  destruct (Hfin align h2 fmt2 Hm2 Hget) as (-> & -> & -> & Ha).
  split; [exact (Hbound align Hm2 Ha)|].
  intros Hne. destruct opt1; try discriminate. contradiction.
- destruct (Hfin size1 h1 fmt1 Hm1 Hget) as (-> & -> & -> & Ha).
  split; [exact (Hbound size1 Hm1 Ha)|].
  intros _ Hchar Hsize.
  apply alignment_spec in Ha; try assumption.
  destruct (Z.leb_spec size1 1); [lia|].
  destruct opt1; try contradiction; simpl in Ha; cbv zeta in Ha |- *;
    split; apply Ha.
Qed.

(** X8: with the header as [initheader] leaves it ([maxalign] 1, no
    ['!'] option seen), [getdetails] never asks for padding. *)
Theorem getdetails_unaligned h totalsize fmt opt size ntoalign h' rest :
maxalign h = 1 ->
getdetails h totalsize fmt = inr (opt, size, ntoalign, h', rest) ->
ntoalign = 0.
Proof.
intros Hmax Hget. unfold getdetails in Hget.
destruct (getoption h fmt) as [|[[[opt1 size1] h1] fmt1]] eqn:Hopt;
  [discriminate|].
destruct (getoption_header _ _ _ _ _ _ Hopt) as [Hh1 _].
assert (Hal : forall hh align n,
          alignment hh opt1 totalsize align = inr n ->
          maxalign hh = 1 \/ align = 0 -> n = 0).
{ intros hh align n Ha Hc. unfold alignment in Ha.
  destruct ((align <=? 1) || KOption_eqb opt1 Kchar) eqn:Hskip;
    [now inversion Ha|].
  apply orb_false_iff in Hskip as [Hgt _]. apply Z.leb_gt in Hgt.
  destruct Hc as [Hc|Hc]; [|lia]. rewrite Hc in Ha.
  destruct (Z.ltb_spec 1 align); [|lia]. simpl in Ha.
  inversion Ha. apply Z.land_0_r. }
destruct (KOption_eqb opt1 Kpaddalign) eqn:HX.
- destruct Hh1 as [Hh|[Hk _]]; [|subst opt1; discriminate].
  destruct (peek fmt1 =? 0); [discriminate|].
  destruct (getoption h1 fmt1) as [|[[[opt2 align] h2] fmt2]] eqn:Hopt2;
    [discriminate|].
  destruct (KOption_eqb opt2 Kchar) ; [discriminate|].
  destruct (Z.eqb_spec align 0) as [|Hnz]; [discriminate|]. simpl in Hget.
  destruct (getoption_header _ _ _ _ _ _ Hopt2) as [[Hh2|[_ ?]] _];
    [|contradiction].
  destruct (alignment h2 opt1 totalsize align) eqn:Ha; [discriminate|].
  inversion Hget; subst. apply (Hal h' align); auto.
- destruct (alignment h1 opt1 totalsize size1) eqn:Ha; [discriminate|].
  inversion Hget; subst. apply (Hal h' size); [exact Ha|].
  destruct Hh1 as [Hh|[_ Hz]]; [left; now rewrite Hh | now right].
Qed.

(** [copy_up] writes [k] bytes of [src] into [dest] in order. *)
Lemma copy_up_lookup src k : forall d s dest i,
(d + k <= length dest)%nat -> (s + k <= length src)%nat ->
copy_up k d s dest src !! i
= if bool_decide (d <= i < d + k)%nat then src !! (s + (i - d))%nat
  else dest !! i.
Proof.
induction k as [|k IH]; intros d s dest i Hd Hs; simpl copy_up.
- rewrite bool_decide_eq_false_2 by lia. reflexivity.
- rewrite IH by (rewrite ?length_insert; lia).
  destruct (lookup_lt_is_Some_2 src s ltac:(lia)) as [b Hb].
  unfold byte_at. rewrite Hb. simpl.
  destruct (decide (i = d)) as [->|Hne].
  + rewrite bool_decide_eq_false_2 by lia.
    rewrite bool_decide_eq_true_2 by lia.
    rewrite list_lookup_insert_eq by lia.
    now rewrite Nat.sub_diag, Nat.add_0_r.
  + rewrite list_lookup_insert_ne by lia.
    destruct (decide (S d <= i < S d + k)%nat).
    * rewrite !bool_decide_eq_true_2 by lia. f_equal. lia.
    * rewrite !bool_decide_eq_false_2 by lia. reflexivity.
Qed.

(** [copy_down] writes them from offset [d] downwards. *)
Lemma copy_down_lookup src k : forall d s dest i,
Z.of_nat k <= d + 1 -> d < Z.of_nat (length dest) ->
(s + k <= length src)%nat ->
copy_down k d s dest src !! i
= if bool_decide (d - Z.of_nat k < Z.of_nat i <= d)
  then src !! (s + Z.to_nat (d - Z.of_nat i))%nat
  else dest !! i.
Proof.
induction k as [|k IH]; intros d s dest i Hk Hd Hs; simpl copy_down.
- rewrite bool_decide_eq_false_2 by lia. reflexivity.
- rewrite IH by (rewrite ?length_insert; lia).
  destruct (lookup_lt_is_Some_2 src s ltac:(lia)) as [b Hb].
  unfold byte_at. rewrite Hb. simpl.
  destruct (decide (Z.of_nat i = d)) as [Heq|Hne].
  + rewrite bool_decide_eq_false_2 by lia.
    rewrite bool_decide_eq_true_2 by lia.
    replace i with (Z.to_nat d) by lia.
    rewrite list_lookup_insert_eq by lia.
    replace (d - Z.of_nat (Z.to_nat d)) with 0 by lia.
    now rewrite Nat.add_0_r.
  + rewrite list_lookup_insert_ne by lia.
    destruct (decide (d - 1 - Z.of_nat k < Z.of_nat i <= d - 1)).
    * rewrite !bool_decide_eq_true_2 by lia. f_equal. lia.
    * rewrite !bool_decide_eq_false_2 by lia. reflexivity.
Qed.

(** What [copywithendian] leaves in a destination of [size] bytes:
  the first [size] bytes of the source, read backwards when the
  byte order asked for is not the one of the machine. *)
Lemma copywithendian_eq dest src size e :
length dest = Z.to_nat size -> (Z.to_nat size <= length src)%nat ->
copywithendian dest src size e
= if Bool.eqb e native_little then take (Z.to_nat size) src
  else reverse (take (Z.to_nat size) src).
Proof.
intros Hd Hs. unfold copywithendian.
apply list_eq. intros i.
destruct (Bool.eqb e native_little).
- rewrite copy_up_lookup by lia.
  destruct (decide (i < Z.to_nat size)%nat).
  + rewrite bool_decide_eq_true_2 by lia.
    rewrite lookup_take_lt by lia. f_equal. lia.
  + rewrite bool_decide_eq_false_2 by lia.
    rewrite lookup_ge_None_2 by lia.
    rewrite lookup_ge_None_2; [reflexivity|].
    rewrite length_take. lia.
- assert (Ht : length (take (Z.to_nat size) src) = Z.to_nat size)
    by (rewrite length_take; lia).
  destruct (decide (i < Z.to_nat size)%nat).
  + rewrite copy_down_lookup by lia.
    rewrite bool_decide_eq_true_2 by lia.
    rewrite reverse_lookup by lia.
    rewrite lookup_take_lt by lia. f_equal. lia.
  + rewrite (lookup_ge_None_2 (reverse _))
      by (rewrite length_reverse; lia).
    destruct (Z.to_nat size) eqn:Hz.
    * simpl. apply lookup_ge_None_2. lia.
    * rewrite copy_down_lookup by lia.
      rewrite bool_decide_eq_false_2 by lia.
      apply lookup_ge_None_2. lia.
Qed.

(** X9: [copywithendian] leaves in a destination of [size] bytes the
    first [size] bytes of the source: in their order when the byte order
    asked for is the one of the machine, in reverse order otherwise.
    Nothing else of the source is looked at. *)
Theorem copywithendian_order dest src size e :
length dest = Z.to_nat size -> (Z.to_nat size <= length src)%nat ->
copywithendian dest src size e
= if Bool.eqb e native_little then take (Z.to_nat size) src
  else reverse (take (Z.to_nat size) src).
Proof. apply copywithendian_eq. Qed.

Lemma length_copywithendian dest src size e :
length dest = Z.to_nat size -> (Z.to_nat size <= length src)%nat ->
length (copywithendian dest src size e) = Z.to_nat size.
Proof.
intros Hd Hs. rewrite copywithendian_eq by assumption.
destruct (Bool.eqb e native_little);
  rewrite ?length_reverse, length_take; lia.
Qed.

(** X10: the bytes of a float survive the copy into the packed string
    and back, whatever byte order the format asks for: [copywithendian]
    applied twice with the same byte order gives the first [size] bytes
    of the source again. *)
Theorem copywithendian_twice d1 d2 src size e :
length d1 = Z.to_nat size -> length d2 = Z.to_nat size ->
(Z.to_nat size <= length src)%nat ->
copywithendian d2 (copywithendian d1 src size e) size e
= take (Z.to_nat size) src.
Proof.
intros H1 H2 Hs.
assert (Hl := length_copywithendian d1 src size e H1 Hs).
rewrite (copywithendian_eq d2) by (try assumption; lia).
rewrite (take_ge (copywithendian _ _ _ _)) by lia.
rewrite copywithendian_eq by assumption.
destruct (Bool.eqb e native_little); [reflexivity|].
apply reverse_involutive.
Qed.

Lemma posrelat_from_end pos len :
1 <= SZINT <= SZ_size_t ->
- 2 ^ (NB * SZINT - 1) <= pos < 0 ->
0 <= len < 2 ^ (NB * SZINT - 1) ->
posrelat pos len = Z.max 0 (len + pos + 1).
Proof.
intros Hsz Hpos Hlen. unfold posrelat.
destruct (Z.leb_spec 0 pos); [lia|].
assert (Hp1 : 0 < NB * SZINT) by (unfold NB; lia).
assert (H2 := pow2_double (NB * SZINT) Hp1).
assert (Hle : 2 ^ (NB * SZINT) <= 2 ^ (8 * SZ_size_t))
  by (apply Z.pow_le_mono_r; unfold NB; lia).
assert (Hneg : to_size_t (0 - to_size_t pos) = - pos).
{ unfold to_size_t. set (M := 2 ^ (8 * SZ_size_t)) in *.
  assert (Hm : pos mod M = pos + M)
    by (symmetry; apply (Z.mod_unique _ _ (-1)); lia).
  rewrite Hm. symmetry. apply (Z.mod_unique _ _ (-1)); lia. }
rewrite Hneg.
assert (Hint : to_integer SZINT len = len).
{ unfold to_integer, to_unsigned. rewrite Z.mod_small by lia.
  destruct (Z.ltb_spec len (2 ^ (NB * SZINT - 1))); lia. }
rewrite Hint.
destruct (Z.ltb_spec len (- pos)); lia.
Qed.

(** X11: a negative position counts from the end of the string: -1 is
    the last byte, and a position before the start gives 0; the result
    never points beyond the end. *)
Theorem posrelat_negative pos len :
1 <= SZINT <= SZ_size_t ->
- 2 ^ (NB * SZINT - 1) <= pos < 0 ->
0 <= len < 2 ^ (NB * SZINT - 1) ->
posrelat pos len = Z.max 0 (len + pos + 1)
/\ 0 <= posrelat pos len <= len.
Proof.
intros Hsz Hpos Hlen.
rewrite posrelat_from_end by assumption. lia.
Qed.

End WithCTypes.

End LPackOptionFacts.

(** ** pktizr.c: whole runs of the generator *)

Module LoopRunFacts.

Import Pkt Bucket Script Ranges Pktizr Accounting GeneratorFacts.

Lemma count_events_app p a b :
  count_events p (a ++ b) = (count_events p a + count_events p b)%nat.
Proof. unfold count_events. now rewrite List.filter_app, length_app. Qed.

Lemma injects_app a b : injects (a ++ b) = (injects a + injects b)%nat.
Proof. unfold injects. now rewrite List.filter_app, length_app. Qed.

Section WithWorkers.

Context `{TB : TokenBucket} {L : Type} `{SH : ScriptHost L}.

Variable args : pktizr_args.

(** Turns in which no stop is seen, below the total. *)
Lemma loop_run_go pre : forall rest s,
Forall (fun x => loop_stop x = false) pre ->
0 <= loop_i s ->
loop_i s + Z.of_nat (length pre) <= tot_cnt args ->
exists s',
  loop_run args (pre ++ rest) s = loop_run args rest s'
  /\ loop_i s' = loop_i s + Z.of_nat (length pre)
  /\ loop_trace s'
     = loop_trace s
       ++ map (upcall args) (seqZ (loop_i s) (Z.of_nat (length pre))).
Proof.
induction pre as [|i pre IH]; intros rest s Hgo Hi Hlen.
- exists s. simpl. rewrite Z.add_0_r, app_nil_r. auto.
- apply Forall_cons in Hgo as [Hi0 Hgo]. simpl length in *.
  simpl app. simpl loop_run.
  destruct (script_loop (loop_L s)
    (uint32 (range_list_pick (targets args)
               (target_index args (loop_i s))))
    (uint16 (range_list_pick (ports args) (port_index args (loop_i s)))))
    as [rc L'] eqn:Hrc.
  rewrite (loop_step_enter args i s rc L') by (try assumption; lia).
  set (s1 := {| loop_L := L' |}).
  destruct (IH rest s1 Hgo) as (s' & Hrun & Hi' & Htr);
    [unfold s1; simpl; lia | unfold s1; simpl; lia |].
  exists s'. split; [exact Hrun|]. split.
  + rewrite Hi'. unfold s1; simpl. lia.
  + rewrite Htr. unfold s1; simpl loop_trace; simpl loop_i.
    rewrite <- app_assoc. f_equal.
    rewrite (seqZ_cons (loop_i s)) by lia. simpl. f_equal.
    f_equal. f_equal; lia.
Qed.

(** X12: the generator leaves its loop at the first test that finds
    [args->stop] set or the total reached: it has then made one upcall
    per turn, for the indices 0, 1, 2, ... in this order, and closes the
    script. *)
Theorem loop_cb_exit pre i post :
Forall (fun x => loop_stop x = false) pre ->
Z.of_nat (length pre) <= tot_cnt args ->
loop_stop i = true \/ Z.of_nat (length pre) = tot_cnt args ->
exists s,
  loop_cb args (pre ++ i :: post) = (Exited, s)
  /\ loop_i s = Z.of_nat (length pre)
  /\ loop_trace s
     = map (upcall args) (seqZ 0 (Z.of_nat (length pre)))
       ++ [Ev_script_close].
Proof.
intros Hgo Hlen Hend. unfold loop_cb.
destruct (loop_run_go pre (i :: post) (loop_init args) Hgo)
  as (s' & Hrun & Hi & Htr); simpl; try lia.
simpl in Hi, Htr. rewrite Hrun. simpl loop_run. unfold loop_step.
replace ((loop_i s' <? tot_cnt args) && negb (loop_stop i)) with false.
- eexists. split; [reflexivity|]. simpl. rewrite Htr. auto.
- symmetry. apply andb_false_iff.
  destruct Hend as [Hs|He]; [right; now rewrite Hs|].
  left. apply Z.ltb_ge. lia.
Qed.

Lemma loop_step_accounts i s :
loop_accounts args false s ->
loop_accounts args
  (match fst (loop_step args i s) with Running => false | Exited => true end)
  (snd (loop_step args i s)).
Proof.
unfold loop_accounts, count_events, injects.
intros (Hi & Hup & Hcl & Hinj). unfold loop_step.
assert (Ht := tot_cnt_range args).
destruct (Z.ltb_spec (loop_i s) (tot_cnt args)) as [Hlt|Hge]; simpl.
- destruct (loop_stop i); simpl.
  + rewrite !List.filter_app, !length_app, Hup, Hcl, Hinj. simpl.
    repeat split; lia.
  + destruct (script_loop _ _ _) as [rc L']. simpl.
    rewrite wrap64_small by lia.
    rewrite !List.filter_app, !length_app, Hup, Hcl, Hinj. simpl.
    repeat split; lia.
- rewrite !List.filter_app, !length_app, Hup, Hcl, Hinj. simpl.
  repeat split; lia.
Qed.

Lemma loop_run_accounts ins : forall s,
loop_accounts args false s ->
loop_accounts args
  (match fst (loop_run args ins s) with Running => false | Exited => true end)
  (snd (loop_run args ins s)).
Proof.
induction ins as [|i ins IH]; intros s Hs; [exact Hs|].
simpl. assert (H1 := loop_step_accounts i s Hs).
destruct (loop_step args i s) as [[] s1]; simpl in *.
- now apply IH.
- exact H1.
Qed.

(** X13: whatever the generator reads, it never makes more upcalls than
    the total it computed, its index is the number of upcalls made, it
    closes the script once, on the way out, and it injects nothing
    itself. *)
Theorem loop_cb_bounded ins :
let c := fst (loop_cb args ins) in
let s := snd (loop_cb args ins) in
0 <= loop_i s <= tot_cnt args
/\ count_events is_script_loop (loop_trace s) = Z.to_nat (loop_i s)
/\ count_events is_script_close (loop_trace s)
   = match c with Running => 0%nat | Exited => 1%nat end
/\ injects (loop_trace s) = 0%nat.
Proof.
intros c s. unfold c, s, loop_cb.
assert (H0 : loop_accounts args false (loop_init args)).
{ assert (Ht := tot_cnt_range args).
  unfold loop_accounts; simpl. repeat split; try lia; reflexivity. }
assert (H := loop_run_accounts ins _ H0).
destruct (loop_run args ins (loop_init args)) as [[] s1]; exact H.
Qed.

(** X14: a turn of the generator that goes on to the upcall never
    divides by zero: the number of targets and the number of duplicates
    are both non-zero whenever the index is below the total. *)
Theorem loop_step_divisors i s s' :
0 <= loop_i s ->
loop_step args i s = (Running, s') ->
tgt_cnt args <> 0 /\ count args <> 0.
Proof.
intros Hi Hstep. unfold loop_step in Hstep.
destruct (Z.ltb_spec (loop_i s) (tot_cnt args)) as [Hlt|];
  [|discriminate].
clear Hstep.
split; intros Hz;
  assert (H0 : tot_cnt args = 0)
    by (unfold tot_cnt; rewrite Hz, ?Z.mul_0_l, ?Z.mul_0_r; reflexivity);
  lia.
Qed.

(** X15: with one packet per tuple, every pair of a target index and a
    port index is the pair of exactly one turn below the product of the
    two counts. *)
Theorem index_pairs_once t p :
count args = 1 ->
0 <= t < tgt_cnt args ->
0 <= p < prt_cnt args ->
let i := p * tgt_cnt args + t in
0 <= i < tgt_cnt args * prt_cnt args
/\ target_index args i = t
/\ port_index args i = p
/\ forall j, 0 <= j < tgt_cnt args * prt_cnt args ->
     target_index args j = t -> port_index args j = p -> j = i.
Proof.
intros HC Ht Hp i. unfold target_index, port_index. rewrite HC.
split; [unfold i; nia|].
split; [|split].
- rewrite Z.div_1_r. unfold i.
  rewrite Z.add_comm, Z.mod_add by lia. apply Z.mod_small. lia.
- rewrite Z.div_1_r. unfold i.
  rewrite Z.div_add_l by lia. rewrite (Z.div_small t) by lia. lia.
- intros j Hj. rewrite !Z.div_1_r. intros Hjt Hjp.
  pose proof (Z.div_mod j (tgt_cnt args) ltac:(lia)) as Hdm.
  rewrite Hjt, Hjp in Hdm. unfold i. lia.
Qed.

End WithWorkers.

End LoopRunFacts.

(** ** pktizr.c: whole runs of the transmitter and of the receiver *)

Module AccountingFacts.

Import Pkt Bucket Script Pktizr Accounting LoopRunFacts.

Section WithWorkers.

Context `{CD : Codec} `{TB : TokenBucket} {L : Type} `{SH : ScriptHost L}.

Variable args : pktizr_args.

Lemma send_step_accounts i st :
send_accounts (snd st) -> send_accounts (snd (send_step args i st)).
Proof.
destruct st as [pc s]. simpl. intros Hinv. unfold send_step.
destruct pc; try exact Hinv.
- destruct (send_done i); exact Hinv.
- destruct (negb (send_done i) && may_send args (send_bucket s));
    [|exact Hinv].
  destruct (send_node i) as [pkt|]; [|exact Hinv].
  simpl. unfold send_pkt.
  destruct Hinv as (Hsent & Hfree & Hle & (k & Hk & Hprobe) & Hall).
  unfold send_accounts, count_events, injects in *.
  destruct (pkt_pack (send_len i) pkt) as [pkt_len buf].
  destruct (pkt_len <? 0); simpl;
    rewrite !List.filter_app, !length_app; simpl.
  + rewrite Nat.add_0_r.
    split; [exact Hsent|]. split; [lia|]. split; [lia|].
    split; [exists k; split; [lia | exact Hprobe]|].
    apply Forall_app. split; [exact Hall|].
    repeat constructor.
  + split.
    { rewrite Hsent. unfold wrap64.
      rewrite Z.add_mod_idemp_l by lia. f_equal. lia. }
    split; [lia|]. split; [lia|]. split.
    { destruct (probe pkt).
      - exists (S k). split; [lia|]. rewrite Hprobe. unfold wrap64.
        rewrite Z.add_mod_idemp_l by lia. f_equal. lia.
      - exists k. split; [lia | exact Hprobe]. }
    apply Forall_app. split; [exact Hall|].
    repeat constructor.
Qed.


Lemma recv_step_accounts i s :
recv_accounts false s ->
recv_accounts
  (match fst (recv_step i s) with Running => false | Exited => true end)
  (snd (recv_step i s)).
Proof.
unfold recv_accounts, count_events, injects.
intros (Hup & Hfr & Hrel & (k & Hk & Hrecv) & Hcl & Hinj).
unfold recv_step.
destruct (recv_done i); simpl.
{ rewrite !List.filter_app, !length_app, Hcl, Hinj. simpl.
  repeat split; try lia. exists k. split; [lia | exact Hrecv]. }
destruct (recv_frame i) as [[buf len]|]; simpl.
2:{ rewrite !List.filter_app, !length_app, Hcl, Hinj. simpl.
    repeat split; try lia. exists k. split; [lia | exact Hrecv]. }
destruct (pkt_unpack buf len) as [rc pkt].
destruct (rc =? 0); simpl.
{ rewrite !List.filter_app, !length_app, Hcl, Hinj. simpl.
  repeat split; try lia. exists k. split; [lia | exact Hrecv]. }
destruct (script_recv (recv_L s) pkt) as [rc' L']. simpl.
rewrite !List.filter_app, !length_app, Hcl, Hinj. simpl.
repeat split; try lia.
destruct (rc' <? 0).
- exists k. split; [lia | exact Hrecv].
- exists (S k). split; [lia|]. rewrite Hrecv. unfold wrap64.
  rewrite Z.add_mod_idemp_l by lia. f_equal. lia.
Qed.

Lemma recv_run_accounts ins : forall s,
recv_accounts false s ->
recv_accounts
  (match fst (recv_run ins s) with Running => false | Exited => true end)
  (snd (recv_run ins s)).
Proof.
induction ins as [|i ins IH]; intros s Hs; [exact Hs|].
simpl. assert (H1 := recv_step_accounts i s Hs).
destruct (recv_step i s) as [[] s1]; simpl in *.
- now apply IH.
- exact H1.
Qed.

(** X17: whatever the receiver reads: every packet it hands to the
    script is freed, every frame it looked at is released, [pkt_recv]
    counts some of the upcalls (modulo 2^64), the script is closed once,
    on the way out, and the receiver injects nothing. *)
Theorem recv_cb_accounts ins :
let c := fst (recv_cb ins) in
let s := snd (recv_cb ins) in
count_events is_script_recv (recv_trace s)
= count_events is_pkt_free (recv_trace s)
/\ (count_events is_pkt_free (recv_trace s)
    <= count_events is_release (recv_trace s))%nat
/\ (count_events is_release (recv_trace s)
    <= count_events is_capture (recv_trace s))%nat
/\ (exists k, (k <= count_events is_script_recv (recv_trace s))%nat
              /\ pkt_recv s = wrap64 (Z.of_nat k))
/\ count_events is_script_close (recv_trace s)
   = match c with Running => 0%nat | Exited => 1%nat end
/\ injects (recv_trace s) = 0%nat.
Proof.
intros c s. unfold c, s, recv_cb.
assert (H0 : recv_accounts false recv_init).
{ unfold recv_accounts, count_events, injects; simpl.
  split; [reflexivity|]. split; [lia|]. split; [lia|].
  split; [exists 0%nat; split; [lia | reflexivity]|].
  split; reflexivity. }
assert (H := recv_run_accounts ins _ H0).
destruct (recv_run ins recv_init) as [[] s1]; exact H.
Qed.

(** Turns of the receiver in which [done] is not seen. *)
Lemma recv_run_go pre : forall rest s,
Forall (fun x => recv_done x = false) pre ->
exists s',
  recv_run (pre ++ rest) s = recv_run rest s'
  /\ count_events is_capture (recv_trace s')
     = (count_events is_capture (recv_trace s) + length pre)%nat
  /\ count_events is_release (recv_trace s')
     = (count_events is_release (recv_trace s)
        + length (List.filter (fun x => has_frame (recv_frame x)) pre))%nat
  /\ count_events is_script_recv (recv_trace s')
     = (count_events is_script_recv (recv_trace s)
        + length (List.filter (fun x => goes_to_script (recv_frame x))
                    pre))%nat
  /\ count_events is_script_close (recv_trace s')
     = count_events is_script_close (recv_trace s).
Proof.
induction pre as [|i pre IH]; intros rest s Hgo.
- exists s. simpl. rewrite !Nat.add_0_r. auto.
- apply Forall_cons in Hgo as [Hi Hgo]. simpl app. simpl recv_run.
  assert (Hstep : exists s1,
    recv_step i s = (Running, s1)
    /\ count_events is_capture (recv_trace s1)
       = S (count_events is_capture (recv_trace s))
    /\ count_events is_release (recv_trace s1)
       = (count_events is_release (recv_trace s)
          + if has_frame (recv_frame i) then 1 else 0)%nat
    /\ count_events is_script_recv (recv_trace s1)
       = (count_events is_script_recv (recv_trace s)
          + if goes_to_script (recv_frame i) then 1 else 0)%nat
    /\ count_events is_script_close (recv_trace s1)
       = count_events is_script_close (recv_trace s)).
  { unfold recv_step, count_events. rewrite Hi.
    destruct (recv_frame i) as [[buf len]|]; simpl.
    2:{ eexists. split; [reflexivity|]. simpl.
        rewrite !List.filter_app, !length_app. simpl.
        repeat split; lia. }
    destruct (pkt_unpack buf len) as [rc pkt]. simpl.
    destruct (rc =? 0); simpl.
    { eexists. split; [reflexivity|]. simpl.
      rewrite !List.filter_app, !length_app. simpl.
      repeat split; lia. }
    destruct (script_recv (recv_L s) pkt) as [rc' L'].
    eexists. split; [reflexivity|]. simpl.
    rewrite !List.filter_app, !length_app. simpl.
    repeat split; lia. }
  destruct Hstep as (s1 & Hs1 & Hc & Hr & Hu & Hx). rewrite Hs1.
  destruct (IH rest s1 Hgo) as (s' & Hrun & Hc' & Hr' & Hu' & Hx').
  exists s'. split; [exact Hrun|].
  rewrite Hc', Hr', Hu', Hx', Hc, Hr, Hu, Hx. simpl.
  destruct (has_frame (recv_frame i));
    destruct (goes_to_script (recv_frame i)); simpl;
    repeat split; lia.
Qed.

(** X18: the receiver leaves its loop at the first test that finds
    [args->done] set.  Up to then it has made one capture per turn and
    one release per frame captured, and has handed the script exactly
    the frames for which [pkt_unpack] did not answer 0; on the way out
    it closes the script. *)
Theorem recv_cb_exit pre i post :
Forall (fun x => recv_done x = false) pre ->
recv_done i = true ->
exists s,
  recv_cb (pre ++ i :: post) = (Exited, s)
  /\ count_events is_capture (recv_trace s) = length pre
  /\ count_events is_release (recv_trace s)
     = length (List.filter (fun x => has_frame (recv_frame x)) pre)
  /\ count_events is_script_recv (recv_trace s)
     = length (List.filter (fun x => goes_to_script (recv_frame x)) pre)
  /\ exists tr, recv_trace s = tr ++ [Ev_script_close].
Proof.
intros Hgo Hdone. unfold recv_cb.
destruct (recv_run_go pre (i :: post) recv_init Hgo)
  as (s' & Hrun & Hc & Hr & Hu & _).
rewrite Hrun. simpl recv_run. unfold recv_step. rewrite Hdone.
eexists. split; [reflexivity|]. simpl.
unfold count_events in *.
rewrite !List.filter_app, !length_app. simpl.
rewrite Hc, Hr, Hu. simpl.
repeat split; try lia. eexists. reflexivity.
Qed.

End WithWorkers.

End AccountingFacts.

(** ** resolv.c and the start-up of pktizr.c: how they end *)

Module ResolverRunFacts.

Import Pkt Resolv ResolvFacts.

Section WithCodec.

Context `{CD : Codec}.
Variable little : bool.

(** What [check_reply] can answer. *)
Lemma check_reply_cases saddr daddr rsp rsp_len r m :
check_reply little saddr daddr rsp rsp_len = Some (r, m) ->
(r = Fault /\ m = None)
\/ (r = Ret 0 /\ exists mac, m = Some (take 6 mac)).
Proof.
unfold check_reply.
destruct (pkt_unpack rsp rsp_len) as [n p].
destruct (n <? 2); [discriminate|].
destruct (nodes p) as [|a [|b c]]; try discriminate.
- intros Heq; inversion Heq. now left.
- destruct b as [|h| | | |]; try discriminate.
  destruct (memcmp_ne _ _ _); [discriminate|].
  destruct (memcmp_ne _ _ _); [discriminate|].
  intros Heq; inversion Heq. right. split; [reflexivity|].
  now exists (hwsrc h).
Qed.

(** How the polling loop can end. *)
Lemma poll_result start saddr daddr ins : forall dhost tr r d t,
poll little start saddr daddr ins dhost tr = (r, d, t) ->
(r = Polling /\ d = dhost)
\/ (r = Ret (-1) /\ d = dhost
    /\ exists i, In i ins /\ timeout < wrap64 (cap_now i - start))
\/ (r = Fault /\ d = dhost)
\/ (r = Ret 0 /\ exists mac, d = take 6 mac ++ drop 6 dhost).
Proof.
induction ins as [|i ins IH]; intros dhost tr r d t Hp; simpl in Hp.
- inversion Hp. now left.
- assert (Hnext :
    poll little start saddr daddr ins dhost (tr ++ [Ev_capture])
    = (r, d, t) ->
    (r = Polling /\ d = dhost)
    \/ (r = Ret (-1) /\ d = dhost
        /\ exists i0, In i0 (i :: ins)
                      /\ timeout < wrap64 (cap_now i0 - start))
    \/ (r = Fault /\ d = dhost)
    \/ (r = Ret 0 /\ exists mac, d = take 6 mac ++ drop 6 dhost)).
  { intros Hrest.
    destruct (IH _ _ _ _ _ Hrest) as [H|[(Hr & Hd & i0 & Hin & Hto)|H]];
      [now left | | right; right; exact H].
    right; left. repeat split; try assumption.
    exists i0. split; [now right | exact Hto]. }
  destruct (Z.ltb_spec timeout (wrap64 (cap_now i - start))) as [Hto|].
  { inversion Hp; subst. right; left. repeat split.
    exists i. split; [now left | exact Hto]. }
  destruct (cap_frame i) as [[rsp rsp_len]|]; [|auto].
  destruct (check_reply little saddr daddr rsp rsp_len)
    as [[r' m]|] eqn:Hc; [|auto].
  destruct (check_reply_cases _ _ _ _ _ _ Hc)
    as [[-> ->]|[-> (mac & ->)]]; inversion Hp; subst.
  + right; right; left. now split.
  + right; right; right. split; [reflexivity|]. now exists mac.
Qed.



(** X21: [resolv_addr_to_mac] returns 0 only after it captured, within
    the time limit, a frame with an ARP header whose [psrc] is the
    address asked for and whose [pdst] is the local address; [dhost]
    then holds the sender hardware address of that header. *)
Theorem resolv_success start ins shost saddr dhost daddr d t :
Forall (fun i =>
          match cap_frame i with
          | None => True
          | Some (rsp, rsp_len) =>
              unpacked (fst (pkt_unpack rsp rsp_len))
                       (snd (pkt_unpack rsp rsp_len)) = true
          end) ins ->
resolv_addr_to_mac little start ins shost saddr dhost daddr
= (Ret 0, d, t) ->
exists i rsp rsp_len h,
  In i ins /\ cap_frame i = Some (rsp, rsp_len)
  /\ wrap64 (cap_now i - start) <= timeout
  /\ In (N_arp h) (nodes (snd (pkt_unpack rsp rsp_len)))
  /\ arp_matches saddr daddr h
  /\ d = take 6 (hwsrc h) ++ drop 6 dhost.
Proof.
intros Hu. unfold resolv_addr_to_mac.
destruct (pkt_pack _ _) as [len buf].
destruct (len <? 0); [discriminate|].
intros Hp. exact (poll_returns_zero little _ _ _ _ _ _ _ _ Hu Hp).
Qed.

End WithCodec.

End ResolverRunFacts.

Module MainFacts.

Import Pkt Resolv Pktizr Options ResolvFacts StartupFacts.

Section WithPlatform.

Context `{PF : Platform} `{CD : Codec}.

(** What the option loop leaves alone. *)
Lemma option_case_keeps o l l' :
option_case o l = inr l' ->
done (l_args l') = done (l_args l)
/\ stop (l_args l') = stop (l_args l)
/\ (is_Opt_S o = false -> script (l_args l') = script (l_args l))
/\ (is_Opt_g o = false -> l_gateway_addr l' = l_gateway_addr l).
Proof.
destruct o; simpl; try destruct (strtoull optarg) as [v []];
  intros Heq; inversion Heq; simpl; auto;
  repeat split; auto; discriminate.
Qed.

Lemma option_loop_keeps os : forall l l',
option_loop os l = inr l' ->
done (l_args l') = done (l_args l)
/\ stop (l_args l') = stop (l_args l)
/\ (forallb (fun o => negb (is_Opt_S o)) os = true ->
    script (l_args l') = script (l_args l))
/\ (forallb (fun o => negb (is_Opt_g o)) os = true ->
    l_gateway_addr l' = l_gateway_addr l).
Proof.
induction os as [|o os IH]; intros l l' Heq; simpl in Heq.
- inversion Heq. auto.
- destruct (option_case o l) as [|l1] eqn:Ho; [discriminate|].
  destruct (option_case_keeps o l l1 Ho) as (Hd & Hs & Hsc & Hg).
  destruct (IH _ _ Heq) as (Hd' & Hs' & Hsc' & Hg').
  simpl. repeat split; try congruence.
  + intros Hall. apply andb_true_iff in Hall as [Ho1 Hall].
    rewrite (Hsc' Hall). apply Hsc. now apply negb_true_iff.
  + intros Hall. apply andb_true_iff in Hall as [Ho1 Hall].
    rewrite (Hg' Hall). apply Hg. now apply negb_true_iff.
Qed.

(** X22: without a [--script] option [main] never gets to the network:
    either the option loop ends the program (with the help text or on a
    malformed number), or [main] fails with "No script provided". *)
Theorem main_needs_script argc argv1 os args0 start ins :
4 <= argc ->
forallb (fun o => negb (is_Opt_S o)) os = true ->
main argc argv1 os args0 start ins = Failure "No script provided"
\/ exists out,
     option_loop os {| l_args := defaults argv1 args0;
                       l_local_addr := None; l_gateway_addr := None |}
     = inl out
     /\ main argc argv1 os args0 start ins = out.
Proof.
intros Hargc Hno. unfold main.
destruct (Z.ltb_spec argc 4); [lia|].
destruct (option_loop os _) as [out|l] eqn:Hos.
- right. now exists out.
- left. destruct (option_loop_keeps _ _ _ Hos) as (_ & _ & Hsc & _).
  specialize (Hsc Hno). simpl in Hsc.
  unfold configure. now rewrite Hsc.
Qed.

(** X23: when start-up succeeds, the record the workers get has both
    flags clear, a script and the hardware address of the interface of
    the default route, which could be opened; one frame was injected;
    and unless [--gateway-addr] was given, the gateway address is the
    gateway of the default route in host byte order. *)
Theorem main_ready argc argv1 os args0 start ins args tr :
main argc argv1 os args0 start ins = Ready args tr ->
done args = false /\ stop args = false
/\ script args <> None
/\ injects tr = 1%nat
/\ exists r mac,
     routes_get_default = Some r
     /\ resolve_ifname_to_mac (if_name r) = Some mac
     /\ local_mac args = mac
     /\ netdev_open (if_name r) = true
     /\ (forallb (fun o => negb (is_Opt_g o)) os = true ->
         gateway_addr args = ntohl little_endian (gate_addr r)).
Proof.
unfold main. destruct (argc <? 4); [discriminate|].
destruct (option_loop os _) as [out|l] eqn:Hos.
{ intros ->. exfalso. revert Hos.
  generalize {| l_args := defaults argv1 args0; l_local_addr := None;
                l_gateway_addr := None |}.
  induction os as [|o os IH]; intros l0 Hos; simpl in Hos;
    [discriminate|].
  destruct (option_case o l0) as [out|l1] eqn:Ho.
  - inversion Hos; subst out.
    destruct o; simpl in Ho; try destruct (strtoull optarg) as [v []];
      discriminate.
  - exact (IH _ Hos). }
destruct (option_loop_keeps _ _ _ Hos) as (Hd & Hs & _ & Hg).
simpl in Hd, Hs, Hg.
destruct (configure l) as [out|a] eqn:Hcfg.
{ intros ->. unfold configure in Hcfg.
  destruct (script (l_args l)); [|discriminate].
  destruct routes_get_default as [r|]; [|discriminate].
  destruct (resolve_ifname_to_mac (if_name r)); [|discriminate].
  destruct (match l_local_addr l with
            | Some a => Some (ntohl little_endian (inet_addr a))
            | None => resolve_ifname_to_ip (if_name r)
            end); [|discriminate].
  destruct (netdev_open (if_name r)); discriminate. }
unfold configure in Hcfg.
destruct (script (l_args l)) as [sc|] eqn:Hsc; [|discriminate].
destruct routes_get_default as [r|]; [|discriminate].
destruct (resolve_ifname_to_mac (if_name r)) as [mac|] eqn:Hmac;
  [|discriminate].
destruct (match l_local_addr l with
          | Some a => Some (ntohl little_endian (inet_addr a))
          | None => resolve_ifname_to_ip (if_name r)
          end) as [la|]; [|discriminate].
destruct (netdev_open (if_name r)) eqn:Hopen; [|discriminate].
inversion Hcfg; subst a; clear Hcfg.
unfold resolve_gateway.
match goal with
| |- context [resolv_addr_to_mac ?e ?s ?i ?a ?b ?c ?d] =>
    destruct (resolv_addr_to_mac e s i a b c d) as [[res dh] t] eqn:Hres
end.
destruct res as [msg|rc| |]; try discriminate.
destruct (rc <? 0); [discriminate|].
intros Heq; inversion Heq; subst args tr; clear Heq.
assert (Hinj : injects t = 1%nat).
{ unfold resolv_addr_to_mac in Hres.
  destruct (pkt_pack _ _) as [len buf].
  destruct (len <? 0); [discriminate|].
  match type of Hres with
  | poll ?e ?s ?x ?y ?i ?c ?k = _ =>
      destruct (poll_trace e s x y i c k) as [n Hn]
  end.
  rewrite Hres in Hn. simpl in Hn. rewrite Hn.
  unfold injects. simpl. f_equal. apply injects_captures. }
destruct (l_gateway_addr l) as [g|] eqn:HG; simpl;
  (split; [exact Hd|]); (split; [exact Hs|]);
  (split; [rewrite Hsc; discriminate|]); (split; [exact Hinj|]);
  exists r, mac; repeat split; auto.
intros Hno. specialize (Hg Hno). discriminate.
Qed.

End WithPlatform.

End MainFacts.

(** ** pktizr.c: the threads can always finish *)

Module LivenessFacts.

Import Pkt Bucket Script Pktizr Threads Schedules ThreadFacts.

Section WithWorkers.

Context `{CD : Codec} `{TB : TokenBucket} {L : Type} `{SH : ScriptHost L}.

Variable args : pktizr_args.

Lemma steps_one s s' : step args s s' -> steps args s s'.
Proof. intros H. exact (steps_step args s s' s' H (steps_refl args s')). Qed.

Lemma steps_trans s1 s2 s3 :
steps args s1 s2 -> steps args s2 s3 -> steps args s1 s3.
Proof.
induction 1 as [|s s' s'' Hstep _ IH]; [auto|].
intros H3. exact (steps_step args s s' s3 Hstep (IH H3)).
Qed.

Lemma steps_invariant s s' :
steps args s s' -> invariant s -> invariant s'.
Proof.
induction 1 as [|s s' s'' Hstep _ IH]; [auto|].
intros Hinv. apply IH. exact (invariant_step args s s' Hinv Hstep).
Qed.

(** The transmitter, once [done] is set, can leave. *)
Lemma send_can_exit s :
sys_done s = true ->
exists s',
  steps args s s' /\ fst (sys_send s') = Send_exit
  /\ sys_main s' = sys_main s /\ sys_done s' = sys_done s
  /\ sys_recv s' = sys_recv s /\ sys_loop s' = sys_loop s.
Proof.
intros Hdone.
assert (Hstep : forall t, sys_done t = true ->
          step args t
            {| sys_done := sys_done t; sys_main := sys_main t;
               sys_loop := sys_loop t;
               sys_send := send_step args done_send (sys_send t);
               sys_recv := sys_recv t |})
  by (intros t Ht; apply step_send; now rewrite Ht).
destruct (sys_send s) as [pc st] eqn:Hs. destruct pc.
- eexists. split; [apply steps_one, (Hstep s Hdone)|].
  rewrite Hs. simpl. auto.
- eexists. split.
  + eapply steps_step; [apply (Hstep s Hdone)|].
    apply steps_one. apply Hstep. exact Hdone.
  + simpl. rewrite Hs. simpl. auto.
- exists s. rewrite Hs. simpl. split; [apply steps_refl|]. auto.
Qed.

(** The receiver, once [done] is set, can leave. *)
Lemma recv_can_exit s :
sys_done s = true ->
exists s',
  steps args s s' /\ fst (sys_recv s') = Exited
  /\ sys_main s' = sys_main s /\ sys_done s' = sys_done s.
Proof.
intros Hdone.
destruct (sys_recv s) as [c st] eqn:Hs. destruct c.
- eexists. split.
  + apply steps_one. apply (step_recv args s done_recv).
    * now rewrite Hs.
    * now rewrite Hdone.
  + simpl. auto.
- exists s. rewrite Hs. split; [apply steps_refl|]. auto.
Qed.

(** The generator can leave: it only has to read [args->stop] set. *)
Lemma loop_can_exit s :
exists s',
  steps args s s' /\ fst (sys_loop s') = Exited
  /\ sys_main s' = sys_main s /\ sys_done s' = sys_done s.
Proof.
destruct (sys_loop s) as [c st] eqn:Hs. destruct c.
- eexists. split.
  + apply steps_one. apply (step_loop args s stop_in). now rewrite Hs.
  + simpl. unfold loop_step. simpl. rewrite andb_false_r. auto.
- exists s. rewrite Hs. split; [apply steps_refl|]. auto.
Qed.

Lemma finish_from_join_send s :
invariant s -> sys_main s = M_join_send ->
exists s', steps args s s' /\ sys_main s' = M_close.
Proof.
intros Hinv Hm.
assert (Hdone : sys_done s = true).
{ destruct Hinv as (Hd & _). rewrite Hd, Hm. reflexivity. }
destruct (send_can_exit s Hdone) as (s1 & H1 & Hex & Hm1 & _).
eexists. split.
- eapply steps_trans; [exact H1|].
  apply steps_one. apply step_join_send; [congruence | exact Hex].
- reflexivity.
Qed.

Lemma finish_from_join_recv s :
invariant s -> sys_main s = M_join_recv ->
exists s', steps args s s' /\ sys_main s' = M_close.
Proof.
intros Hinv Hm.
assert (Hdone : sys_done s = true).
{ destruct Hinv as (Hd & _). rewrite Hd, Hm. reflexivity. }
destruct (recv_can_exit s Hdone) as (s1 & H1 & Hex & Hm1 & _).
assert (Hj : step args s1
          {| sys_done := sys_done s1; sys_main := M_join_send;
             sys_loop := sys_loop s1; sys_send := sys_send s1;
             sys_recv := sys_recv s1 |})
  by (apply step_join_recv; [congruence | exact Hex]).
assert (H2 := steps_trans _ _ _ H1 (steps_one _ _ Hj)).
destruct (finish_from_join_send _ (steps_invariant _ _ H2 Hinv) eq_refl)
  as (s' & H3 & Hc).
exists s'. split; [exact (steps_trans _ _ _ H2 H3) | exact Hc].
Qed.

Lemma finish_from_join_loop s :
invariant s -> sys_main s = M_join_loop ->
exists s', steps args s s' /\ sys_main s' = M_close.
Proof.
intros Hinv Hm.
destruct (loop_can_exit s) as (s1 & H1 & Hex & Hm1 & _).
assert (Hj : step args s1
          {| sys_done := sys_done s1; sys_main := M_set_done;
             sys_loop := sys_loop s1; sys_send := sys_send s1;
             sys_recv := sys_recv s1 |})
  by (apply step_join_loop; [congruence | exact Hex]).
assert (Hd : step args
          {| sys_done := sys_done s1; sys_main := M_set_done;
             sys_loop := sys_loop s1; sys_send := sys_send s1;
             sys_recv := sys_recv s1 |}
          {| sys_done := true; sys_main := M_join_recv;
             sys_loop := sys_loop s1; sys_send := sys_send s1;
             sys_recv := sys_recv s1 |})
  by (apply (step_set_done args
               {| sys_done := sys_done s1; sys_main := M_set_done;
                  sys_loop := sys_loop s1; sys_send := sys_send s1;
                  sys_recv := sys_recv s1 |}); reflexivity).
assert (H2 := steps_trans _ _ _ H1
                (steps_step _ _ _ _ Hj (steps_one _ _ Hd))).
destruct (finish_from_join_recv _ (steps_invariant _ _ H2 Hinv) eq_refl)
  as (s' & H3 & Hc).
exists s'. split; [exact (steps_trans _ _ _ H2 H3) | exact Hc].
Qed.

(** X24: whatever state the four threads have reached, the program can
    still finish: when the generator next reads [args->stop] set (or has
    exhausted its tuples), [main] gets through its three joins, the
    receiver and the transmitter leaving their loops once [args->done]
    is set; at that point all three workers have left their functions. *)
Theorem shutdown_possible s :
reachable args s ->
exists s',
  steps args s s'
  /\ sys_main s' = M_close
  /\ sys_done s' = true
  /\ fst (sys_loop s') = Exited
  /\ fst (sys_recv s') = Exited
  /\ fst (sys_send s') = Send_exit.
Proof.
intros Hreach.
assert (Hinv := invariant_reachable args s Hreach).
assert (Hfin : exists s', steps args s s' /\ sys_main s' = M_close).
{ destruct (sys_main s) eqn:Hm.
  - assert (Hst : step args s
              {| sys_done := sys_done s; sys_main := M_join_loop;
                 sys_loop := sys_loop s; sys_send := sys_send s;
                 sys_recv := sys_recv s |})
      by (now apply step_status).
    destruct (finish_from_join_loop _
                (invariant_step args _ _ Hinv Hst) eq_refl)
      as (s' & H3 & Hc).
    exists s'. split; [exact (steps_step _ _ _ _ Hst H3) | exact Hc].
  - now apply finish_from_join_loop.
  - assert (Hst : step args s
              {| sys_done := true; sys_main := M_join_recv;
                 sys_loop := sys_loop s; sys_send := sys_send s;
                 sys_recv := sys_recv s |})
      by (now apply step_set_done).
    destruct (finish_from_join_recv _
                (invariant_step args _ _ Hinv Hst) eq_refl)
      as (s' & H3 & Hc).
    exists s'. split; [exact (steps_step _ _ _ _ Hst H3) | exact Hc].
  - now apply finish_from_join_recv.
  - now apply finish_from_join_send.
  - exists s. split; [apply steps_refl | exact Hm]. }
destruct Hfin as (s' & Hsteps & Hc).
exists s'. split; [exact Hsteps|]. split; [exact Hc|].
destruct (steps_invariant _ _ Hsteps Hinv)
  as (Hd & Hl & Hr & Hs & _ & _).
rewrite Hc in *. simpl in *. repeat split; auto.
Qed.

End WithWorkers.

End LivenessFacts.

(** ** pktizr.c: the status line *)

Module StatusFacts.

Import Pktizr StatusLine.

Lemma stop_writes_app a b :
  stop_writes (a ++ b) = stop_writes a ++ stop_writes b.
Proof. apply omap_app. Qed.

Lemma sleeps_app a b : sleeps (a ++ b) = sleeps a ++ sleeps b.
Proof. apply omap_app. Qed.

(** How the progress loop ends. *)
Lemma progress_spec quiet tot ins : forall now_old sent_old tr b tr',
  progress quiet tot ins now_old sent_old tr = Some (b, tr') ->
  stop_writes tr' = stop_writes tr ++ (if b then [true] else [])
  /\ (exists k, (k < length ins)%nat
                /\ sleeps tr' = sleeps tr ++ replicate k 250000)
  /\ (if b then exists i, In i ins /\ st_stop i = true
      else exists i, In i ins /\ st_probe i = tot).
Proof.
  induction ins as [|i ins IH]; intros now_old sent_old tr b tr' Hp;
    simpl in Hp; [discriminate|].
  set (tr1 := if quiet then tr else tr ++ _) in Hp.
  assert (Hw : stop_writes tr1 = stop_writes tr)
    by (unfold tr1; destruct quiet;
        rewrite ?stop_writes_app, ?app_nil_r; reflexivity).
  assert (Hs : sleeps tr1 = sleeps tr)
    by (unfold tr1; destruct quiet;
        rewrite ?sleeps_app, ?app_nil_r; reflexivity).
  destruct (Z.eqb_spec (st_probe i) tot) as [Hfin|Hne].
  { inversion Hp; subst b tr'. rewrite Hw, Hs, app_nil_r.
    split; [reflexivity|]. split.
    - exists 0%nat. simpl. rewrite app_nil_r. split; [lia | reflexivity].
    - exists i. split; [now left | exact Hfin]. }
  destruct (st_stop i) eqn:Hstop.
  { inversion Hp; subst b tr'.
    rewrite stop_writes_app, sleeps_app, Hw, Hs. simpl.
    split; [reflexivity|]. split.
    - exists 0%nat. simpl. split; [lia | reflexivity].
    - exists i. split; [now left | exact Hstop]. }
  destruct (IH _ _ _ _ _ Hp) as (Hw' & (k & Hk & Hs') & Hend).
  rewrite stop_writes_app, Hw, app_nil_r in Hw'.
  rewrite sleeps_app, Hs in Hs'. simpl in Hs'.
  split; [exact Hw'|]. split.
  - exists (S k). simpl. split; [lia|].
    rewrite Hs', <- app_assoc. reflexivity.
  - destruct b; destruct Hend as (i0 & Hin & H0); exists i0;
      (split; [now right | exact H0]).
Qed.

Lemma progress_returns quiet tot ins : forall now_old sent_old tr,
  (exists i, In i ins /\ (st_probe i = tot \/ st_stop i = true)) ->
  exists b tr', progress quiet tot ins now_old sent_old tr = Some (b, tr').
Proof.
  induction ins as [|i ins IH]; intros now_old sent_old tr (i0 & Hin & H0);
    [destruct Hin|].
  simpl.
  destruct (Z.eqb_spec (st_probe i) tot); [eauto|].
  destruct (st_stop i) eqn:Hstop; [eauto|].
  apply IH. exists i0. split; [|exact H0].
  destruct Hin as [->|Hin]; [|exact Hin].
  destruct H0; congruence.
Qed.

(** How the wait loop ends. *)
Lemma wait_loop_spec ins : forall wait tr w tr',
  0 <= wait < 2 ^ 64 ->
  wait_loop ins wait tr = Some (w, tr') ->
  0 <= w <= wait
  /\ stop_writes tr' = stop_writes tr
  /\ sleeps tr' = sleeps tr ++ replicate (Z.to_nat (wait - w)) 1000000
  /\ (w = 0 \/ In true ins).
Proof.
  induction ins as [|i ins IH]; intros wait tr w tr' Hw Hl; simpl in Hl.
  - destruct (Z.ltb_spec 0 wait); [discriminate|].
    inversion Hl; subst w tr'.
    rewrite Z.sub_diag. simpl. rewrite app_nil_r.
    repeat split; lia.
  - destruct (Z.ltb_spec 0 wait).
    2:{ inversion Hl; subst w tr'.
        rewrite Z.sub_diag. simpl. rewrite app_nil_r.
        repeat split; lia. }
    destruct i.
    { inversion Hl; subst w tr'.
      rewrite Z.sub_diag. simpl. rewrite app_nil_r.
      repeat split; try lia; right; now left. }
    rewrite wrap64_small in Hl by lia.
    assert (Hw1 : 0 <= wait - 1 < 2 ^ 64) by lia.
    destruct (IH _ _ _ _ Hw1 Hl) as (Hr & Hws & Hsl & Hend).
    rewrite stop_writes_app, app_nil_r in Hws.
    rewrite sleeps_app in Hsl. simpl in Hsl.
    split; [lia|]. split; [exact Hws|]. split.
    + rewrite Hsl, <- app_assoc. f_equal.
      replace (Z.to_nat (wait - w)) with (S (Z.to_nat (wait - 1 - w)))
        by lia.
      reflexivity.
    + destruct Hend; [now left | right; now right].
Qed.

Lemma wait_loop_returns ins : forall wait tr,
  0 <= wait < 2 ^ 64 ->
  (Z.to_nat wait <= length ins)%nat ->
  exists w tr', wait_loop ins wait tr = Some (w, tr').
Proof.
  induction ins as [|i ins IH]; intros wait tr Hw Hlen; simpl in *.
  - destruct (Z.ltb_spec 0 wait); [lia | eauto].
  - destruct (Z.ltb_spec 0 wait); [|eauto].
    destruct i; [eauto|].
    rewrite wrap64_small by lia. apply IH; lia.
Qed.

(** X25: when [status_line] returns, [args->stop] is set and nothing
    else of the record has changed but [args->wait], which went down by
    one per second slept.  [args->stop] was written two or three times:
    set at once when a signal was seen during the progress display, then
    cleared, then set at the very end.  The wait lasts [args->wait]
    seconds unless a signal is seen during the wait itself: a signal
    seen during the progress display does not shorten it. *)
Theorem status_line_writes args tot now0 sent0 pins wins a tr :
  0 <= wait args < 2 ^ 64 ->
  status_line args tot now0 sent0 pins wins = Some (a, tr) ->
  a = set_stop true (set_wait (wait a) args)
  /\ 0 <= wait a <= wait args
  /\ (wait a = 0 \/ In true wins)
  /\ exists (b : bool) k,
       stop_writes tr = (if b then [true] else []) ++ [false; true]
       /\ sleeps tr
          = replicate k 250000
            ++ replicate (Z.to_nat (wait args - wait a)) 1000000
       /\ (k < length pins)%nat
       /\ (if b then exists i, In i pins /\ st_stop i = true
           else exists i, In i pins /\ st_probe i = tot).
Proof.
  intros Hw Hst. unfold status_line in Hst.
  destruct (progress _ _ _ _ _ _) as [[b tr1]|] eqn:Hp; [|discriminate].
  destruct (wait_loop _ _ _) as [[w tr2]|] eqn:Hl; [|discriminate].
  inversion Hst; subst a tr; clear Hst. simpl.
  destruct (progress_spec _ _ _ _ _ _ _ _ Hp) as (Hw1 & (k & Hk & Hs1) & He).
  destruct (wait_loop_spec _ _ _ _ _ Hw Hl) as (Hr & Hw2 & Hs2 & Hend).
  split; [reflexivity|]. split; [exact Hr|]. split; [exact Hend|].
  exists b, k.
  rewrite stop_writes_app, sleeps_app, Hw2, Hs2.
  rewrite stop_writes_app, sleeps_app, Hw1, Hs1. simpl.
  rewrite !app_nil_r, <- !app_assoc.
  repeat split; try assumption; now destruct b.
Qed.

(** X26: [status_line] returns as soon as the progress loop has seen the
    last probe go out or a signal, and the wait loop has had its
    [args->wait] turns. *)
Theorem status_line_returns args tot now0 sent0 pins wins :
  0 <= wait args < 2 ^ 64 ->
  (exists i, In i pins /\ (st_probe i = tot \/ st_stop i = true)) ->
  (Z.to_nat (wait args) <= length wins)%nat ->
  exists a tr, status_line args tot now0 sent0 pins wins = Some (a, tr).
Proof.
  intros Hw Hp Hl. unfold status_line.
  destruct (progress_returns (quiet args) tot pins now0 sent0
              [St_cursor_hide] Hp) as (b & tr1 & ->).
  destruct (wait_loop_returns wins (wait args) (tr1 ++ [St_args_stop false])
              Hw Hl) as (w & tr2 & ->).
  eauto.
Qed.

End StatusFacts.

(** ** lpack.c: str_pack and str_unpack *)

Module LPackFormatFacts.

Import LPack LPackFacts LPackOptions LPackFormat LPackFields.
Import LPackOptionFacts.

Section WithLua.

Context `{CT : CTypes} `{LA : LuaAPI}.

(** *** The format is consumed *)

Lemma getnum_loop_length fmt : forall a v rest,
getnum_loop fmt a = (v, rest) ->
(String.length rest <= String.length fmt)%nat.
Proof.
induction fmt as [|c fmt IH]; intros a v rest Hl; simpl in Hl.
- inversion Hl. simpl. lia.
- destruct (digit (peek fmt) && _).
  + apply IH in Hl. simpl. lia.
  + inversion Hl. simpl. lia.
Qed.

Lemma getnum_length fmt df v rest :
getnum fmt df = (v, rest) ->
(String.length rest <= String.length fmt)%nat.
Proof.
unfold getnum. destruct (negb (digit (peek fmt))).
- intros Heq; inversion Heq. lia.
- apply getnum_loop_length.
Qed.

Lemma getnumlimit_facts fmt df sz rest :
getnumlimit fmt df = inr (sz, rest) ->
1 <= sz <= MAXINTSIZE
/\ (String.length rest <= String.length fmt)%nat.
Proof.
intros Hl. split; [exact (getnumlimit_range _ _ _ _ Hl)|].
unfold getnumlimit in Hl.
destruct (getnum fmt df) as [v r] eqn:Hg.
destruct ((MAXINTSIZE <? v) || (v <=? 0)); [discriminate|].
inversion Hl; subst. exact (getnum_length _ _ _ _ Hg).
Qed.

(** The size of a [c] option: a numeral has to be there. *)
Lemma getnum_char fmt sz rest :
2 <= SZ_int -> 1 <= SZ_size_t ->
getnum fmt (-1) = (sz, rest) -> sz <> -1 ->
0 <= sz <= MAXSIZE
/\ (String.length rest <= String.length fmt)%nat.
Proof.
intros Hi Hs Hg Hne. split; [|exact (getnum_length _ _ _ _ Hg)].
unfold getnum in Hg.
destruct (digit (peek fmt)) eqn:Hd; simpl in Hg.
- assert (Hm := MAXSIZE_range Hi Hs).
  assert (H0 : 0 <= 0 <= (MAXSIZE - 9) / 10)
    by (split; [lia | apply Z.div_pos; lia]).
  destruct (getnum_loop_spec fmt 0 sz rest Hi Hs H0 Hd Hg)
    as (ds & _ & _ & _ & _ & Hr & _).
  exact Hr.
- inversion Hg. lia.
Qed.

Lemma getoption_shape h fmt opt size h' rest :
1 <= SZ_short -> 2 <= SZ_int -> 1 <= SZ_long -> 1 <= SZ_size_t ->
1 <= SZINT ->
getoption h fmt = inr (opt, size, h', rest) ->
(String.length rest < String.length fmt)%nat
/\ size_of_kind opt size.
Proof.
intros Hsh Hi Hlo Hst Hsz.
destruct fmt as [|c fmt]; [discriminate|]. simpl.
destruct c as [[] [] [] [] [] [] [] []]; try discriminate;
  repeat match goal with
  | |- context [getnumlimit ?f ?d] =>
      let E := fresh "E" in
      destruct (getnumlimit f d) as [?|[? ?]] eqn:E;
      [discriminate | apply getnumlimit_facts in E; destruct E]
  | |- context [getnum ?f ?d] =>
      let E := fresh "E" in
      destruct (getnum f d) as [? ?] eqn:E
  | |- context [?a =? ?b] =>
      let N := fresh "N" in
      destruct (Z.eqb_spec a b) as [|N]; [discriminate|];
      match goal with
      | E : getnum _ _ = _ |- _ =>
          apply getnum_char in E; [destruct E | lia | lia | exact N]
      end
  end;
  intros Heq; inversion Heq; subst; simpl;
  (split; [lia | auto; try lia]).
Qed.

Lemma getdetails_shape h totalsize fmt opt size ntoalign h' rest :
1 <= SZ_short -> 2 <= SZ_int -> 1 <= SZ_long -> 1 <= SZ_size_t ->
1 <= SZINT ->
0 <= totalsize ->
1 <= maxalign h <= MAXINTSIZE ->
getdetails h totalsize fmt = inr (opt, size, ntoalign, h', rest) ->
(String.length rest < String.length fmt)%nat
/\ size_of_kind opt size
/\ 1 <= maxalign h' <= MAXINTSIZE
/\ 0 <= ntoalign < MAXINTSIZE
/\ (opt = Kchar -> ntoalign = 0).
Proof.
intros Hsh Hi Hlo Hst Hsz Ht Hmax Hget. unfold getdetails in Hget.
destruct (getoption h fmt) as [|[[[opt1 size1] h1] fmt1]] eqn:Hopt;
  [discriminate|].
destruct (getoption_header _ _ _ _ _ _ Hopt) as [_ Hm1].
specialize (Hm1 Hmax).
destruct (getoption_shape _ _ _ _ _ _ Hsh Hi Hlo Hst Hsz Hopt)
  as [Hlen1 Hkind1].
assert (Hal : forall hh align n,
          1 <= maxalign hh <= MAXINTSIZE ->
          alignment hh opt1 totalsize align = inr n ->
          0 <= n < MAXINTSIZE /\ (opt1 = Kchar -> n = 0)).
{ intros hh align n Hm Ha.
  assert (Hi1 : 1 <= SZ_int) by lia.
  apply (alignment_spec _ _ _ _ _ Hi1 Ht Hm) in Ha.
  destruct ((align <=? 1) || KOption_eqb opt1 Kchar) eqn:Hskip.
  - subst n. unfold MAXINTSIZE. split; [lia | auto].
  - cbv zeta in Ha. split; [lia|]. intros ->.
    rewrite orb_true_r in Hskip. discriminate. }
destruct (KOption_eqb opt1 Kpaddalign) eqn:HX.
- destruct (peek fmt1 =? 0); [discriminate|].
  destruct (getoption h1 fmt1) as [|[[[opt2 align] h2] fmt2]] eqn:Hopt2;
    [discriminate|].
  destruct (KOption_eqb opt2 Kchar || (align =? 0)); [discriminate|].
  destruct (getoption_header _ _ _ _ _ _ Hopt2) as [_ Hm2].
  specialize (Hm2 Hm1).
  destruct (getoption_shape _ _ _ _ _ _ Hsh Hi Hlo Hst Hsz Hopt2)
    as [Hlen2 _].
  destruct (alignment h2 opt1 totalsize align) as [|n] eqn:Ha;
    [discriminate|].
  inversion Hget; subst.
  destruct (Hal _ _ _ Hm2 Ha) as [Hn Hc].
  repeat split; try assumption; try lia.
- destruct (alignment h1 opt1 totalsize size1) as [|n] eqn:Ha;
    [discriminate|].
  inversion Hget; subst.
  destruct (Hal _ _ _ Hm1 Ha) as [Hn Hc].
  repeat split; try assumption; try lia.
Qed.

(** *** Both functions return *)

Lemma getoption_length h fmt opt size h' rest :
getoption h fmt = inr (opt, size, h', rest) ->
(String.length rest < String.length fmt)%nat.
Proof.
destruct fmt as [|c fmt]; [discriminate|]. simpl.
destruct c as [[] [] [] [] [] [] [] []]; try discriminate;
  repeat match goal with
  | |- context [getnumlimit ?f ?d] =>
      let E := fresh "E" in
      destruct (getnumlimit f d) as [?|[? ?]] eqn:E;
      [discriminate | apply getnumlimit_facts in E; destruct E]
  | |- context [getnum ?f ?d] =>
      let E := fresh "E" in
      destruct (getnum f d) as [? ?] eqn:E;
      apply getnum_length in E
  | |- context [?a =? ?b] => destruct (a =? b); [discriminate|]
  end;
  intros Heq; inversion Heq; subst; simpl; lia.
Qed.

Lemma getdetails_length h totalsize fmt opt size ntoalign h' rest :
getdetails h totalsize fmt = inr (opt, size, ntoalign, h', rest) ->
(String.length rest < String.length fmt)%nat.
Proof.
intros Hget. unfold getdetails in Hget.
destruct (getoption h fmt) as [|[[[opt1 size1] h1] fmt1]] eqn:Hopt;
  [discriminate|].
apply getoption_length in Hopt.
destruct (KOption_eqb opt1 Kpaddalign).
- destruct (peek fmt1 =? 0); [discriminate|].
  destruct (getoption h1 fmt1) as [|[[[opt2 align] h2] fmt2]] eqn:Hopt2;
    [discriminate|].
  apply getoption_length in Hopt2.
  destruct (KOption_eqb opt2 Kchar || (align =? 0)); [discriminate|].
  destruct (alignment h2 opt1 totalsize align); [discriminate|].
  inversion Hget; subst. lia.
- destruct (alignment h1 opt1 totalsize size1); [discriminate|].
  inversion Hget; subst. lia.
Qed.

Lemma pack_loop_returns fuel : forall h fmt args arg totalsize b,
(String.length fmt <= fuel)%nat ->
pack_loop fuel h fmt args arg totalsize b <> None.
Proof.
induction fuel as [|fuel IH]; intros h fmt args arg totalsize b Hf.
- destruct fmt; [|simpl in Hf; lia]. discriminate.
- simpl. destruct (peek fmt =? 0); [discriminate|].
  destruct (getdetails h totalsize fmt)
    as [|[[[[opt size] ntoalign] h'] rest]] eqn:Hg; [discriminate|].
  apply getdetails_length in Hg.
  destruct (pack_option _ _ _ _ _) as [|[[bytes arg'] more]];
    [discriminate|].
  apply IH. lia.
Qed.

Lemma unpack_loop_returns fuel : forall h fmt data ld pos res,
(String.length fmt <= fuel)%nat ->
unpack_loop fuel h fmt data ld pos res <> None.
Proof.
induction fuel as [|fuel IH]; intros h fmt data ld pos res Hf.
- destruct fmt; [|simpl in Hf; lia]. discriminate.
- simpl. destruct (peek fmt =? 0); [discriminate|].
  destruct (getdetails h pos fmt)
    as [|[[[[opt size] ntoalign] h'] rest]] eqn:Hg; [discriminate|].
  apply getdetails_length in Hg.
  destruct (_ || _); [discriminate|].
  destruct (negb _); [discriminate|].
  destruct (unpack_option _ _ _ _ _ _) as [|[v pos']];
    [discriminate|].
  apply IH. lia.
Qed.


(** *** Packing and unpacking again *)

Lemma to_size_t_small x :
0 <= x < 2 ^ (8 * SZ_size_t) -> to_size_t x = x.
Proof. intros Hx. unfold to_size_t. now apply Z.mod_small. Qed.

Lemma INT_MAX_fits :
usual_sizes ->
0 < INT_MAX
/\ INT_MAX < 2 ^ (8 * SZ_size_t)
/\ INT_MAX < 2 ^ (NB * SZINT - 1)
/\ MAXSIZE <= INT_MAX.
Proof.
intros (Hsh & Hi & Hlo & Hf & Hd & Hn & Hst & Hsz).
assert (Hm := MAXSIZE_range Hi ltac:(lia)).
unfold INT_MAX in *.
assert (H1 : 2 ^ (8 * SZ_int - 1) <= 2 ^ (8 * SZ_size_t - 1))
  by (apply Z.pow_le_mono_r; lia).
assert (H2 : 2 ^ (8 * SZ_int - 1) <= 2 ^ (NB * SZINT - 1))
  by (apply Z.pow_le_mono_r; unfold NB; lia).
assert (H3 : 2 ^ (8 * SZ_size_t - 1) < 2 ^ (8 * SZ_size_t))
  by (apply Z.pow_lt_mono_r; lia).
assert (H4 : 2 ^ 15 <= 2 ^ (8 * SZ_int - 1))
  by (apply Z.pow_le_mono_r; lia).
repeat split; lia.
Qed.

Lemma check_inv {A : Type} (f : value -> option A) args (k : nat) x :
check f args (Z.of_nat k + 2) = inr x ->
exists a, args !! k = Some a /\ f a = Some x.
Proof.
unfold check.
replace (Z.to_nat (Z.of_nat k + 2 - 2)) with k by lia.
destruct (args !! k) as [a|]; [|discriminate].
destruct (f a) as [y|] eqn:Hf; [|discriminate].
intros Heq; inversion Heq; subst. now exists a.
Qed.

Lemma strlen_app s t :
strlen s = Z.of_nat (length s) ->
strlen (s ++ 0 :: t) = Z.of_nat (length s).
Proof.
induction s as [|c s IH]; intros Hs; [reflexivity|].
simpl in *. destruct (Z.eqb_spec c 0); [lia|].
rewrite IH; lia.
Qed.

Lemma strlen_bound s : 0 <= strlen s <= Z.of_nat (length s).
Proof.
induction s as [|c s IH]; simpl; [lia|].
destruct (c =? 0); lia.
Qed.

(** One option: what [str_pack] appends for it is what [str_unpack]
  reads for it. *)
Lemma option_roundtrip h opt size args (k : nat) bytes arg' more pre tail :
usual_sizes -> lawful_api ->
size_of_kind opt size ->
pack_option h opt size args (Z.of_nat k + 2) = inr (bytes, arg', more) ->
Z.of_nat (length (pre ++ bytes ++ tail)) < INT_MAX ->
0 <= more /\ Z.of_nat (length bytes) = size + more
/\ exists v pos',
     unpack_option h opt size (pre ++ bytes ++ tail)
       (Z.of_nat (length (pre ++ bytes ++ tail)))
       (Z.of_nat (length pre)) = inr (v, pos')
     /\ pos' + size = Z.of_nat (length pre) + Z.of_nat (length bytes)
     /\ match v with
        | Some v =>
            arg' = Z.of_nat k + 2
            /\ exists a, args !! k = Some a /\ unpacks_to a v
        | None => arg' = Z.of_nat k + 1
        end.
Proof.
intros Hsizes Hlaw Hkind Hpack Hld.
destruct (INT_MAX_fits Hsizes) as (Hmax0 & Hmaxt & Hmaxi & Hmaxs).
destruct Hsizes as (Hsh & Hi & Hlo & Hf & Hd & Hn & Hst & Hsz).
destruct Hlaw as (Hint & Hun & Hsf & Hsd & Hsn & Hstack).
assert (Hszpos : 0 < SZINT) by lia.
set (ld := Z.of_nat (length (pre ++ bytes ++ tail))) in *.
assert (Hldv : ld = Z.of_nat (length pre) + Z.of_nat (length bytes)
                    + Z.of_nat (length tail))
  by (unfold ld; rewrite !length_app; lia).
clearbody ld.
unfold unpack_option.
replace (Z.to_nat (Z.of_nat (length pre))) with (length pre) by lia.
rewrite drop_app_length.
destruct opt; simpl in Hkind; unfold pack_option in Hpack.
- (* Kint *)
  destruct (check checkinteger args _) as [|n] eqn:Hc; [discriminate|].
  apply check_inv in Hc as (a & Ha & Hn').
  destruct (Hint _ _ Hn') as [Hlo' Hhi'].
  destruct ((size <? SZINT) && _) eqn:Hchk; [discriminate|].
  inversion Hpack; subst bytes arg' more; clear Hpack.
  rewrite length_packint, Hun in *.
  split; [lia|]. split; [lia|].
  rewrite (unpackint_app SZINT Hszpos)
    by (rewrite length_packint, Hun; reflexivity).
  change (KOption_eqb Kint Kint) with true.
  assert (Hrep : size < SZINT -> representable SZINT true size n).
  { intros Hnarrow. unfold representable.
    destruct (Z.ltb_spec size SZINT); [|lia]. simpl in Hchk.
    apply negb_false_iff, andb_true_iff in Hchk as [H1 H2].
    apply Z.leb_le in H1. apply Z.ltb_lt in H2.
    rewrite (Z.mul_comm NB size). lia. }
  pose proof (packint_unpackint_item SZINT Hszpos (uninit size) n
                (islittle h) size true Hkind (Hun size)
                (conj Hlo' Hhi') Hrep) as Hrt.
  cbn [andb] in Hrt. rewrite Hrt.
  eexists _, _. split; [reflexivity|]. split; [lia|].
  split; [reflexivity|]. exists a. split; [exact Ha|].
  left. now exists n.
- (* Kuint *)
  destruct (check checkinteger args _) as [|n] eqn:Hc; [discriminate|].
  apply check_inv in Hc as (a & Ha & Hn').
  destruct (Hint _ _ Hn') as [Hlo' Hhi'].
  destruct ((size <? SZINT) && _) eqn:Hchk; [discriminate|].
  inversion Hpack; subst bytes arg' more; clear Hpack.
  rewrite length_packint, Hun in *.
  split; [lia|]. split; [lia|].
  rewrite (unpackint_app SZINT Hszpos)
    by (rewrite length_packint, Hun; reflexivity).
  change (KOption_eqb Kuint Kint) with false.
  assert (Hrep : size < SZINT -> representable SZINT false size n).
  { intros Hnarrow. unfold representable.
    destruct (Z.ltb_spec size SZINT); [|lia]. simpl in Hchk.
    apply negb_false_iff, Z.ltb_lt in Hchk.
    assert (Hu := to_unsigned_range SZINT Hszpos n).
    rewrite (Z.mul_comm NB size). lia. }
  pose proof (packint_unpackint_item SZINT Hszpos (uninit size) n
                (islittle h) size false Hkind (Hun size)
                (conj Hlo' Hhi') Hrep) as Hrt.
  cbn [andb] in Hrt. rewrite Hrt.
  eexists _, _. split; [reflexivity|]. split; [lia|].
  split; [reflexivity|]. exists a. split; [exact Ha|].
  left. now exists n.
- (* Kfloat *)
  destruct (check checknumber args _) as [|x] eqn:Hc; [discriminate|].
  apply check_inv in Hc as (a & Ha & Hx).
  inversion Hpack; subst bytes arg' more; clear Hpack.
  set (u := if size =? SZ_float then store_float x
            else if size =? SZ_double then store_double x
            else store_number x) in *.
  assert (Hu : length u = Z.to_nat size).
  { unfold u. destruct (Z.eqb_spec size SZ_float) as [-> | ];
      [apply Hsf|].
    destruct (Z.eqb_spec size SZ_double) as [-> | ]; [apply Hsd|].
    destruct Hkind as [|[| ->]]; try contradiction. apply Hsn. }
  assert (Hb : copywithendian (uninit size) u size (islittle h)
               = if Bool.eqb (islittle h) native_little then u
                 else reverse u).
  { rewrite copywithendian_eq by (rewrite ?Hun, ?Hu; lia).
    now rewrite take_ge by lia. }
  assert (Hbl : length (copywithendian (uninit size) u size (islittle h))
                = Z.to_nat size).
  { rewrite Hb. destruct (Bool.eqb _ _); rewrite ?length_reverse;
      exact Hu. }
  rewrite Hbl in *. split; [lia|]. split; [lia|].
  eexists _, _. split; [reflexivity|]. split; [lia|].
  split; [reflexivity|]. exists a. split; [exact Ha|].
  right; right. exists x, size. split; [exact Hx|]. f_equal.
  rewrite (copywithendian_eq (uninit size))
    by (rewrite ?Hun, ?length_app, ?Hbl; lia).
  rewrite take_app_length' by (symmetry; exact Hbl).
  rewrite Hb.
  replace (if Bool.eqb (islittle h) native_little
           then if Bool.eqb (islittle h) native_little then u
                else reverse u
           else reverse (if Bool.eqb (islittle h) native_little then u
                         else reverse u)) with u
    by (destruct (Bool.eqb _ _); [|rewrite reverse_involutive];
        reflexivity).
  unfold through_float, u.
  destruct (size =? SZ_float); [reflexivity|].
  destruct (size =? SZ_double); reflexivity.
- (* Kchar *)
  destruct (check checklstring args _) as [|s] eqn:Hc; [discriminate|].
  apply check_inv in Hc as (a & Ha & Hs).
  rewrite to_size_t_small in Hpack by lia.
  destruct (Z.eqb_spec (Z.of_nat (length s)) size) as [Hlen|];
    [|discriminate]. simpl in Hpack.
  inversion Hpack; subst bytes arg' more; clear Hpack.
  rewrite take_ge in * by lia.
  split; [lia|]. split; [lia|].
  eexists _, _. split; [reflexivity|]. split; [lia|].
  split; [reflexivity|]. exists a. split; [exact Ha|].
  right; left. exists s. split; [exact Hs|]. f_equal.
  apply take_app_length'. lia.
- (* Kstring *)
  destruct (check checklstring args _) as [|s] eqn:Hc; [discriminate|].
  apply check_inv in Hc as (a & Ha & Hs).
  destruct ((SZ_size_t <=? size) || _) eqn:Hchk; [|discriminate].
  simpl in Hpack.
  inversion Hpack; subst bytes arg' more; clear Hpack.
  set (len := Z.of_nat (length s)) in *.
  rewrite !length_app, length_packint, Hun in *.
  split; [lia|]. split; [lia|].
  rewrite <- app_assoc.
  rewrite (unpackint_app SZINT Hszpos)
    by (rewrite length_packint, Hun; reflexivity).
  assert (Hlen : - 2 ^ (NB * SZINT - 1) <= len < 2 ^ (NB * SZINT - 1))
    by lia.
  assert (Hrep : size < SZINT -> representable SZINT false size len).
  { intros Hnarrow. unfold representable.
    unfold to_unsigned. rewrite Z.mod_small
      by (split; [lia|];
          assert (2 ^ (NB * SZINT - 1) < 2 ^ (NB * SZINT))
            by (apply Z.pow_lt_mono_r; unfold NB; lia); lia).
    split; [lia|].
    apply orb_true_iff in Hchk as [Hbig|Hfit].
    - apply Z.leb_le in Hbig.
      assert (2 ^ (8 * SZ_int - 1) <= 2 ^ (NB * size))
        by (apply Z.pow_le_mono_r; unfold NB; lia).
      unfold INT_MAX in *. lia.
    - apply Z.ltb_lt in Hfit. rewrite (Z.mul_comm NB size). exact Hfit. }
  pose proof (packint_unpackint_item SZINT Hszpos (uninit size) len
                (islittle h) size false Hkind (Hun size) Hlen Hrep)
    as Hrt.
  cbn [andb] in Hrt. rewrite Hrt.
  rewrite (to_size_t_small len) by lia.
  rewrite to_size_t_small by lia.
  destruct (Z.leb_spec (Z.of_nat (length pre) + len + size) ld);
    [|lia]. simpl.
  destruct (Z.ltb_spec ld (Z.of_nat (length pre) + size + len)); [lia|].
  rewrite to_size_t_small by lia.
  eexists _, _. split; [reflexivity|]. split; [lia|].
  split; [reflexivity|]. exists a. split; [exact Ha|].
  right; left. exists s. split; [exact Hs|]. f_equal.
  rewrite (app_assoc pre).
  replace (Z.to_nat (Z.of_nat (length pre) + size))
    with (length (pre ++ packint SZINT (uninit size)
                           (to_unsigned SZINT len) (islittle h) size
                           false))
    by (rewrite length_app, length_packint, Hun; lia).
  rewrite drop_app_length.
  apply take_app_length'. unfold len. lia.
- (* Kzstr *)
  destruct (check checklstring args _) as [|s] eqn:Hc; [discriminate|].
  apply check_inv in Hc as (a & Ha & Hs).
  destruct (Z.eqb_spec (strlen s) (Z.of_nat (length s))) as [Hz|];
    [|discriminate]. simpl in Hpack.
  inversion Hpack; subst bytes arg' more size; clear Hpack.
  rewrite !length_app in *. simpl length in *.
  split; [lia|]. split; [lia|].
  rewrite <- app_assoc. simpl app.
  rewrite strlen_app by exact Hz.
  rewrite to_int_small by (unfold INT_MAX in *; lia).
  rewrite (to_size_t_small (Z.of_nat (length s))) by lia.
  destruct (Z.ltb_spec ld
              (Z.of_nat (length pre) + Z.of_nat (length s))); [lia|].
  rewrite to_size_t_small by lia.
  eexists _, _. split; [reflexivity|]. split; [lia|].
  split; [reflexivity|]. exists a. split; [exact Ha|].
  right; left. exists s. split; [exact Hs|]. f_equal.
  apply take_app_length'. lia.
- (* Kpadding *)
  inversion Hpack; subst bytes arg' more size; clear Hpack.
  split; [lia|]. split; [reflexivity|].
  eexists _, _. split; [reflexivity|]. simpl. split; lia.
- (* Kpaddalign *)
  inversion Hpack; subst bytes arg' more size; clear Hpack.
  split; [lia|]. split; [reflexivity|].
  eexists _, _. split; [reflexivity|]. simpl. split; lia.
- (* Knop *)
  inversion Hpack; subst bytes arg' more size; clear Hpack.
  split; [lia|]. split; [reflexivity|].
  eexists _, _. split; [reflexivity|]. simpl. split; lia.
Qed.

(** [str_pack] only appends to its buffer. *)
Lemma pack_loop_prefix fuel : forall h fmt args arg totalsize b data,
pack_loop fuel h fmt args arg totalsize b = Some (inr data) ->
exists tail, data = b ++ tail.
Proof.
induction fuel as [|fuel IH]; intros h fmt args arg totalsize b data Hp;
  simpl in Hp.
- destruct (peek fmt =? 0); [|discriminate].
  inversion Hp. exists []. now rewrite app_nil_r.
- destruct (peek fmt =? 0).
  { inversion Hp. exists []. now rewrite app_nil_r. }
  destruct (getdetails h totalsize fmt)
    as [|[[[[opt size] ntoalign] h'] rest]]; [discriminate|].
  destruct (pack_option _ _ _ _ _) as [|[[bytes arg'] more]];
    [discriminate|].
  apply IH in Hp as [tail Ht].
  exists (replicate (Z.to_nat ntoalign) LUA_PACKPADBYTE ++ bytes ++ tail).
  rewrite Ht, <- !app_assoc. reflexivity.
Qed.

Lemma roundtrip_loop args fuel : forall h fmt (k : nat) b data fuel2 res,
usual_sizes -> lawful_api ->
1 <= maxalign h <= MAXINTSIZE ->
Z.of_nat (length data) < INT_MAX ->
pack_loop fuel h fmt args (Z.of_nat k + 1) (Z.of_nat (length b)) b
= Some (inr data) ->
(String.length fmt <= fuel2)%nat ->
Forall2 unpacks_to (take k args) res -> length res = k ->
exists res',
  unpack_loop fuel2 h fmt data (Z.of_nat (length data))
    (Z.of_nat (length b)) res
  = Some (inr (res' ++ [pushinteger (Z.of_nat (length data) + 1)]))
  /\ Forall2 unpacks_to (take (length res') args) res'.
Proof.
induction fuel as [|fuel IH];
  intros h fmt k b data fuel2 res Hsizes Hlaw Hmax Hld Hp Hf2 Hres Hk.
- simpl in Hp.
  destruct (peek fmt =? 0) eqn:Hend; [|discriminate].
  inversion Hp; subst data.
  destruct (INT_MAX_fits Hsizes) as (Hmax0 & Hmaxt & Hmaxi & _).
  exists res. split; [|now rewrite Hk].
  destruct fuel2; simpl; rewrite Hend;
    rewrite to_size_t_small by lia;
    rewrite to_integer_small by (destruct Hsizes; lia);
    reflexivity.
- simpl in Hp.
  destruct (INT_MAX_fits Hsizes) as (Hmax0 & Hmaxt & Hmaxi & _).
  assert (Hszpos : 0 < SZINT) by (destruct Hsizes; lia).
  destruct (peek fmt =? 0) eqn:Hend.
  { inversion Hp; subst data.
    exists res. split; [|now rewrite Hk].
    destruct fuel2; simpl; rewrite Hend;
      rewrite to_size_t_small by lia;
      rewrite to_integer_small by lia;
      reflexivity. }
  destruct (getdetails h (Z.of_nat (length b)) fmt)
    as [|[[[[opt size] ntoalign] h'] rest]] eqn:Hg; [discriminate|].
  assert (Hshape := Hg).
  apply getdetails_shape in Hshape;
    try (destruct Hsizes as (? & ? & ? & ? & ? & ? & ? & ?); lia).
  destruct Hshape as (Hlen & Hkind & Hmax' & Hpad & _).
  set (pad := replicate (Z.to_nat ntoalign) LUA_PACKPADBYTE) in *.
  replace (Z.of_nat k + 1 + 1) with (Z.of_nat k + 2) in Hp by lia.
  destruct (pack_option h' opt size args (Z.of_nat k + 2))
    as [|[[bytes arg'] more]] eqn:Hopt; [discriminate|].
  destruct (pack_loop_prefix _ _ _ _ _ _ _ _ Hp) as [tail Hdata].
  assert (Hdata' : data = (b ++ pad) ++ bytes ++ tail)
    by (rewrite Hdata, <- !app_assoc; reflexivity).
  assert (Hpadl : Z.of_nat (length pad) = ntoalign)
    by (unfold pad; rewrite length_replicate; lia).
  assert (Hld' : Z.of_nat (length ((b ++ pad) ++ bytes ++ tail)) < INT_MAX)
    by (rewrite <- Hdata'; exact Hld).
  destruct (option_roundtrip h' opt size args k bytes arg' more
              (b ++ pad) tail Hsizes Hlaw Hkind Hopt Hld')
    as (Hmore & Hbl & v & pos' & Hun & Hpos & Hv).
  rewrite <- Hdata' in Hun.
  assert (Hall : Z.of_nat (length data)
                 = Z.of_nat (length b) + ntoalign
                   + Z.of_nat (length bytes) + Z.of_nat (length tail))
    by (rewrite Hdata', !length_app; lia).
  assert (Hsize : 0 <= size)
    by (destruct opt; simpl in Hkind;
        destruct Hsizes as (? & ? & ? & ? & ? & ? & ? & ?); lia).
  (* the state [str_pack] goes on with *)
  rewrite (to_size_t_small (Z.of_nat (length b) + (ntoalign + size)))
    in Hp by lia.
  rewrite to_size_t_small in Hp by lia.
  replace (Z.of_nat (length b) + (ntoalign + size) + more)
    with (Z.of_nat (length ((b ++ pad) ++ bytes))) in Hp
    by (rewrite !length_app; lia).
  (* the turn of [str_unpack] *)
  destruct fuel2 as [|fuel2]; [simpl in Hf2; lia|].
  simpl unpack_loop. rewrite Hend, Hg.
  rewrite (to_size_t_small (ntoalign + size)) by lia.
  rewrite (to_size_t_small (Z.of_nat (length b) + ntoalign + size))
    by lia.
  destruct (Z.ltb_spec (2 ^ (8 * SZ_size_t) - 1 - Z.of_nat (length b))
              (ntoalign + size)); [lia|].
  destruct (Z.ltb_spec (Z.of_nat (length data))
              (Z.of_nat (length b) + ntoalign + size)); [lia|].
  simpl orb. cbv iota.
  rewrite to_size_t_small by lia.
  pose proof Hlaw as (Hint & Hunl & Hsf & Hsd & Hsn & Hstack).
  rewrite Hstack. simpl negb. cbv iota.
  replace (Z.of_nat (length b) + ntoalign)
    with (Z.of_nat (length (b ++ pad))) by (rewrite length_app; lia).
  rewrite Hun, Hpos.
  rewrite to_size_t_small by (rewrite length_app; lia).
  replace (Z.of_nat (length (b ++ pad)) + Z.of_nat (length bytes))
    with (Z.of_nat (length ((b ++ pad) ++ bytes)))
    by (rewrite (length_app (b ++ pad)); lia).
  destruct v as [v|].
  + destruct Hv as (-> & a & Ha & Hav).
    replace (Z.of_nat k + 2) with (Z.of_nat (S k) + 1) in Hp by lia.
    apply (IH h' rest (S k) ((b ++ pad) ++ bytes) data fuel2
             (res ++ [v]) Hsizes Hlaw Hmax' Hld Hp).
    * simpl in Hf2. lia.
    * rewrite (take_S_r _ _ _ Ha). apply Forall2_app; [exact Hres|].
      constructor; [exact Hav | constructor].
    * rewrite length_app. simpl. lia.
  + subst arg'.
    apply (IH h' rest k ((b ++ pad) ++ bytes) data fuel2
             res Hsizes Hlaw Hmax' Hld Hp).
    * simpl in Hf2. lia.
    * exact Hres.
    * exact Hk.
Qed.


(** X29: [str_unpack] reads no byte beyond the data string for an option
    whose field lies inside it, as long as the string is shorter than
    [INT_MAX] and the length prefix of an [s] option is narrower than
    [size_t] and [lua_Integer]: the length the prefix announces is then
    checked against the end of the string without overflow. *)
Theorem unpack_option_in_bounds h opt size data pos :
usual_sizes ->
Forall (fun b => 0 <= b < 256) data ->
Z.of_nat (length data) < INT_MAX ->
0 <= pos -> 0 <= size -> pos + size <= Z.of_nat (length data) ->
(opt = Kstring -> 1 <= size < Z.min SZ_size_t SZINT) ->
unpack_option h opt size data (Z.of_nat (length data)) pos
<> inl Read_beyond_data.
Proof.
intros Hsizes Hbytes Hld Hpos Hsize Hfield Hs.
destruct (INT_MAX_fits Hsizes) as (Hmax0 & Hmaxt & Hmaxi & _).
destruct Hsizes as (Hsh & Hi & Hlo & Hf & Hd & Hn & Hst & Hsz).
assert (Hszpos : 0 < SZINT) by lia.
set (ld := Z.of_nat (length data)) in *.
unfold unpack_option.
set (str := drop (Z.to_nat pos) data).
assert (Hstr : Z.of_nat (length str) = ld - pos)
  by (unfold str, ld; rewrite length_drop; lia).
destruct opt; try discriminate.
- destruct (unpackint _ _ _ _ _); discriminate.
- destruct (unpackint _ _ _ _ _); discriminate.
- (* Kstring *)
  destruct (Hs eq_refl) as [Hs1 Hs2].
  assert (Hfield' : (Z.to_nat size <= length str)%nat) by lia.
  rewrite <- (take_drop (Z.to_nat size) str).
  rewrite (unpackint_app SZINT Hszpos)
    by (rewrite length_take; lia).
  set (field := take (Z.to_nat size) str).
  assert (Hfl : length field = Z.to_nat size)
    by (unfold field; rewrite length_take; lia).
  assert (Hfb : Forall (fun b => 0 <= b < 256) field)
    by (unfold field, str; apply Forall_take, Forall_drop; exact Hbytes).
  destruct (unpackint_value SZINT Hszpos field (islittle h) size false
              Hs1 Hfl Hfb) as (HR & _ & Hv).
  rewrite Hv. clear Hv.
  set (R := le_value _) in *.
  rewrite Z.min_l in HR by lia.
  destruct (Z.ltb_spec size SZINT); [|lia].
  assert (Hp8 : 2 ^ (8 * size) <= 2 ^ (8 * SZ_size_t - 8))
    by (apply Z.pow_le_mono_r; lia).
  assert (Hp1 : 2 ^ (8 * SZ_size_t - 1) = 2 ^ 7 * 2 ^ (8 * SZ_size_t - 8))
    by (rewrite <- Z.pow_add_r by lia; f_equal; lia).
  assert (Hp0 : 2 ^ (8 * SZ_size_t) = 2 ^ 8 * 2 ^ (8 * SZ_size_t - 8))
    by (rewrite <- Z.pow_add_r by lia; f_equal; lia).
  assert (Hint : INT_MAX < 2 ^ (8 * SZ_size_t - 1)).
  { unfold INT_MAX.
    assert (2 ^ (8 * SZ_int - 1) <= 2 ^ (8 * SZ_size_t - 1))
      by (apply Z.pow_le_mono_r; lia).
    lia. }
  rewrite (to_size_t_small R) by lia.
  rewrite to_size_t_small by lia.
  destruct (Z.leb_spec (pos + R + size) ld); simpl; [|discriminate].
  destruct (Z.ltb_spec ld (pos + size + R)); [lia | discriminate].
- (* Kzstr *)
  assert (Hb := strlen_bound str).
  rewrite to_int_small by (unfold INT_MAX in *; lia).
  rewrite to_size_t_small by lia.
  destruct (Z.ltb_spec ld (pos + strlen str)); [lia | discriminate].
Qed.

(** X30: the initial position of [str_unpack] has to lie in the string
    or just behind it: position 0, a position beyond the length plus
    one, and a negative position that reaches before the start of the
    string are all refused with "initial position out of string", before
    anything of the format is looked at. *)
Theorem str_unpack_position fmt data init :
usual_sizes -> SZINT <= SZ_size_t ->
Z.of_nat (length data) < INT_MAX ->
init = 0
\/ Z.of_nat (length data) + 1 < init < 2 ^ (8 * SZ_size_t)
\/ - 2 ^ (NB * SZINT - 1) <= init < - Z.of_nat (length data) ->
str_unpack fmt data init
= Some (inl (Err_arg 3 "initial position out of string")).
Proof.
intros Hsizes Hwide Hld Hinit.
destruct (INT_MAX_fits Hsizes) as (Hmax0 & Hmaxt & Hmaxi & _).
destruct Hsizes as (Hsh & Hi & Hlo & Hf & Hd & Hn & Hst & Hsz).
unfold str_unpack.
set (ld := Z.of_nat (length data)) in *.
assert (Hzero : to_size_t (to_size_t 0 - 1) = 2 ^ (8 * SZ_size_t) - 1).
{ rewrite (to_size_t_small 0) by lia. unfold to_size_t.
  symmetry. apply (Z.mod_unique _ _ (-1)); lia. }
assert (Hpos : posrelat init ld = 0 \/
               (posrelat init ld = init
                /\ ld + 1 < init < 2 ^ (8 * SZ_size_t))).
{ destruct Hinit as [-> | [Hbig|Hneg]].
  - left. reflexivity.
  - right. split; [|exact Hbig]. unfold posrelat.
    destruct (Z.leb_spec 0 init); [reflexivity | lia].
  - left. rewrite posrelat_from_end by lia. lia. }
destruct Hpos as [-> | [-> Hbig]].
- rewrite Hzero.
  destruct (Z.ltb_spec ld (2 ^ (8 * SZ_size_t) - 1)); [reflexivity | lia].
- rewrite (to_size_t_small init) by lia.
  rewrite to_size_t_small by lia.
  destruct (Z.ltb_spec ld (init - 1)); [reflexivity | lia].
Qed.

End WithLua.

End LPackFormatFacts.

(** ** More concrete runs *)

Module MoreRuns.

Import Pkt Bucket Script Ranges Resolv Pktizr Threads Doubles.
Import LPack LPackOptions Machines Accounting Options StatusLine Schedules.
Import LPackFormat.
Import LPackFields LPackOptionFacts LoopRunFacts AccountingFacts.
Import ResolverRunFacts MainFacts LivenessFacts StatusFacts.
Import LPackFormatFacts.

#[local] Existing Instance idle_bucket.
#[local] Existing Instance eth_arp_codec.
#[local] Existing Instance test_platform.
#[local] Existing Instance lp64.
#[local] Existing Instance toy_lua.

(** -2 read from a signed little-endian field of four bytes and
    written back. *)
Lemma unpackint_packint_witness :
  packint 8 [0; 0; 0; 0] (to_unsigned 8 (-2)) true 4 (true && (-2 <? 0)%Z)
  = [254; 255; 255; 255]%Z.
Proof.
  apply (unpackint_packint 8 ltac:(lia) [254; 255; 255; 255]%Z
           [0; 0; 0; 0]%Z true 4 true (-2)%Z);
    try reflexivity; try lia.
  repeat constructor; lia.
Defined.

(** -2 in a signed big-endian field of twelve bytes. *)
Lemma packint_unpackint_wide_witness :
  unpackint 8
    (packint 8 (replicate 12 0%Z) (to_unsigned 8 (-2)) false 12
       (true && (-2 <? 0)%Z))
    false 12 true = Some (-2)%Z.
Proof.
  apply (packint_unpackint_wide 8 ltac:(lia) (replicate 12 0%Z) (-2)%Z
           false 12 true); try reflexivity; try lia.
  vm_compute. split; congruence.
Defined.

(** 32767 in a signed little-endian field of two bytes. *)
Lemma unpackint_range_witness :
  (- 2 ^ (NB * 8 - 1) <= 32767 < 2 ^ (NB * 8 - 1))%Z
  /\ ((2 < 8)%Z ->
      if true then (- 2 ^ (NB * 2 - 1) <= 32767 < 2 ^ (NB * 2 - 1))%Z
      else (0 <= 32767 < 2 ^ (NB * 2))%Z).
Proof.
  apply (unpackint_range 8 ltac:(lia) [255; 127]%Z true 2 true 32767%Z);
    try reflexivity; try lia.
  repeat constructor; lia.
Defined.

(** 2^64 in an unsigned little-endian field of nine bytes. *)
Lemma unpackint_refuses_witness :
  let str := [0; 0; 0; 0; 0; 0; 0; 0; 1]%Z in
  let low :=
    to_integer 8
      (le_value (take (Z.to_nat (Z.min 9 8)) (field_bytes true str))) in
  unpackint 8 str true 9 false = None
  <-> (8 < 9)%Z
      /\ ~ (forall j, (8 <= j < 9)%Z ->
             byte_at str (pos true 9 j)
             = if false && (low <? 0)%Z then 255%Z else 0%Z).
Proof.
  apply (unpackint_refuses 8 ltac:(lia) [0; 0; 0; 0; 0; 0; 0; 0; 1]%Z
           true 9 false); try reflexivity; try lia.
  repeat constructor; lia.
Defined.

(** 0x010203 in a field of three bytes. *)
Lemma packint_mirror_witness :
  packint 8 [0; 0; 0]%Z 66051 false 3 false
  = reverse (packint 8 [0; 0; 0]%Z 66051 true 3 false).
Proof.
  apply (packint_mirror 8 ltac:(lia) [0; 0; 0]%Z 66051 3 false);
    [lia | reflexivity].
Defined.

(** The size of the option [i16]. *)
Lemma getnum_numeral_witness :
  if LPackOptions.digit (peek "16x"%string) then
    exists ds,
      "16x"%string = String.append ds "x"%string
      /\ ds <> EmptyString
      /\ all_digits ds = true
      /\ 16%Z = LPackOptions.decimal ds 0
      /\ (0 <= 16 <= MAXSIZE)%Z
      /\ (LPackOptions.digit (peek "x"%string) = false
          \/ ((MAXSIZE - 9) / 10 < 16)%Z)
  else 16%Z = 4%Z /\ "x"%string = "16x"%string.
Proof.
  apply (getnum_numeral "16x"%string 4 16 "x"%string);
    [simpl; lia | simpl; lia |].
  reflexivity.
Defined.

(** A four-byte integer at offset 5 under [!4]. *)
Lemma getdetails_aligned_witness :
  let h := {| islittle := true; maxalign := 4 |} in
  (0 <= 3 < maxalign h)%Z
  /\ (Kint <> Kpaddalign -> Kint <> Kchar -> (1 < 4)%Z ->
      let a := Z.min 4 (maxalign h) in
      a = (2 ^ Z.log2 a)%Z /\ ((5 + 3) mod a = 0)%Z).
Proof.
  intros h.
  apply (getdetails_aligned h 5 "i4"%string Kint 4 3 h ""%string);
    [simpl; lia | lia | simpl; unfold MAXINTSIZE; lia |].
  reflexivity.
Defined.

(** The same option without [!]. *)
Lemma getdetails_unaligned_witness :
  getdetails initheader 5 "i4"%string
  = inr (Kint, 4%Z, 0%Z, initheader, ""%string)
  /\ 0%Z = 0%Z.
Proof.
  split; [reflexivity|].
  apply (getdetails_unaligned initheader 5 "i4"%string Kint 4 0
           initheader ""%string);
    reflexivity.
Defined.

(** Four bytes asked for in big-endian order on the little-endian
    machine. *)
Lemma copywithendian_order_witness :
  copywithendian [0; 0; 0; 0]%Z [1; 2; 3; 4; 5]%Z 4 false
  = if Bool.eqb false native_little then take (Z.to_nat 4) [1; 2; 3; 4; 5]%Z
    else reverse (take (Z.to_nat 4) [1; 2; 3; 4; 5]%Z).
Proof.
  apply (copywithendian_order [0; 0; 0; 0]%Z [1; 2; 3; 4; 5]%Z 4 false);
    [reflexivity | simpl; lia].
Defined.

Lemma copywithendian_twice_witness :
  copywithendian [0; 0; 0; 0]%Z
    (copywithendian [9; 9; 9; 9]%Z [1; 2; 3; 4; 5]%Z 4 false) 4 false
  = take (Z.to_nat 4) [1; 2; 3; 4; 5]%Z.
Proof.
  apply (copywithendian_twice [9; 9; 9; 9]%Z [0; 0; 0; 0]%Z
           [1; 2; 3; 4; 5]%Z 4 false);
    [reflexivity | reflexivity | simpl; lia].
Defined.

(** The third byte from the end of a string of ten. *)
Lemma posrelat_negative_witness :
  posrelat (-3) 10 = Z.max 0 (10 + -3 + 1)
  /\ (0 <= posrelat (-3) 10 <= 10)%Z.
Proof.
  apply (posrelat_negative (-3) 10); simpl; unfold NB; simpl; lia.
Defined.

(** The second scenario, stopped at the third test. *)
Lemma loop_cb_exit_witness :
  exists s,
    loop_cb (SH := counting_script) scenario2
      ([go 0; go 0] ++ stop_in :: [])
    = (Exited, s)
    /\ loop_i s = Z.of_nat (length [go 0; go 0])
    /\ loop_trace s
       = map (upcall scenario2) (seqZ 0 (Z.of_nat (length [go 0; go 0])))
         ++ [Ev_script_close].
Proof.
  apply (loop_cb_exit (SH := counting_script) scenario2 [go 0; go 0]
           stop_in []).
  - repeat constructor.
  - vm_compute. congruence.
  - left. reflexivity.
Defined.

(** The first turn of the second scenario. *)
Lemma loop_step_divisors_witness :
  tgt_cnt scenario2 <> 0%Z /\ count scenario2 <> 0%Z.
Proof.
  apply (loop_step_divisors (SH := counting_script) scenario2 (go 7)
           (loop_init (SH := counting_script) scenario2)
           (snd (loop_step (SH := counting_script) scenario2 (go 7)
                   (loop_init (SH := counting_script) scenario2)))).
  - simpl. lia.
  - reflexivity.
Defined.

(** The second scenario with one probe per tuple: the pair of the
    third target and the second port. *)
Lemma index_pairs_once_witness :
  let args := set_count 1 scenario2 in
  let i := (1 * tgt_cnt args + 2)%Z in
  (0 <= i < tgt_cnt args * prt_cnt args)%Z
  /\ target_index args i = 2%Z
  /\ port_index args i = 1%Z
  /\ forall j, (0 <= j < tgt_cnt args * prt_cnt args)%Z ->
       target_index args j = 2%Z -> port_index args j = 1%Z -> j = i.
Proof.
  intros args.
  apply (index_pairs_once args 2 1); vm_compute; try reflexivity;
    split; congruence.
Defined.

(** The receiver: a frame of one layer, an empty capture, and the
    end. *)
Lemma recv_cb_exit_witness :
  let pre :=
    [{| recv_done := false; recv_frame := Some (one_layer_frame, 14%Z) |};
     {| recv_done := false; recv_frame := None |}] in
  exists s,
    recv_cb (SH := counting_script) (pre ++ done_recv :: [])
    = (Exited, s)
    /\ count_events is_capture (recv_trace s) = length pre
    /\ count_events is_release (recv_trace s)
       = length (List.filter (fun x => has_frame (recv_frame x)) pre)
    /\ count_events is_script_recv (recv_trace s)
       = length (List.filter (fun x => goes_to_script (recv_frame x)) pre)
    /\ exists tr, recv_trace s = tr ++ [Ev_script_close].
Proof.
  intros pre.
  apply (recv_cb_exit (SH := counting_script) pre done_recv []).
  - repeat constructor.
  - reflexivity.
Defined.


(** The resolver when the gateway answers. *)
Lemma resolv_success_witness :
  let ins := [{| cap_frame := Some (gateway_reply, 42%Z);
                 cap_now := 1000 |}] in
  exists i rsp rsp_len h,
    In i ins /\ cap_frame i = Some (rsp, rsp_len)
    /\ (wrap64 (cap_now i - 0) <= timeout)%Z
    /\ In (N_arp h) (nodes (snd (pkt_unpack rsp rsp_len)))
    /\ arp_matches 167772162 167772161 h
    /\ [2; 0; 0; 0; 0; 1]%Z = take 6 (hwsrc h) ++ drop 6 [0; 0; 0; 0; 0; 0]%Z.
Proof.
  intros ins.
  apply (resolv_success true 0 ins [2; 0; 0; 0; 0; 2]%Z 167772162
           [0; 0; 0; 0; 0; 0]%Z 167772161 [2; 0; 0; 0; 0; 1]%Z
           (snd (resolv_addr_to_mac true 0 ins [2; 0; 0; 0; 0; 2]%Z
                   167772162 [0; 0; 0; 0; 0; 0]%Z 167772161))).
  - repeat constructor.
  - vm_compute. reflexivity.
Defined.

(** The command line [pktizr 10.0.0.9 -q -w 3]. *)
Lemma main_needs_script_witness :
  main 5 "10.0.0.9"%string [Opt_q; Opt_w "3"%string] zeroed_args 0 []
  = Failure "No script provided"%string
  \/ exists out,
       option_loop [Opt_q; Opt_w "3"%string]
         {| l_args := defaults "10.0.0.9"%string zeroed_args;
            l_local_addr := None; l_gateway_addr := None |}
       = inl out
       /\ main 5 "10.0.0.9"%string [Opt_q; Opt_w "3"%string] zeroed_args
            0 [] = out.
Proof.
  apply (main_needs_script 5 "10.0.0.9"%string
           [Opt_q; Opt_w "3"%string] zeroed_args 0 []);
    [lia | reflexivity].
Defined.

(** The command line [pktizr 10.0.0.9 -S probe.lua], the gateway
    answering. *)
Lemma main_ready_witness :
  let ins := [{| cap_frame := Some (gateway_reply, 42%Z);
                 cap_now := 1000 |}] in
  exists args tr,
    main 5 "10.0.0.9"%string [Opt_S "probe.lua"%string] zeroed_args 0 ins
    = Ready args tr
    /\ done args = false /\ stop args = false
    /\ script args <> None
    /\ injects tr = 1%nat
    /\ exists r mac,
         routes_get_default = Some r
         /\ resolve_ifname_to_mac (if_name r) = Some mac
         /\ local_mac args = mac
         /\ netdev_open (if_name r) = true
         /\ (forallb (fun o => negb (is_Opt_g o))
               [Opt_S "probe.lua"%string] = true ->
             gateway_addr args = ntohl little_endian (gate_addr r)).
Proof.
  intros ins. do 2 eexists. split; [vm_compute; reflexivity|].
  apply (main_ready 5 "10.0.0.9"%string [Opt_S "probe.lua"%string]
           zeroed_args 0 ins).
  vm_compute. reflexivity.
Defined.

(** The threads right after their start. *)
Lemma shutdown_possible_witness :
  exists s' : sys (L := Z),
    steps (SH := counting_script) scenario2
      (sys_init (SH := counting_script) scenario2) s'
    /\ sys_main s' = M_close
    /\ sys_done s' = true
    /\ fst (sys_loop s') = Exited
    /\ fst (sys_recv s') = Exited
    /\ fst (sys_send s') = Send_exit.
Proof.
  apply (shutdown_possible (SH := counting_script) scenario2).
  apply reach_init.
Defined.

(** A scan of twelve probes interrupted at the second look, then a
    wait of five seconds. *)
Lemma status_line_writes_witness :
  let pins :=
    [{| st_now := 250000; st_sent := 3; st_probe := 3; st_recv := 0;
        st_stop := false |};
     {| st_now := 500000; st_sent := 6; st_probe := 6; st_recv := 1;
        st_stop := true |}] in
  let wins := replicate 5 false in
  exists a tr,
    status_line scenario2 12 0 0 pins wins = Some (a, tr)
    /\ a = set_stop true (set_wait (wait a) scenario2)
    /\ (0 <= wait a <= wait scenario2)%Z
    /\ (wait a = 0%Z \/ In true wins)
    /\ exists (b : bool) k,
         stop_writes tr = (if b then [true] else []) ++ [false; true]
         /\ sleeps tr
            = replicate k 250000%Z
              ++ replicate (Z.to_nat (wait scenario2 - wait a)) 1000000%Z
         /\ (k < length pins)%nat
         /\ (if b then exists i, In i pins /\ st_stop i = true
             else exists i, In i pins /\ st_probe i = 12%Z).
Proof.
  intros pins wins. do 2 eexists. split; [vm_compute; reflexivity|].
  apply (status_line_writes scenario2 12 0 0 pins wins).
  - vm_compute. split; congruence.
  - vm_compute. reflexivity.
Defined.

Lemma status_line_returns_witness :
  let pins :=
    [{| st_now := 250000; st_sent := 12; st_probe := 12; st_recv := 0;
        st_stop := false |}] in
  exists a tr,
    status_line scenario2 12 0 0 pins (replicate 5 false) = Some (a, tr).
Proof.
  intros pins.
  apply (status_line_returns scenario2 12 0 0 pins (replicate 5 false)).
  - vm_compute. split; congruence.
  - eexists. split; [left; reflexivity|]. left. reflexivity.
  - simpl. lia.
Defined.

Lemma lp64_usual : usual_sizes.
Proof. unfold usual_sizes. simpl. lia. Qed.

Lemma toy_lua_lawful : lawful_api.
Proof.
  unfold lawful_api. simpl.
  split; [|repeat split; try reflexivity].
  - intros v n Hv. destruct v; try discriminate.
    inversion Hv. apply (to_integer_range 8). lia.
  - intros size. apply length_replicate.
Qed.


(** The packed sample, byte by byte: -2 in two bytes, "hi" behind
    its length, "ok" and its terminator, a padding byte, 7 in three
    bytes most significant first, a padding byte and three more to
    reach a multiple of four, 0x010203 in four bytes, and the four
    bytes of the float. *)
Lemma sample_packed :
  str_pack sample_format sample_args
  = Some (inr [254; 255; 2; 104; 105; 111; 107; 0; 0; 0; 0; 7;
               0; 0; 0; 0; 3; 2; 1; 0; 219; 15; 73; 64]%Z)
  /\ str_unpack sample_format
       [254; 255; 2; 104; 105; 111; 107; 0; 0; 0; 0; 7;
        0; 0; 0; 0; 3; 2; 1; 0; 219; 15; 73; 64]%Z 1
     = Some (inr [T_integer (-2); T_string [104; 105]%Z;
                  T_string [111; 107]%Z; T_integer 7; T_integer 66051;
                  T_number 1078530011; T_integer 25]).
Proof. vm_compute. split; reflexivity. Qed.

(** A string behind a one-byte length. *)
Lemma unpack_option_in_bounds_witness :
  unpack_option initheader Kstring 1 [2; 104; 105]%Z
    (Z.of_nat (length [2; 104; 105]%Z)) 0
  <> inl Read_beyond_data.
Proof.
  apply (unpack_option_in_bounds initheader Kstring 1 [2; 104; 105]%Z 0).
  - exact lp64_usual.
  - repeat constructor; lia.
  - vm_compute. reflexivity.
  - lia.
  - lia.
  - simpl. lia.
  - intros _. simpl. lia.
Defined.

(** Position 0 of a string of three bytes. *)
Lemma str_unpack_position_witness :
  str_unpack "b"%string [1; 2; 3]%Z 0
  = Some (inl (Err_arg 3 "initial position out of string"%string)).
Proof.
  apply (str_unpack_position "b"%string [1; 2; 3]%Z 0).
  - exact lp64_usual.
  - simpl. lia.
  - vm_compute. reflexivity.
  - left. reflexivity.
Defined.

(** With a length prefix as wide as [size_t] the check of line 443
    can be passed by a length that reaches beyond the string: eight
    bytes 0xff announce 2^64 - 1 bytes, and [pos + len + size] wraps
    around to 7. *)
Lemma unpack_s8_wraps :
  str_unpack "s8"%string (replicate 8 255%Z) 1
  = Some (inl Read_beyond_data).
Proof. vm_compute. reflexivity. Qed.

End MoreRuns.
